(** * cbft: the partitioned ingest pipeline of the bleve destination

    A shallow embedding of [BleveDest] and [BleveDestPartition] (the
    per-partition batching state machine and its consistency-wait queue) and
    of [VBucketIdToPartitionDest] from the TAP feed; then of
    [BleveDest.Rollback], of [ParsePartitionsToVBucketIds] and the naming
    loop of [CouchbasePartitions], of the callbacks of [DCPFeed], and of the
    manager's registry of feeds and pindexes and its cached plan.

    Conventions.
    - [uint64] values are [Z]; the code only compares and copies sequence
      numbers, so no wrap-around arithmetic occurs on them (the counters of
      [DCPFeed] are incremented, and wrap).
    - byte slices are [list byte]; a slice that Go distinguishes from [nil]
      is an [option (list byte)] where the code tests for [nil].
    - a Go channel is named by a [chan] identity; what a goroutine does on a
      channel is recorded as an [event] in the trace the operation returns.
      Which callers of [ConsistencyWait] have returned on their cancel
      channel, so that a send to them blocks for ever, is a parameter
      ([Callers]).
    - every method that takes the partition mutex is one atomic function on
      the partition state. *)

From Stdlib Require Import ZArith List String Ascii Lia.
From Stdlib.Strings Require Import Byte.
From Stdlib Require Import DecimalString DecimalN.
From stdpp Require Import base option list gmap strings sorting.
From Equations Require Import Equations.

Local Open Scope Z_scope.

(** ** Bytes and [encoding/binary.BigEndian] *)

Definition uint64_max : Z := 2 ^ 64.

Definition is_uint64 (v : Z) : Prop := 0 <= v < uint64_max.

(** Go's conversion [byte(v)]: the low eight bits. *)
Definition byte_of_Z (v : Z) : byte :=
  default Byte.x00 (Byte.of_N (Z.to_N (Z.land v 255))).

Definition Z_of_byte (b : byte) : Z := Z.of_N (Byte.to_N b).

Module BigEndian.

(** [PutUint64(b, v)]: [b[0] = byte(v >> 56)] ... [b[7] = byte(v)]. *)
Definition PutUint64 (v : Z) : list byte :=
  [ byte_of_Z (Z.shiftr v 56); byte_of_Z (Z.shiftr v 48);
    byte_of_Z (Z.shiftr v 40); byte_of_Z (Z.shiftr v 32);
    byte_of_Z (Z.shiftr v 24); byte_of_Z (Z.shiftr v 16);
    byte_of_Z (Z.shiftr v 8);  byte_of_Z v ].

Definition at_ (b : list byte) (i : nat) : Z := Z_of_byte (nth i b Byte.x00).

(** [Uint64(b)]: [uint64(b[7]) | uint64(b[6])<<8 | ... | uint64(b[0])<<56]. *)
Definition Uint64 (b : list byte) : Z :=
  Z.lor (at_ b 7)
 (Z.lor (Z.shiftl (at_ b 6) 8)
 (Z.lor (Z.shiftl (at_ b 5) 16)
 (Z.lor (Z.shiftl (at_ b 4) 24)
 (Z.lor (Z.shiftl (at_ b 3) 32)
 (Z.lor (Z.shiftl (at_ b 2) 40)
 (Z.lor (Z.shiftl (at_ b 1) 48)
        (Z.shiftl (at_ b 0) 56))))))).

End BigEndian.

(** ** Consistency wait requests and the trace of channel operations *)

Definition chan := nat.

Inductive error : Type :=
| ErrAlreadyClosed                      (* "BleveDest already closed" *)
| ErrUnsupportedLevel (level : string)  (* "consistency wait unsupported level: %s" *)
| ErrWaitClosed                         (* "consistency wait closed" *)
| ErrSeqMaxSize                         (* "unexpected size for seqMax bytes" *)
| ErrCancelled                          (* "cancelled" *)
| ErrEngine (msg : string)              (* an error of the bleve index *)
| ErrPartitionFunc (vbucketId : Z) (e : error).

(** [consistencyWaitReq].  The queue holds pointers to requests; the only
    allocation site, [ConsistencyWait], builds [&consistencyWaitReq{...}] with
    [doneCh: make(chan error)], so neither the pointer nor [doneCh] is nil,
    and the test [cwr != nil && cwr.doneCh != nil] of [applyBatchUnlocked]
    always holds. *)
Record consistencyWaitReq : Type := {
  consistencyLevel : string;
  consistencySeq   : Z;
  cancelCh         : option chan;
  doneCh           : chan
}.

(** ** [cwrQueue]: the [heap.Interface] methods

    The type is [CwrQueue] here, as the partition has a field [cwrQueue]. *)

Abbreviation CwrQueue := (list consistencyWaitReq).

Module cwrQ.

Definition Len (pq : CwrQueue) : nat := length pq.

(** [pq[i].consistencySeq < pq[j].consistencySeq]; an index out of range
    panics in Go and is [false] here. *)
Definition Less (pq : CwrQueue) (i j : nat) : bool :=
  match pq !! i, pq !! j with
  | Some a, Some b => bool_decide (consistencySeq a < consistencySeq b)
  | _, _ => false
  end.

(** [pq[i], pq[j] = pq[j], pq[i]]; an index out of range panics in Go and
    leaves the queue as it is here. *)
Definition Swap (pq : CwrQueue) (i j : nat) : CwrQueue :=
  match pq !! i, pq !! j with
  | Some a, Some b => <[i:=b]> (<[j:=a]> pq)
  | _, _ => pq
  end.

(** [pq = append(pq, x)] on the queue behind the pointer. *)
Definition Push (pq : CwrQueue) (x : consistencyWaitReq) : CwrQueue := pq ++ [x].

(** [item := old[n-1]; pq = old[0:n-1]]; [None] is Go's index panic on an
    empty queue. *)
Definition Pop (pq : CwrQueue) : option (consistencyWaitReq * CwrQueue) :=
  match pq !! (length pq - 1)%nat with
  | Some item => Some (item, take (length pq - 1) pq)
  | None => None
  end.

End cwrQ.

(** ** [container/heap] over a [cwrQueue]

    The functions of Go's standard package the partition calls, after its
    sources.  Indices are [nat]: Go's [(j - 1) / 2] truncates toward zero, so
    it is [0] at [j = 0], as is [(0 - 1) / 2] on [nat]; the test [j1 < 0] of
    [down] guards against an overflow of [int] that a slice's length cannot
    cause.  (Older releases of the package choose the right child on
    [!h.Less(j1, j2)]; the two differ on equal targets only.) *)

Module heap.

Local Open Scope nat_scope.

(** [up(h, j)]:
    [for { i := (j - 1) / 2; if i == j || !h.Less(j, i) { break };
           h.Swap(i, j); j = i }]. *)
Equations? up (h : CwrQueue) (j : nat) : CwrQueue by wf j lt :=
  up h j with decide ((j - 1) / 2 = j) => {
    | left _ := h ;
    | right _ with cwrQ.Less h j ((j - 1) / 2) => {
        | true := up (cwrQ.Swap h ((j - 1) / 2) j) ((j - 1) / 2) ;
        | false := h } }.
Proof.
  change (Nat.divmod (j - 1) 1 0 1).1 with ((j - 1) / 2) in *.
  assert ((j - 1) / 2 <= j - 1) by (apply Nat.Div0.div_le_upper_bound; lia).
  lia.
Qed.

(** The child [down] compares with the parent: the right one when it exists
    and is smaller, else the left one.
    [j := j1; if j2 := j1 + 1; j2 < n && h.Less(j2, j1) { j = j2 }]. *)
Definition down_child (h : CwrQueue) (i n : nat) : nat :=
  let j1 := 2 * i + 1 in
  if bool_decide (j1 + 1 < n) && cwrQ.Less h (j1 + 1) j1 then j1 + 1 else j1.

(** [down(h, i, n)]:
    [for { j1 := 2*i + 1; if j1 >= n || j1 < 0 { break }; j := ...;
           if !h.Less(j, i) { break }; h.Swap(i, j); i = j }]. *)
Equations? down (h : CwrQueue) (i n : nat) : CwrQueue by wf (n - i) lt :=
  down h i n with decide (n <= 2 * i + 1) => {
    | left _ := h ;
    | right _ with cwrQ.Less h (down_child h i n) i => {
        | true := down (cwrQ.Swap h i (down_child h i n)) (down_child h i n) n ;
        | false := h } }.
Proof.
  unfold down_child.
  destruct (bool_decide (2 * i + 1 + 1 < n) && _); lia.
Qed.

(** [Init]: [n := h.Len(); for i := n/2 - 1; i >= 0; i-- { down(h, i, n) }].
    [init_loop k] runs the iterations [i = k - 1, ..., 0]. *)
Fixpoint init_loop (k : nat) (h : CwrQueue) (n : nat) : CwrQueue :=
  match k with
  | O => h
  | S i => init_loop i (down h i n) n
  end.

Definition Init (h : CwrQueue) : CwrQueue :=
  let n := cwrQ.Len h in init_loop (n / 2) h n.

(** [Push]: [h.Push(x); up(h, h.Len()-1)]. *)
Definition Push (h : CwrQueue) (x : consistencyWaitReq) : CwrQueue :=
  let h1 := cwrQ.Push h x in up h1 (cwrQ.Len h1 - 1).

(** [Pop]: [n := h.Len() - 1; h.Swap(0, n); down(h, 0, n); return h.Pop()]. *)
Definition Pop (h : CwrQueue) : option (consistencyWaitReq * CwrQueue) :=
  let n := cwrQ.Len h - 1 in
  cwrQ.Pop (down (cwrQ.Swap h 0 n) 0 n).

End heap.


(** ** The bleve index and its batch builder

    [bleve.Batch] and [bleve.Index] belong to the bleve library.  A batch is
    the sequence of operations recorded on the builder; the index is an
    interface the destination is given, here a class over the type of index
    states.

    An operation is recorded with the bytes its slice holds when it is
    recorded.  The slices the partition passes alias [buf], [seqMaxBuf] and
    [lastOpaque]: [buf] is only appended to until the batch is applied, and
    [seqMaxBuf] and [lastOpaque] are rewritten only by the code that stages
    their key again right after ([GetOpaque] writes [seqMaxBuf] while
    [seqMax] is 0, that is before the key was ever staged), so the last
    operation on a key has the bytes the index will see. *)

Inductive result (A : Type) : Type :=
| Ok (a : A)
| Err (e : error).
Arguments Ok {A} a.
Arguments Err {A} e.

Inductive batch_op : Type :=
| OpIndex (id : string) (data : list byte)                 (* [batch.Index(id, data)] *)
| OpDelete (id : string)                                   (* [batch.Delete(id)] *)
| OpSetInternal (key : string) (val : option (list byte)). (* [batch.SetInternal(key, val)] *)

Definition Batch := list batch_op.

Definition NewBatch : Batch := [].

Definition Batch_Index (b : Batch) (id : string) (data : list byte) : Batch :=
  b ++ [OpIndex id data].

Definition Batch_Delete (b : Batch) (id : string) : Batch :=
  b ++ [OpDelete id].

Definition Batch_SetInternal (b : Batch) (key : string) (val : option (list byte)) : Batch :=
  b ++ [OpSetInternal key val].

(** The value the batch leaves under an internal key: that of the last
    [SetInternal] on it, if any. *)
Fixpoint staged_internal (key : string) (b : Batch) : option (option (list byte)) :=
  match b with
  | [] => None
  | op :: b' =>
    match staged_internal key b' with
    | Some v => Some v
    | None =>
      match op with
      | OpSetInternal k v => if decide (k = key) then Some v else None
      | _ => None
      end
    end
  end.

(** [bleve.Index], the part the destination uses: [Batch], [GetInternal] and
    [Close].  A failed [Batch] leaves the index as it was. *)
Class BleveIndex (Index : Type) : Type := {
  idx_Batch : Index -> Batch -> result Index;
  idx_GetInternal : Index -> string -> result (list byte);
  idx_Close : Index -> option error
}.

(** The contract of the index on internal keys: a read that succeeds after a
    batch was applied returns what the batch staged under the key (a nil value
    removes the key, which reads as empty). *)
Class BleveIndexInternal (Index : Type) `{BleveIndex Index} : Prop := {
  idx_batch_internal :
    forall (i i' : Index) (b : Batch) (key : string) (v : option (list byte)) (w : list byte),
      idx_Batch i b = Ok i' ->
      staged_internal key b = Some v ->
      idx_GetInternal i' key = Ok w ->
      w = default [] v
}.

(** What an operation does to the outside, in program order.  A send is
    recorded where the goroutine issues it; [doneCh] is unbuffered, so the
    send completes when the waiter, blocked in [ConsistencyWait], receives.
    A send that no caller receives is recorded too, as the last event of the
    worker, which is then blocked (see [Worker]). *)
Inductive event : Type :=
| EvSend (c : chan) (e : error)    (* [c <- e] on a waiter's [doneCh] *)
| EvClose (c : chan)               (* [close(c)] on a waiter's [doneCh] *)
| EvGetInternal (key : string)     (* [bindex.GetInternal(key)] *)
| EvBatch (b : Batch).             (* [bindex.Batch(b)] *)

(** ** [BleveDestPartition] *)

Definition BLEVE_DEST_INITIAL_BUF_SIZE_BYTES : Z := 20000.
Definition BLEVE_DEST_APPLY_BUF_SIZE_BYTES : Z := 200000.

(** [cwrCh] holds the requests sent on the channel and not yet received by
    the worker; [cwrChClosed] records [close(cwrCh)]. *)
Record BleveDestPartition : Type := {
  partition       : string;
  partitionOpaque : string;
  seqMax          : Z;
  seqMaxBuf       : list byte;
  seqMaxBatch     : Z;
  seqSnapEnd      : Z;
  buf             : option (list byte);
  batch           : Batch;
  lastOpaque      : option (list byte);
  cwrCh           : list consistencyWaitReq;
  cwrChClosed     : bool;
  cwrQueue        : CwrQueue
}.

Definition set_seqMax (v : Z) (t : BleveDestPartition) : BleveDestPartition :=
  {| partition := partition t; partitionOpaque := partitionOpaque t;
     seqMax := v; seqMaxBuf := seqMaxBuf t; seqMaxBatch := seqMaxBatch t;
     seqSnapEnd := seqSnapEnd t; buf := buf t; batch := batch t;
     lastOpaque := lastOpaque t; cwrCh := cwrCh t; cwrChClosed := cwrChClosed t;
     cwrQueue := cwrQueue t |}.

Definition set_seqMaxBuf (v : list byte) (t : BleveDestPartition) : BleveDestPartition :=
  {| partition := partition t; partitionOpaque := partitionOpaque t;
     seqMax := seqMax t; seqMaxBuf := v; seqMaxBatch := seqMaxBatch t;
     seqSnapEnd := seqSnapEnd t; buf := buf t; batch := batch t;
     lastOpaque := lastOpaque t; cwrCh := cwrCh t; cwrChClosed := cwrChClosed t;
     cwrQueue := cwrQueue t |}.

Definition set_seqMaxBatch (v : Z) (t : BleveDestPartition) : BleveDestPartition :=
  {| partition := partition t; partitionOpaque := partitionOpaque t;
     seqMax := seqMax t; seqMaxBuf := seqMaxBuf t; seqMaxBatch := v;
     seqSnapEnd := seqSnapEnd t; buf := buf t; batch := batch t;
     lastOpaque := lastOpaque t; cwrCh := cwrCh t; cwrChClosed := cwrChClosed t;
     cwrQueue := cwrQueue t |}.

Definition set_seqSnapEnd (v : Z) (t : BleveDestPartition) : BleveDestPartition :=
  {| partition := partition t; partitionOpaque := partitionOpaque t;
     seqMax := seqMax t; seqMaxBuf := seqMaxBuf t; seqMaxBatch := seqMaxBatch t;
     seqSnapEnd := v; buf := buf t; batch := batch t;
     lastOpaque := lastOpaque t; cwrCh := cwrCh t; cwrChClosed := cwrChClosed t;
     cwrQueue := cwrQueue t |}.

Definition set_buf (v : option (list byte)) (t : BleveDestPartition) : BleveDestPartition :=
  {| partition := partition t; partitionOpaque := partitionOpaque t;
     seqMax := seqMax t; seqMaxBuf := seqMaxBuf t; seqMaxBatch := seqMaxBatch t;
     seqSnapEnd := seqSnapEnd t; buf := v; batch := batch t;
     lastOpaque := lastOpaque t; cwrCh := cwrCh t; cwrChClosed := cwrChClosed t;
     cwrQueue := cwrQueue t |}.

Definition set_batch (v : Batch) (t : BleveDestPartition) : BleveDestPartition :=
  {| partition := partition t; partitionOpaque := partitionOpaque t;
     seqMax := seqMax t; seqMaxBuf := seqMaxBuf t; seqMaxBatch := seqMaxBatch t;
     seqSnapEnd := seqSnapEnd t; buf := buf t; batch := v;
     lastOpaque := lastOpaque t; cwrCh := cwrCh t; cwrChClosed := cwrChClosed t;
     cwrQueue := cwrQueue t |}.

Definition set_lastOpaque (v : option (list byte)) (t : BleveDestPartition) : BleveDestPartition :=
  {| partition := partition t; partitionOpaque := partitionOpaque t;
     seqMax := seqMax t; seqMaxBuf := seqMaxBuf t; seqMaxBatch := seqMaxBatch t;
     seqSnapEnd := seqSnapEnd t; buf := buf t; batch := batch t;
     lastOpaque := v; cwrCh := cwrCh t; cwrChClosed := cwrChClosed t;
     cwrQueue := cwrQueue t |}.

Definition set_cwrCh (v : list consistencyWaitReq) (t : BleveDestPartition) : BleveDestPartition :=
  {| partition := partition t; partitionOpaque := partitionOpaque t;
     seqMax := seqMax t; seqMaxBuf := seqMaxBuf t; seqMaxBatch := seqMaxBatch t;
     seqSnapEnd := seqSnapEnd t; buf := buf t; batch := batch t;
     lastOpaque := lastOpaque t; cwrCh := v; cwrChClosed := cwrChClosed t;
     cwrQueue := cwrQueue t |}.

Definition set_cwrChClosed (v : bool) (t : BleveDestPartition) : BleveDestPartition :=
  {| partition := partition t; partitionOpaque := partitionOpaque t;
     seqMax := seqMax t; seqMaxBuf := seqMaxBuf t; seqMaxBatch := seqMaxBatch t;
     seqSnapEnd := seqSnapEnd t; buf := buf t; batch := batch t;
     lastOpaque := lastOpaque t; cwrCh := cwrCh t; cwrChClosed := v;
     cwrQueue := cwrQueue t |}.

Definition set_cwrQueue (v : CwrQueue) (t : BleveDestPartition) : BleveDestPartition :=
  {| partition := partition t; partitionOpaque := partitionOpaque t;
     seqMax := seqMax t; seqMaxBuf := seqMaxBuf t; seqMaxBatch := seqMaxBatch t;
     seqSnapEnd := seqSnapEnd t; buf := buf t; batch := batch t;
     lastOpaque := lastOpaque t; cwrCh := cwrCh t; cwrChClosed := cwrChClosed t;
     cwrQueue := v |}.

(** [len(b)] of a slice that may be nil. *)
Definition len (b : option (list byte)) : Z := Z.of_nat (length (default [] b)).

(** The partition [getPartitionUnlocked] allocates:
    [seqMaxBuf: make([]byte, 8)], [batch: bleve.NewBatch()], an empty
    [cwrQueue] passed through [heap.Init]; the other fields are zero. *)
Definition newPartition (partition : string) : BleveDestPartition :=
  {| partition := partition;
     partitionOpaque := "o:" ++ partition;
     seqMax := 0;
     seqMaxBuf := replicate 8 Byte.x00;
     seqMaxBatch := 0;
     seqSnapEnd := 0;
     buf := None;
     batch := NewBatch;
     lastOpaque := None;
     cwrCh := [];
     cwrChClosed := false;
     cwrQueue := heap.Init [] |}.

(** The outcome of a method: the partition and the index after it, what it
    did to the outside, and what it returned. *)
Record Outcome (Index A : Type) : Type := {
  st    : BleveDestPartition;
  idx   : Index;
  trace : list event;
  res   : A
}.
Arguments st {Index A} _.
Arguments idx {Index A} _.
Arguments trace {Index A} _.
Arguments res {Index A} _.

(** The loop of [applyBatchUnlocked] that wakes the waiters:
    [for t.cwrQueue.Len() > 0 && t.cwrQueue[0].consistencySeq <= t.seqMaxBatch
       { cwr := heap.Pop(&t.cwrQueue); close(cwr.doneCh) }].
    Every iteration removes one request, so [fuel = Len] iterations suffice
    (see [wake_loop_exit]).  Returns the queue left and the requests woken,
    in the order they were popped. *)
Fixpoint wake_loop (fuel : nat) (q : CwrQueue) (seqMaxBatch : Z)
  : CwrQueue * list consistencyWaitReq :=
  match fuel with
  | O => (q, [])
  | S fuel' =>
    match q !! 0%nat with
    | None => (q, [])
    | Some top =>
      if bool_decide (consistencySeq top <= seqMaxBatch) then
        match heap.Pop q with
        | None => (q, [])
        | Some (cwr, q') =>
          let '(q'', woken) := wake_loop fuel' q' seqMaxBatch in
          (q'', cwr :: woken)
        end
      else (q, [])
    end
  end.

Definition wake (q : CwrQueue) (seqMaxBatch : Z) : CwrQueue * list consistencyWaitReq :=
  wake_loop (cwrQ.Len q) q seqMaxBatch.

(** [append(s[0:0], value...)]: nil stays nil when nothing is appended. *)
Definition append_reset (s : option (list byte)) (value : list byte) : option (list byte) :=
  match value with
  | [] => match s with None => None | Some _ => Some [] end
  | _ => Some value
  end.

(** [append([]byte(nil), value...)]. *)
Definition append_nil (value : list byte) : option (list byte) :=
  match value with
  | [] => None
  | _ => Some value
  end.

Section Partition.

Context {Index : Type} {BI : BleveIndex Index}.

(** [applyBatchUnlocked]. *)
Definition applyBatchUnlocked (t : BleveDestPartition) (bindex : Index)
  : Outcome Index (option error) :=
  match idx_Batch bindex (batch t) with
  | Err err =>
    {| st := t; idx := bindex; trace := [EvBatch (batch t)]; res := Some err |}
  | Ok bindex' =>
    let t1 := set_seqMaxBatch (seqMax t) t in
    let '(q, woken) := wake (cwrQueue t1) (seqMaxBatch t1) in
    let t2 := set_cwrQueue q t1 in
    let t3 := set_batch NewBatch t2 in
    let t4 := match buf t3 with
              | Some _ => set_buf (Some []) t3
              | None => t3
              end in
    {| st := t4; idx := bindex';
       trace := EvBatch (batch t) :: map (fun cwr => EvClose (doneCh cwr)) woken;
       res := None |}
  end.

(** [updateSeqUnlocked]. *)
Definition updateSeqUnlocked (t : BleveDestPartition) (bindex : Index) (seq : Z)
  : Outcome Index (option error) :=
  let t1 :=
    if bool_decide (seqMax t < seq) then
      let ta := set_seqMax seq t in
      let tb := set_seqMaxBuf (BigEndian.PutUint64 (seqMax ta)) ta in
      set_batch (Batch_SetInternal (batch tb) (partition tb) (Some (seqMaxBuf tb))) tb
    else t in
  if bool_decide (len (buf t1) < BLEVE_DEST_APPLY_BUF_SIZE_BYTES)
     && bool_decide (seq < seqSnapEnd t1)
  then {| st := t1; idx := bindex; trace := []; res := None |}
  else applyBatchUnlocked t1 bindex.

(** [appendToBufUnlocked]: the slice returned holds a copy of [b]. *)
Definition appendToBufUnlocked (t : BleveDestPartition) (b : list byte)
  : BleveDestPartition * list byte :=
  if bool_decide (Z.of_nat (length b) <= 0) then (t, b)
  else
    let t1 := match buf t with
              | None => set_buf (Some []) t
              | Some _ => t
              end in
    let t2 := set_buf (Some (default [] (buf t1) ++ b)) t1 in
    (t2, b).

(** [OnDataUpdate]. *)
Definition OnDataUpdate (t : BleveDestPartition) (bindex : Index)
  (key : string) (seq : Z) (val : list byte) : Outcome Index (option error) :=
  let '(t1, bufVal) := appendToBufUnlocked t val in
  let t2 := set_batch (Batch_Index (batch t1) key bufVal) t1 in
  updateSeqUnlocked t2 bindex seq.

(** [OnDataDelete]. *)
Definition OnDataDelete (t : BleveDestPartition) (bindex : Index)
  (key : string) (seq : Z) : Outcome Index (option error) :=
  let t1 := set_batch (Batch_Delete (batch t) key) t in
  updateSeqUnlocked t1 bindex seq.

(** [OnSnapshotStart]. *)
Definition OnSnapshotStart (t : BleveDestPartition) (bindex : Index)
  (snapStart snapEnd : Z) : Outcome Index (option error) :=
  let o := applyBatchUnlocked t bindex in
  match res o with
  | Some err => o
  | None =>
    {| st := set_seqSnapEnd snapEnd (st o); idx := idx o; trace := trace o;
       res := None |}
  end.

(** [SetOpaque]. *)
Definition SetOpaque (t : BleveDestPartition) (bindex : Index)
  (value : list byte) : Outcome Index (option error) :=
  let t1 := set_lastOpaque (append_reset (lastOpaque t) value) t in
  let t2 := set_batch (Batch_SetInternal (batch t1) (partitionOpaque t1) (lastOpaque t1)) t1 in
  {| st := t2; idx := bindex; trace := []; res := None |}.

(** The second half of [GetOpaque]: [if t.seqMax <= 0 { ... }] and the final
    return. *)
Definition GetOpaque_seqMax (t : BleveDestPartition) (bindex : Index)
  (tr : list event) : Outcome Index (result (option (list byte) * Z)) :=
  if bool_decide (seqMax t <= 0) then
    let tr1 := tr ++ [EvGetInternal (partition t)] in
    match idx_GetInternal bindex (partition t) with
    | Err err => {| st := t; idx := bindex; trace := tr1; res := Err err |}
    | Ok b =>
      if bool_decide (Z.of_nat (length b) <= 0) then
        {| st := t; idx := bindex; trace := tr1; res := Ok (lastOpaque t, 0) |}
      else if bool_decide (Z.of_nat (length b) <> 8) then
        {| st := t; idx := bindex; trace := tr1; res := Err ErrSeqMaxSize |}
      else
        let t1 := set_seqMax (BigEndian.Uint64 (take 8 b)) t in
        let t2 := set_seqMaxBuf (BigEndian.PutUint64 (seqMax t1)) t1 in
        {| st := t2; idx := bindex; trace := tr1;
           res := Ok (lastOpaque t2, seqMax t2) |}
    end
  else
    {| st := t; idx := bindex; trace := tr; res := Ok (lastOpaque t, seqMax t) |}.

(** [GetOpaque]. *)
Definition GetOpaque (t : BleveDestPartition) (bindex : Index)
  : Outcome Index (result (option (list byte) * Z)) :=
  match lastOpaque t with
  | None =>
    let tr := [EvGetInternal (partitionOpaque t)] in
    match idx_GetInternal bindex (partitionOpaque t) with
    | Err err => {| st := t; idx := bindex; trace := tr; res := Err err |}
    | Ok value =>
      GetOpaque_seqMax (set_lastOpaque (append_nil value) t) bindex tr
    end
  | Some _ => GetOpaque_seqMax t bindex []
  end.

End Partition.

(** ** The worker [run] and the callers it answers

    [doneCh] is made by [ConsistencyWait] as [make(chan error)]: it has no
    buffer, so a send [cwr.doneCh <- err] completes only when the caller
    receives.  A caller without [cancelCh] does nothing but receive; one with
    a [cancelCh] selects between the two channels and may return "cancelled",
    after which nobody receives from its [doneCh], and a send on it blocks
    for ever.  The worker sends while it holds [t.m].  A [close] never
    blocks.

    [gone c] tells that the caller that made the channel [c] returns on its
    [cancelCh] without receiving from [c]. *)
Class Callers : Type := { gone : chan -> bool }.

(** Every caller receives. *)
#[export] Instance callers_waiting : Callers := {| gone := fun _ => false |}.

(** Whether a send on [cwr.doneCh] is received. *)
Definition receives {CA : Callers} (cwr : consistencyWaitReq) : bool :=
  match cancelCh cwr with
  | None => true
  | Some _ => negb (gone (doneCh cwr))
  end.

(** What the worker did: the partition as it left it, the events it issued,
    and whether it is blocked for ever in a send that nobody receives; it
    then still holds [t.m], so no other operation on the partition returns
    either. *)
Record Worker : Type := {
  wst      : BleveDestPartition;
  wtrace   : list event;
  wblocked : bool
}.

(** The body of the worker's loop [for cwr := range t.cwrCh { ... }] for one
    request received. *)
Definition run_body {CA : Callers} (t : BleveDestPartition) (cwr : consistencyWaitReq)
  : Worker :=
  if decide (consistencyLevel cwr = "") then
    {| wst := t; wtrace := [EvClose (doneCh cwr)]; wblocked := false |}
  else if decide (consistencyLevel cwr = "at_plus") then
    if bool_decide (consistencySeq cwr > seqMaxBatch t) then
      {| wst := set_cwrQueue (heap.Push (cwrQueue t) cwr) t; wtrace := [];
         wblocked := false |}
    else
      {| wst := t; wtrace := [EvClose (doneCh cwr)]; wblocked := false |}
  else if receives cwr then
    {| wst := t;
       wtrace := [EvSend (doneCh cwr) (ErrUnsupportedLevel (consistencyLevel cwr));
                  EvClose (doneCh cwr)];
       wblocked := false |}
  else
    {| wst := t;
       wtrace := [EvSend (doneCh cwr) (ErrUnsupportedLevel (consistencyLevel cwr))];
       wblocked := true |}.

(** The worker after its loop, once the channel is closed and empty:
    [for _, cwr := range t.cwrQueue { cwr.doneCh <- err; close(cwr.doneCh) }]
    with [err] the "consistency wait closed" error, over the requests in the
    order of the queue's array.  The loop stops at the first send that
    nobody receives. *)
Fixpoint run_closing_loop {CA : Callers} (q : list consistencyWaitReq)
  : list event * bool :=
  match q with
  | [] => ([], false)
  | cwr :: rest =>
    if receives cwr then
      let '(ev, blocked) := run_closing_loop rest in
      (EvSend (doneCh cwr) ErrWaitClosed :: EvClose (doneCh cwr) :: ev, blocked)
    else ([EvSend (doneCh cwr) ErrWaitClosed], true)
  end.

Definition run_closing {CA : Callers} (t : BleveDestPartition) : list event * bool :=
  run_closing_loop (cwrQueue t).

(** The worker receives the next request of its channel. *)
Definition run_recv {CA : Callers} (t : BleveDestPartition) : Worker :=
  match cwrCh t with
  | [] => {| wst := t; wtrace := []; wblocked := false |}
  | cwr :: rest => run_body (set_cwrCh rest t) cwr
  end.

(** The loop over what is left in a channel; a worker that blocks receives
    no further request. *)
Fixpoint run_loop {CA : Callers} (msgs : list consistencyWaitReq) (t : BleveDestPartition)
  : Worker :=
  match msgs with
  | [] => {| wst := t; wtrace := []; wblocked := false |}
  | cwr :: rest =>
    let w1 := run_body t cwr in
    if wblocked w1 then w1
    else
      let w2 := run_loop rest (wst w1) in
      {| wst := wst w2; wtrace := wtrace w1 ++ wtrace w2; wblocked := wblocked w2 |}
  end.

(** [run] from the moment the channel is closed: the requests still
    buffered are received and handled, then the queue is drained. *)
Definition run_closed {CA : Callers} (t : BleveDestPartition) : Worker :=
  let w1 := run_loop (cwrCh t) (set_cwrCh [] t) in
  if wblocked w1 then w1
  else
    let '(ev, blocked) := run_closing (wst w1) in
    {| wst := wst w1; wtrace := wtrace w1 ++ ev; wblocked := blocked |}.

(** ** [BleveDest]

    [bindex] is [None] once the destination is closed.  The [restart]
    callback only serves [Rollback] and is left out.  A method of the
    destination is one atomic step: it looks the partition up under the
    destination's mutex and runs the partition's method on it. *)

Record BleveDest (Index : Type) : Type := {
  path       : string;
  bindex     : option Index;
  partitions : gmap string BleveDestPartition
}.
Arguments path {Index} _.
Arguments bindex {Index} _.
Arguments partitions {Index} _.

Module Dest.

Section Dest.

Context {Index : Type} {BI : BleveIndex Index}.

(** [NewBleveDest]. *)
Definition NewBleveDest (path : string) (bindex : Index) : BleveDest Index :=
  {| path := path; bindex := Some bindex; partitions := ∅ |}.

(** [getPartitionUnlocked]: the partition is created on first use. *)
Definition getPartitionUnlocked (t : BleveDest Index) (partition : string)
  : BleveDest Index * result (BleveDestPartition * Index) :=
  match bindex t with
  | None => (t, Err ErrAlreadyClosed)
  | Some bi =>
    match partitions t !! partition with
    | Some bdp => (t, Ok (bdp, bi))
    | None =>
      let bdp := newPartition partition in
      ({| path := path t; bindex := bindex t;
          partitions := <[partition := bdp]> (partitions t) |},
       Ok (bdp, bi))
    end
  end.

Definition getPartition := getPartitionUnlocked.

(** The shape the methods share:
    [bdp, bindex, err := t.getPartition(partition);
     if err != nil { return err }; return bdp.M(bindex, ...)]. *)
Definition dispatch {A : Type} (t : BleveDest Index) (partition : string)
  (m : BleveDestPartition -> Index -> Outcome Index A) (fail : error -> A)
  : BleveDest Index * list event * A :=
  match getPartition t partition with
  | (t1, Err err) => (t1, [], fail err)
  | (t1, Ok (bdp, bi)) =>
    let o := m bdp bi in
    ({| path := path t1; bindex := Some (idx o);
        partitions := <[partition := st o]> (partitions t1) |},
     trace o, res o)
  end.

Definition OnDataUpdate (t : BleveDest Index) (partition : string)
  (key : string) (seq : Z) (val : list byte) :=
  dispatch t partition (fun bdp bi => OnDataUpdate bdp bi key seq val) Some.

Definition OnDataDelete (t : BleveDest Index) (partition : string)
  (key : string) (seq : Z) :=
  dispatch t partition (fun bdp bi => OnDataDelete bdp bi key seq) Some.

Definition OnSnapshotStart (t : BleveDest Index) (partition : string)
  (snapStart snapEnd : Z) :=
  dispatch t partition (fun bdp bi => OnSnapshotStart bdp bi snapStart snapEnd) Some.

Definition SetOpaque (t : BleveDest Index) (partition : string) (value : list byte) :=
  dispatch t partition (fun bdp bi => SetOpaque bdp bi value) Some.

Definition GetOpaque (t : BleveDest Index) (partition : string) :=
  dispatch t partition (fun bdp bi => GetOpaque bdp bi) Err.

(** [ConsistencyWait] up to the send [bdp.cwrCh <- cwr]: [Some err] is the
    early return; after [None] the caller blocks on [doneCh] (or on
    [cancelCh]) for what the worker signals. *)
Definition ConsistencyWait (t : BleveDest Index) (partition : string)
  (consistencyLevel : string) (consistencySeq : Z)
  (cancelCh : option chan) (doneCh : chan)
  : BleveDest Index * list event * option error :=
  let cwr := {| consistencyLevel := consistencyLevel;
                consistencySeq := consistencySeq;
                cancelCh := cancelCh; doneCh := doneCh |} in
  match getPartitionUnlocked t partition with
  | (t1, Err err) => (t1, [], Some err)
  | (t1, Ok (bdp, _)) =>
    ({| path := path t1; bindex := bindex t1;
        partitions := <[partition := set_cwrCh (cwrCh bdp ++ [cwr]) bdp]> (partitions t1) |},
     [], None)
  end.

(** [closeUnlocked].  Beside the destination and the error it returns the
    partitions whose channel it closed: they leave the map, and their
    workers go on with [run_closed]. *)
Definition closeUnlocked (t : BleveDest Index)
  : BleveDest Index * list BleveDestPartition * option error :=
  match bindex t with
  | None => (t, [], Some ErrAlreadyClosed)
  | Some bi =>
    let closed := map (fun kv => set_cwrChClosed true (snd kv)) (map_to_list (partitions t)) in
    match idx_Close bi with
    | Some err =>
      ({| path := path t; bindex := bindex t; partitions := ∅ |}, closed, Some err)
    | None =>
      ({| path := path t; bindex := None; partitions := ∅ |}, closed, None)
    end
  end.

Definition Close := closeUnlocked.

(** The operations a caller dispatches through the destination. *)
Inductive op : Type :=
| DoUpdate (partition : string) (key : string) (seq : Z) (val : list byte)
| DoDelete (partition : string) (key : string) (seq : Z)
| DoSnapshotStart (partition : string) (snapStart snapEnd : Z)
| DoSetOpaque (partition : string) (value : list byte)
| DoGetOpaque (partition : string)
| DoConsistencyWait (partition : string) (level : string) (seq : Z)
    (cancelCh : option chan) (doneCh : chan)
| DoClose.

(** One operation: the destination after it and the error returned, if any. *)
Definition step (t : BleveDest Index) (o : op) : BleveDest Index * option error :=
  match o with
  | DoUpdate p key seq val => let '(t', _, r) := OnDataUpdate t p key seq val in (t', r)
  | DoDelete p key seq => let '(t', _, r) := OnDataDelete t p key seq in (t', r)
  | DoSnapshotStart p s e => let '(t', _, r) := OnSnapshotStart t p s e in (t', r)
  | DoSetOpaque p v => let '(t', _, r) := SetOpaque t p v in (t', r)
  | DoGetOpaque p =>
    let '(t', _, r) := GetOpaque t p in
    (t', match r with Ok _ => None | Err err => Some err end)
  | DoConsistencyWait p l s c d => let '(t', _, r) := ConsistencyWait t p l s c d in (t', r)
  | DoClose => let '(t', _, r) := Close t in (t', r)
  end.

(** A sequence of operations: the destination at the end and the error of
    each operation. *)
Fixpoint steps (t : BleveDest Index) (os : list op) : BleveDest Index * list (option error) :=
  match os with
  | [] => (t, [])
  | o :: os' =>
    let '(t1, r) := step t o in
    let '(t2, rs) := steps t1 os' in
    (t2, r :: rs)
  end.

End Dest.

End Dest.

(** ** Operations on one partition, as a sequence *)

Inductive pop : Type :=
| POnUpdate (key : string) (seq : Z) (val : list byte)
| POnDelete (key : string) (seq : Z)
| POnSnapshotStart (snapStart snapEnd : Z)
| PSetOpaque (value : list byte)
| PGetOpaque
| PApplyBatch
| PWait (cwr : consistencyWaitReq).

Section PartitionSteps.

Context {Index : Type} {BI : BleveIndex Index} {CA : Callers}.

(** One operation on a partition.  [GetOpaque] keeps only the error of its
    result here; a request [PWait] is handled by the worker, which returns
    nothing to the partition's callers.  When the worker blocks in its send
    (see [pblocked]) it keeps the partition's mutex, and no operation on the
    partition follows. *)
Definition pexec (t : BleveDestPartition) (bi : Index) (o : pop)
  : Outcome Index (option error) :=
  match o with
  | POnUpdate key seq val => OnDataUpdate t bi key seq val
  | POnDelete key seq => OnDataDelete t bi key seq
  | POnSnapshotStart s e => OnSnapshotStart t bi s e
  | PSetOpaque v => SetOpaque t bi v
  | PGetOpaque =>
    let r := GetOpaque t bi in
    {| st := st r; idx := idx r; trace := trace r;
       res := match res r with Ok _ => None | Err err => Some err end |}
  | PApplyBatch => applyBatchUnlocked t bi
  | PWait cwr =>
    let w := run_body t cwr in
    {| st := wst w; idx := bi; trace := wtrace w; res := None |}
  end.

(** The operation leaves the worker blocked for ever. *)
Definition pblocked (t : BleveDestPartition) (o : pop) : bool :=
  match o with
  | PWait cwr => wblocked (run_body t cwr)
  | _ => false
  end.

(** The outcomes of a sequence of operations, each run on the state the one
    before left.  In a run of the code nothing follows an operation that
    leaves the worker blocked: the runs of the code are the sequences in
    which only the last operation may be [pblocked]; the definition runs
    every sequence. *)
Fixpoint psteps (t : BleveDestPartition) (bi : Index) (os : list pop)
  : list (Outcome Index (option error)) :=
  match os with
  | [] => []
  | o :: os' => let r := pexec t bi o in r :: psteps (st r) (idx r) os'
  end.

(** The state a sequence of operations ends in. *)
Fixpoint pfinal (t : BleveDestPartition) (bi : Index) (os : list pop)
  : BleveDestPartition * Index :=
  match os with
  | [] => (t, bi)
  | o :: os' => let r := pexec t bi o in pfinal (st r) (idx r) os'
  end.

End PartitionSteps.

Definition is_EvBatch (e : event) : bool :=
  match e with EvBatch _ => true | _ => false end.


(** ** The feed: from a vbucket id to a partition *)

(** [fmt.Sprintf("%d", n)] of an unsigned number: its decimal digits. *)
Definition Sprintf_d (n : Z) : string :=
  DecimalString.NilZero.string_of_uint (N.to_uint (Z.to_N n)).

(** [vbucketIdStrings], as [init] fills it:
    [for i := 0; i < len(vbucketIdStrings); i++
       { vbucketIdStrings[i] = fmt.Sprintf("%d", i) }] over [make([]string, 1024)]. *)
Definition vbucketIdStrings : list string :=
  map (fun i => Sprintf_d (Z.of_nat i)) (seq 0 1024).

Section Feed.

Context {Dest : Type}.

(** [VBucketIdToPartitionDest]; [pf] is the [DestPartitionFunc]. *)
Definition VBucketIdToPartitionDest
  (pf : string -> list byte -> gmap string Dest -> result Dest)
  (dests : gmap string Dest) (vbucketId : Z) (key : list byte)
  : result (string * Dest) :=
  let partition :=
    if bool_decide (vbucketId < Z.of_nat (length vbucketIdStrings))
    then nth (Z.to_nat vbucketId) vbucketIdStrings ""
    else "" in
  let partition :=
    if decide (partition = "") then Sprintf_d vbucketId else partition in
  match pf partition key dests with
  | Err err => Err (ErrPartitionFunc vbucketId err)
  | Ok dest => Ok (partition, dest)
  end.

End Feed.

(** ** An index in memory

    A reference implementation of [BleveIndex] on which the definitions run:
    documents and internal keys are maps, a batch is applied operation by
    operation, and [mi_fail] makes [Batch] and [Close] fail. *)

Record MemIndex : Type := {
  mi_docs     : gmap string (list byte);
  mi_internal : gmap string (list byte);
  mi_fail     : bool
}.

Definition mem_apply (i : MemIndex) (o : batch_op) : MemIndex :=
  match o with
  | OpIndex id data =>
    {| mi_docs := <[id := data]> (mi_docs i); mi_internal := mi_internal i;
       mi_fail := mi_fail i |}
  | OpDelete id =>
    {| mi_docs := delete id (mi_docs i); mi_internal := mi_internal i;
       mi_fail := mi_fail i |}
  | OpSetInternal key (Some v) =>
    {| mi_docs := mi_docs i; mi_internal := <[key := v]> (mi_internal i);
       mi_fail := mi_fail i |}
  | OpSetInternal key None =>
    {| mi_docs := mi_docs i; mi_internal := delete key (mi_internal i);
       mi_fail := mi_fail i |}
  end.

#[export] Instance MemIndex_BleveIndex : BleveIndex MemIndex := {
  idx_Batch i b :=
    if mi_fail i then Err (ErrEngine "batch failed") else Ok (fold_left mem_apply b i);
  idx_GetInternal i key := Ok (default [] (mi_internal i !! key));
  idx_Close i := if mi_fail i then Some (ErrEngine "close failed") else None
}.

Definition mem_empty : MemIndex :=
  {| mi_docs := ∅; mi_internal := ∅; mi_fail := false |}.

Definition mem_failing : MemIndex :=
  {| mi_docs := ∅; mi_internal := ∅; mi_fail := true |}.

(** ** Invariants *)

(** The target sequence at an index of the queue ([0] out of range). *)
Definition key (q : CwrQueue) (i : nat) : Z :=
  from_option consistencySeq 0 (q !! i).

(** The heap order on the first [n] entries: no entry is below its parent. *)
Definition heap_ordered_upto (n : nat) (q : CwrQueue) : Prop :=
  forall j : nat, (0 < j < n)%nat -> key q ((j - 1) / 2) <= key q j.

Definition heap_ordered (q : CwrQueue) : Prop :=
  heap_ordered_upto (length q) q.

(** [heap_ordered], decided. *)
Definition heap_orderedb (q : CwrQueue) : bool :=
  forallb (fun j : nat => key q ((j - 1) / 2) <=? key q j) (seq 1 (length q - 1)).

(** The heap order but for the entry at [j], which [up] is about to move:
    its children are not below its parent. *)
Definition up_pre (q : CwrQueue) (j : nat) : Prop :=
  (forall k : nat, (0 < k < length q)%nat -> k <> j ->
     key q ((k - 1) / 2) <= key q k) /\
  (forall k : nat, (0 < k < length q)%nat -> ((k - 1) / 2 = j)%nat -> (0 < j)%nat ->
     key q ((j - 1) / 2) <= key q k).

(** The heap order on the first [n] entries but for the children of [i],
    which [down] is about to move: they are not below the parent of [i]. *)
Definition down_pre (q : CwrQueue) (i n : nat) : Prop :=
  (forall k : nat, (0 < k < n)%nat -> ((k - 1) / 2 <> i)%nat ->
     key q ((k - 1) / 2) <= key q k) /\
  (forall k : nat, (0 < k < n)%nat -> ((k - 1) / 2 = i)%nat -> (0 < i)%nat ->
     key q ((i - 1) / 2) <= key q k).

(** The order in which waiters are woken: by target sequence. *)
Definition seq_le (a b : consistencyWaitReq) : Prop :=
  consistencySeq a <= consistencySeq b.

(** [seqMaxBatch <= seqMax]. *)
Definition seq_inv (t : BleveDestPartition) : Prop :=
  seqMaxBatch t <= seqMax t.

(** What an operation may do to the two sequence numbers. *)
Definition seq_step (t t' : BleveDestPartition) : Prop :=
  seq_inv t' /\ seqMax t <= seqMax t' /\ seqMaxBatch t <= seqMaxBatch t'.

(** The partitions [getPartitionUnlocked] makes have their two keys related. *)
Definition keys_ok (t : BleveDestPartition) : Prop :=
  partitionOpaque t = ("o:" ++ partition t)%string.



(** ** Concrete inputs, to run the definitions on *)

Definition waiter (seq : Z) (c : chan) : consistencyWaitReq :=
  {| consistencyLevel := "at_plus"; consistencySeq := seq;
     cancelCh := None; doneCh := c |}.

(** Partition "0" in the middle of a snapshot that ends at 10: two updates
    up to sequence 5 are staged, nothing is applied yet, and three waiters
    are queued for the sequences 7, 3 and 5. *)
Definition sample_partition : BleveDestPartition :=
  {| partition := "0";
     partitionOpaque := "o:0";
     seqMax := 5;
     seqMaxBuf := BigEndian.PutUint64 5;
     seqMaxBatch := 0;
     seqSnapEnd := 10;
     buf := Some [x76; x31; x76; x32];
     batch := [OpIndex "k1" [x76; x31];
               OpSetInternal "0" (Some (BigEndian.PutUint64 3));
               OpIndex "k2" [x76; x32];
               OpSetInternal "0" (Some (BigEndian.PutUint64 5))];
     lastOpaque := None;
     cwrCh := [];
     cwrChClosed := false;
     cwrQueue := heap.Push (heap.Push (heap.Push [] (waiter 7 1%nat)) (waiter 3 2%nat))
                           (waiter 5 3%nat) |}.

(** The index after the batch of [sample_partition] was applied to an empty
    one. *)
Definition sample_index : MemIndex :=
  fold_left mem_apply (batch sample_partition) mem_empty.

(** A destination that holds [sample_partition] over an empty index. *)
Definition sample_dest : BleveDest MemIndex :=
  {| path := "/tmp/pindex"; bindex := Some mem_empty;
     partitions := {["0" := sample_partition]} |}.

(** A partition function that accepts every partition. *)
Definition sample_pf (partition : string) (key : list byte) (dests : gmap string nat)
  : result nat := Ok 0%nat.

(** A request whose caller passed a cancel channel. *)
Definition cancellable (level : string) (seq : Z) (cancel done : chan)
  : consistencyWaitReq :=
  {| consistencyLevel := level; consistencySeq := seq;
     cancelCh := Some cancel; doneCh := done |}.

(** Callers of which the one that made the channel 1 has returned on its
    cancel channel; the others receive. *)
Definition callers_gone_1 : Callers :=
  {| gone := fun c => bool_decide (c = 1%nat) |}.

(** ** More invariants of a partition *)

(** Every queued request is an ["at_plus"] one whose target is above what
    was applied. *)
Definition waiters_ok (t : BleveDestPartition) : Prop :=
  Forall (fun cwr => consistencyLevel cwr = "at_plus" /\
                     seqMaxBatch t < consistencySeq cwr)
         (cwrQueue t).

(** The bytes of the values the batch indexes, in the order they were
    recorded. *)
Fixpoint batch_values (b : Batch) : list byte :=
  match b with
  | [] => []
  | OpIndex _ data :: b' => data ++ batch_values b'
  | _ :: b' => batch_values b'
  end.

(** The value buffer holds the values of the pending batch, one after the
    other: each value the batch indexes is a slice of [buf]. *)
Definition buf_ok (t : BleveDestPartition) : Prop :=
  default [] (buf t) = batch_values (batch t).

(** If the pending batch writes the key [<partition>], it writes the eight
    bytes of the current [seqMax], which is then above 0. *)
Definition seqkey_ok (t : BleveDestPartition) : Prop :=
  forall v, staged_internal (partition t) (batch t) = Some v ->
            v = Some (BigEndian.PutUint64 (seqMax t)) /\ 0 < seqMax t.

(** What holds of a partition in every state it reaches. *)
Definition partition_ok (t : BleveDestPartition) : Prop :=
  keys_ok t /\ 0 <= seqMax t /\ seq_inv t /\ heap_ordered (cwrQueue t) /\
  waiters_ok t /\ buf_ok t /\ seqkey_ok t.

Definition is_EvGetInternal (e : event) : bool :=
  match e with EvGetInternal _ => true | _ => false end.

(** How an operation on [t] ended: the worker handled a request; or it only
    read the index; or it came to [applyBatchUnlocked] on a state [t1]. *)
Definition op_shape {Index : Type} {BI : BleveIndex Index} {CA : Callers}
  (t : BleveDestPartition) (bindex : Index) (o : pop)
  (r : Outcome Index (option error)) : Prop :=
  (exists cwr, o = PWait cwr /\
               trace r = wtrace (run_body t cwr) /\ st r = wst (run_body t cwr)) \/
  (forallb is_EvGetInternal (trace r) = true /\
   cwrQueue (st r) = cwrQueue t /\ seqMaxBatch (st r) = seqMaxBatch t /\
   (forall s e, o <> POnSnapshotStart s e) /\ o <> PApplyBatch) \/
  (exists t1,
     partition_ok t1 /\ partition t1 = partition t /\
     cwrQueue t1 = cwrQueue t /\ seqMaxBatch t1 = seqMaxBatch t /\
     seqSnapEnd t1 = seqSnapEnd t /\
     trace r = trace (applyBatchUnlocked t1 bindex) /\
     res r = res (applyBatchUnlocked t1 bindex) /\
     idx r = idx (applyBatchUnlocked t1 bindex) /\
     (st r = st (applyBatchUnlocked t1 bindex) \/
      exists s e, o = POnSnapshotStart s e /\
                  res (applyBatchUnlocked t1 bindex) = None /\
                  st r = set_seqSnapEnd e (st (applyBatchUnlocked t1 bindex)))).

(** ** Runs outside a snapshot, and runs that set no opaque value *)

(** The operation is no [OnSnapshotStart], and the sequence number of a
    mutation is a [uint64]'s, that is not negative. *)
Definition outside_snapshot (o : pop) : bool :=
  match o with
  | POnSnapshotStart _ _ => false
  | POnUpdate _ seq _ => bool_decide (0 <= seq)
  | POnDelete _ seq => bool_decide (0 <= seq)
  | _ => true
  end.

(** What a mutation records on the batch. *)
Definition mutation_of (o : pop) : option batch_op :=
  match o with
  | POnUpdate key _ val => Some (OpIndex key val)
  | POnDelete key _ => Some (OpDelete key)
  | _ => None
  end.

Definition is_PSetOpaque (o : pop) : bool :=
  match o with PSetOpaque _ => true | _ => false end.

(** ** What the index holds under the key of the sequence number *)

(** A second part of the index's contract on internal keys: a batch that
    stages nothing under a key leaves what a read of the key returns. *)
Class BleveIndexKeeps (Index : Type) `{BleveIndex Index} : Prop := {
  idx_batch_keeps :
    forall (i i' : Index) (b : Batch) (key : string),
      idx_Batch i b = Ok i' ->
      staged_internal key b = None ->
      idx_GetInternal i' key = idx_GetInternal i key
}.

(** Once a sequence number was applied, a read of [<partition>] that
    succeeds returns its eight bytes; and a [seqMax] above 0 that the batch
    does not stage is the one the index holds. *)
Definition seq_persisted {Index : Type} {BI : BleveIndex Index}
  (t : BleveDestPartition) (bindex : Index) : Prop :=
  (0 < seqMaxBatch t ->
   forall w, idx_GetInternal bindex (partition t) = Ok w ->
             w = BigEndian.PutUint64 (seqMaxBatch t)) /\
  (0 < seqMax t -> staged_internal (partition t) (batch t) = None ->
   forall w, idx_GetInternal bindex (partition t) = Ok w ->
             w = BigEndian.PutUint64 (seqMax t)).

(** ** The destination: its partitions, and [Rollback] *)

(** A closed destination holds no partition, and a partition is stored under
    its own name. *)
Definition dest_ok {Index : Type} (d : BleveDest Index) : Prop :=
  (bindex d = None -> partitions d = ∅) /\
  map_Forall (fun k bdp => partition bdp = k /\ partition_ok bdp) (partitions d).

(** The partition an operation names. *)
Definition op_partition (o : Dest.op) : option string :=
  match o with
  | Dest.DoUpdate p _ _ _ => Some p
  | Dest.DoDelete p _ _ => Some p
  | Dest.DoSnapshotStart p _ _ => Some p
  | Dest.DoSetOpaque p _ => Some p
  | Dest.DoGetOpaque p => Some p
  | Dest.DoConsistencyWait p _ _ _ _ => Some p
  | Dest.DoClose => None
  end.

(** What [Rollback] does beside closing: [os.RemoveAll(t.path)] and the
    call of the [restart] callback. *)
Inductive rollback_effect : Type :=
| FsRemoveAll (path : string)
| CallRestart.

(** "BleveDest can't close during rollback, err: %v". *)
Inductive rollback_error : Type :=
| ErrCantClose (err : error).

(** [BleveDest.Rollback]: the partition and the sequence number are only
    logged. *)
Definition BleveDest_Rollback {Index : Type} {BI : BleveIndex Index}
  (t : BleveDest Index) (partition : string) (rollbackSeq : Z)
  : BleveDest Index * list BleveDestPartition * list rollback_effect
    * option rollback_error :=
  match Dest.closeUnlocked t with
  | (t1, closed, Some err) => (t1, closed, [], Some (ErrCantClose err))
  | (t1, closed, None) => (t1, closed, [FsRemoveAll (path t1); CallRestart], None)
  end.

(** ** The answers a partition's requests get *)

(** The channels a trace closes, in order. *)
Fixpoint closes (tr : list event) : list chan :=
  match tr with
  | [] => []
  | EvClose c :: tr' => c :: closes tr'
  | _ :: tr' => closes tr'
  end.


(** ** The feeds: from partitions to vbucket ids *)

(** [strconv.Atoi] on a 64-bit platform: an optional sign, then decimal
    digits, at least one, that give a number an [int] holds.  [None] is any
    of its errors. *)
Definition Atoi (s : string) : option Z :=
  match s with
  | EmptyString => None
  | String c rest =>
    let neg := Ascii.eqb c "-" in
    let digits := if Ascii.eqb c "+" || neg then rest else s in
    match NilZero.uint_of_string digits with
    | None => None
    | Some u =>
      let un := Z.of_N (N.of_uint u) in
      if neg then (if bool_decide (un <= 2 ^ 63) then Some (- un) else None)
      else (if bool_decide (un < 2 ^ 63) then Some un else None)
    end
  end.

(** The conversion [uint16(v)] of an [int]: the low sixteen bits. *)
Definition uint16 (v : Z) : Z := v mod 65536.

(** What [ParsePartitionsToVBucketIds] returns: the vbucket ids, or the
    error "could not parse partition" for a partition. *)
Inductive parsed : Type :=
| ParseOk (vbuckets : list Z)
| ParseErr (partition : string).

(** The loop of [ParsePartitionsToVBucketIds] over the partitions in the
    order the [range] visits them. *)
Fixpoint ParsePartitions_loop (partitions : list string) (vbuckets : list Z) : parsed :=
  match partitions with
  | [] => ParseOk vbuckets
  | partition :: rest =>
    if bool_decide (partition <> "") then
      match Atoi partition with
      | None => ParseErr partition
      | Some vbId => ParsePartitions_loop rest (vbuckets ++ [uint16 vbId])
      end
    else ParsePartitions_loop rest vbuckets
  end.

(** [ParsePartitionsToVBucketIds].  Go visits the keys of a map in an order
    it does not specify; here it is the order of [map_to_list], and the
    facts below hold for any order. *)
Definition ParsePartitionsToVBucketIds {Dest : Type} (dests : gmap string Dest) : parsed :=
  ParsePartitions_loop (map fst (map_to_list dests)) [].

(** [strconv.Itoa]. *)
Definition Itoa (i : Z) : string :=
  if bool_decide (i < 0) then String "-" (Sprintf_d (- i)) else Sprintf_d i.

Inductive couchbase_error : Type :=
| ErrGetBucket (err : error)   (* "... failed GetBucket, ..." *)
| ErrNoVBServerMap.            (* "... no VBServerMap, ..." *)

(** [CouchbasePartitions], given what [couchbase.GetBucket] returned: an
    error, or a bucket whose [VBServerMap()] is nil ([None]) or has a
    [VBucketMap] of some length.
    [for i := 0; i < numVBuckets; i++ { rv[i] = strconv.Itoa(i) }]. *)
Definition CouchbasePartitions (bucket : result (option nat))
  : couchbase_error + list string :=
  match bucket with
  | Err err => inl (ErrGetBucket err)
  | Ok None => inl ErrNoVBServerMap
  | Ok (Some numVBuckets) => inr (map (fun i => Itoa (Z.of_nat i)) (seq 0 numVBuckets))
  end.

(** ** [DCPFeed]

    The feed's callbacks end in a call of a method of the destination the
    partition function chose; the call is returned here as data.  The
    counters are [uint64]. *)

Module DCP.

Definition incr (n : Z) : Z := (n + 1) mod uint64_max.

(** The call a callback ends in: [dest.OnDataUpdate(partition, ...)] and so
    on. *)
Inductive dest_call : Type :=
| CallOnDataUpdate (partition : string) (key : list byte) (seq : Z) (val : list byte)
| CallOnDataDelete (partition : string) (key : list byte) (seq : Z)
| CallOnSnapshotStart (partition : string) (snapStart snapEnd : Z)
| CallSetOpaque (partition : string) (value : list byte)
| CallGetOpaque (partition : string)
| CallRollback (partition : string) (rollbackSeq : Z).

Section DCPFeed.

Context {Dest : Type}.

Record DCPFeed : Type := {
  name             : string;
  pf               : string -> list byte -> gmap string Dest -> result Dest;
  dests            : gmap string Dest;
  closed           : bool;
  lastErr          : option error;
  numError         : Z;
  numUpdate        : Z;
  numDelete        : Z;
  numSnapshotStart : Z;
  numSetMetaData   : Z;
  numGetMetaData   : Z;
  numRollback      : Z
}.

(** The feed [NewDCPFeed] builds. *)
Definition NewDCPFeed (name : string)
  (pf : string -> list byte -> gmap string Dest -> result Dest)
  (dests : gmap string Dest) : DCPFeed :=
  {| name := name; pf := pf; dests := dests; closed := false; lastErr := None;
     numError := 0; numUpdate := 0; numDelete := 0; numSnapshotStart := 0;
     numSetMetaData := 0; numGetMetaData := 0; numRollback := 0 |}.

(** [Close]: the boolean tells whether [t.bds.Close()] is called. *)
Definition Close (t : DCPFeed) : DCPFeed * bool :=
  if closed t then (t, false)
  else ({| name := name t; pf := pf t; dests := dests t; closed := true;
           lastErr := lastErr t; numError := numError t; numUpdate := numUpdate t;
           numDelete := numDelete t; numSnapshotStart := numSnapshotStart t;
           numSetMetaData := numSetMetaData t; numGetMetaData := numGetMetaData t;
           numRollback := numRollback t |}, true).

Definition OnError (r : DCPFeed) (err : error) : DCPFeed :=
  {| name := name r; pf := pf r; dests := dests r; closed := closed r;
     lastErr := Some err; numError := incr (numError r); numUpdate := numUpdate r;
     numDelete := numDelete r; numSnapshotStart := numSnapshotStart r;
     numSetMetaData := numSetMetaData r; numGetMetaData := numGetMetaData r;
     numRollback := numRollback r |}.

Definition DataUpdate (r : DCPFeed) (vbucketId : Z) (key : list byte) (seq : Z)
  (body : list byte) : DCPFeed * result (Dest * dest_call) :=
  match VBucketIdToPartitionDest (pf r) (dests r) vbucketId key with
  | Err err => (r, Err err)
  | Ok (partition, dest) =>
    ({| name := name r; pf := pf r; dests := dests r; closed := closed r;
        lastErr := lastErr r; numError := numError r; numUpdate := incr (numUpdate r);
        numDelete := numDelete r; numSnapshotStart := numSnapshotStart r;
        numSetMetaData := numSetMetaData r; numGetMetaData := numGetMetaData r;
        numRollback := numRollback r |},
     Ok (dest, CallOnDataUpdate partition key seq body))
  end.

Definition DataDelete (r : DCPFeed) (vbucketId : Z) (key : list byte) (seq : Z)
  : DCPFeed * result (Dest * dest_call) :=
  match VBucketIdToPartitionDest (pf r) (dests r) vbucketId key with
  | Err err => (r, Err err)
  | Ok (partition, dest) =>
    ({| name := name r; pf := pf r; dests := dests r; closed := closed r;
        lastErr := lastErr r; numError := numError r; numUpdate := numUpdate r;
        numDelete := incr (numDelete r); numSnapshotStart := numSnapshotStart r;
        numSetMetaData := numSetMetaData r; numGetMetaData := numGetMetaData r;
        numRollback := numRollback r |},
     Ok (dest, CallOnDataDelete partition key seq))
  end.

(** The callbacks below pass a nil key to the partition function. *)
Definition SnapshotStart (r : DCPFeed) (vbucketId : Z) (snapStart snapEnd : Z)
  (snapType : Z) : DCPFeed * result (Dest * dest_call) :=
  match VBucketIdToPartitionDest (pf r) (dests r) vbucketId [] with
  | Err err => (r, Err err)
  | Ok (partition, dest) =>
    ({| name := name r; pf := pf r; dests := dests r; closed := closed r;
        lastErr := lastErr r; numError := numError r; numUpdate := numUpdate r;
        numDelete := numDelete r; numSnapshotStart := incr (numSnapshotStart r);
        numSetMetaData := numSetMetaData r; numGetMetaData := numGetMetaData r;
        numRollback := numRollback r |},
     Ok (dest, CallOnSnapshotStart partition snapStart snapEnd))
  end.

Definition SetMetaData (r : DCPFeed) (vbucketId : Z) (value : list byte)
  : DCPFeed * result (Dest * dest_call) :=
  match VBucketIdToPartitionDest (pf r) (dests r) vbucketId [] with
  | Err err => (r, Err err)
  | Ok (partition, dest) =>
    ({| name := name r; pf := pf r; dests := dests r; closed := closed r;
        lastErr := lastErr r; numError := numError r; numUpdate := numUpdate r;
        numDelete := numDelete r; numSnapshotStart := numSnapshotStart r;
        numSetMetaData := incr (numSetMetaData r); numGetMetaData := numGetMetaData r;
        numRollback := numRollback r |},
     Ok (dest, CallSetOpaque partition value))
  end.

Definition GetMetaData (r : DCPFeed) (vbucketId : Z)
  : DCPFeed * result (Dest * dest_call) :=
  match VBucketIdToPartitionDest (pf r) (dests r) vbucketId [] with
  | Err err => (r, Err err)
  | Ok (partition, dest) =>
    ({| name := name r; pf := pf r; dests := dests r; closed := closed r;
        lastErr := lastErr r; numError := numError r; numUpdate := numUpdate r;
        numDelete := numDelete r; numSnapshotStart := numSnapshotStart r;
        numSetMetaData := numSetMetaData r; numGetMetaData := incr (numGetMetaData r);
        numRollback := numRollback r |},
     Ok (dest, CallGetOpaque partition))
  end.

Definition Rollback (r : DCPFeed) (vbucketId : Z) (rollbackSeq : Z)
  : DCPFeed * result (Dest * dest_call) :=
  match VBucketIdToPartitionDest (pf r) (dests r) vbucketId [] with
  | Err err => (r, Err err)
  | Ok (partition, dest) =>
    ({| name := name r; pf := pf r; dests := dests r; closed := closed r;
        lastErr := lastErr r; numError := numError r; numUpdate := numUpdate r;
        numDelete := numDelete r; numSnapshotStart := numSnapshotStart r;
        numSetMetaData := numSetMetaData r; numGetMetaData := numGetMetaData r;
        numRollback := incr (numRollback r) |},
     Ok (dest, CallRollback partition rollbackSeq))
  end.

(** What the data source and the manager ask of the feed. *)
Inductive msg : Type :=
| MError (err : error)
| MDataUpdate (vbucketId : Z) (key : list byte) (seq : Z) (body : list byte)
| MDataDelete (vbucketId : Z) (key : list byte) (seq : Z)
| MSnapshotStart (vbucketId : Z) (snapStart snapEnd snapType : Z)
| MSetMetaData (vbucketId : Z) (value : list byte)
| MGetMetaData (vbucketId : Z)
| MRollback (vbucketId : Z) (rollbackSeq : Z)
| MClose.

(** What a message made the feed do outside itself. *)
Inductive action : Type :=
| ADest (dest : Dest) (call : dest_call)   (* the call of the destination *)
| AFail (err : error)                      (* the partition function failed *)
| ABdsClose                                (* [t.bds.Close()] *)
| ANone.

Definition to_action (r : result (Dest * dest_call)) : action :=
  match r with
  | Ok (dest, call) => ADest dest call
  | Err err => AFail err
  end.

Definition handle (r : DCPFeed) (m : msg) : DCPFeed * action :=
  match m with
  | MError err => (OnError r err, ANone)
  | MDataUpdate vb key seq body =>
    let '(r', o) := DataUpdate r vb key seq body in (r', to_action o)
  | MDataDelete vb key seq =>
    let '(r', o) := DataDelete r vb key seq in (r', to_action o)
  | MSnapshotStart vb s e ty =>
    let '(r', o) := SnapshotStart r vb s e ty in (r', to_action o)
  | MSetMetaData vb value =>
    let '(r', o) := SetMetaData r vb value in (r', to_action o)
  | MGetMetaData vb =>
    let '(r', o) := GetMetaData r vb in (r', to_action o)
  | MRollback vb seq =>
    let '(r', o) := Rollback r vb seq in (r', to_action o)
  | MClose =>
    let '(r', called) := Close r in (r', if called then ABdsClose else ANone)
  end.

Fixpoint handle_all (r : DCPFeed) (ms : list msg) : DCPFeed * list action :=
  match ms with
  | [] => (r, [])
  | m :: ms' =>
    let '(r1, a) := handle r m in
    let '(r2, acts) := handle_all r1 ms' in
    (r2, a :: acts)
  end.

(** The calls of a kind among the actions. *)
Definition is_call (kind : dest_call -> bool) (a : action) : bool :=
  match a with
  | ADest _ call => kind call
  | _ => false
  end.

Definition count (kind : dest_call -> bool) (acts : list action) : Z :=
  Z.of_nat (length (filter (fun a => is_call kind a = true) acts)).

Definition isOnDataUpdate (c : dest_call) : bool :=
  match c with CallOnDataUpdate _ _ _ _ => true | _ => false end.
Definition isOnDataDelete (c : dest_call) : bool :=
  match c with CallOnDataDelete _ _ _ => true | _ => false end.
Definition isOnSnapshotStart (c : dest_call) : bool :=
  match c with CallOnSnapshotStart _ _ _ => true | _ => false end.
Definition isSetOpaque (c : dest_call) : bool :=
  match c with CallSetOpaque _ _ => true | _ => false end.
Definition isGetOpaque (c : dest_call) : bool :=
  match c with CallGetOpaque _ => true | _ => false end.
Definition isRollback (c : dest_call) : bool :=
  match c with CallRollback _ _ => true | _ => false end.

Definition is_ABdsClose (a : action) : bool :=
  match a with ABdsClose => true | _ => false end.

Definition is_MClose (m : msg) : bool :=
  match m with MClose => true | _ => false end.

Definition is_MError (m : msg) : bool :=
  match m with MError _ => true | _ => false end.

End DCPFeed.

Arguments DCPFeed : clear implicits.
Arguments action : clear implicits.

End DCP.

(** ** [Manager]: the registry of feeds and pindexes, and the cached plan

    Of a [PIndex], a [Feed] and a [PlanPIndex] the manager's code reads the
    name only ([pindex.Name], [feed.Name()], [planPIndex.IndexName]); the
    types are left open. *)

Module Mgr.

Section Manager.

Context {PIndex Feed PlanPIndex : Type}.
Context (Name : PIndex -> string) (FeedName : Feed -> string)
        (IndexName : PlanPIndex -> string).

(** [meh] tells whether the event handlers are there ([mgr.meh != nil]);
    [lastPlanPIndexes] is [None] for a nil pointer. *)
Record Manager : Type := {
  feeds                  : gmap string Feed;
  pindexes               : gmap string PIndex;
  meh                    : bool;
  lastPlanPIndexes       : option (list PlanPIndex);
  lastPlanPIndexesByName : gmap string (list PlanPIndex)
}.

Definition NewManager (meh : bool) : Manager :=
  {| feeds := ∅; pindexes := ∅; meh := meh;
     lastPlanPIndexes := None; lastPlanPIndexesByName := ∅ |}.

(** The calls of [ManagerEventHandlers]. *)
Inductive meh_event : Type :=
| OnRegisterPIndex (pindex : PIndex)
| OnUnregisterPIndex (pindex : PIndex).

Inductive register_error : Type :=
| ErrPIndexExists (name : string)  (* "error: registered pindex already exists, name: %s" *)
| ErrFeedExists (name : string).   (* "error: registered feed already exists, name: %s" *)

Definition GetPIndex (mgr : Manager) (pindexName : string) : option PIndex :=
  pindexes mgr !! pindexName.

Definition registerPIndex (mgr : Manager) (pindex : PIndex)
  : Manager * list meh_event * option register_error :=
  match pindexes mgr !! Name pindex with
  | Some _ => (mgr, [], Some (ErrPIndexExists (Name pindex)))
  | None =>
    ({| feeds := feeds mgr; pindexes := <[Name pindex := pindex]> (pindexes mgr);
        meh := meh mgr; lastPlanPIndexes := lastPlanPIndexes mgr;
        lastPlanPIndexesByName := lastPlanPIndexesByName mgr |},
     if meh mgr then [OnRegisterPIndex pindex] else [],
     None)
  end.

Definition unregisterPIndex (mgr : Manager) (name : string)
  : Manager * list meh_event * option PIndex :=
  match pindexes mgr !! name with
  | Some pindex =>
    ({| feeds := feeds mgr; pindexes := delete name (pindexes mgr);
        meh := meh mgr; lastPlanPIndexes := lastPlanPIndexes mgr;
        lastPlanPIndexesByName := lastPlanPIndexesByName mgr |},
     if meh mgr then [OnUnregisterPIndex pindex] else [],
     Some pindex)
  | None => (mgr, [], None)
  end.

Definition registerFeed (mgr : Manager) (feed : Feed)
  : Manager * option register_error :=
  match feeds mgr !! FeedName feed with
  | Some _ => (mgr, Some (ErrFeedExists (FeedName feed)))
  | None =>
    ({| feeds := <[FeedName feed := feed]> (feeds mgr); pindexes := pindexes mgr;
        meh := meh mgr; lastPlanPIndexes := lastPlanPIndexes mgr;
        lastPlanPIndexesByName := lastPlanPIndexesByName mgr |},
     None)
  end.

Definition unregisterFeed (mgr : Manager) (name : string) : Manager * option Feed :=
  match feeds mgr !! name with
  | Some rv =>
    ({| feeds := delete name (feeds mgr); pindexes := pindexes mgr;
        meh := meh mgr; lastPlanPIndexes := lastPlanPIndexes mgr;
        lastPlanPIndexesByName := lastPlanPIndexesByName mgr |},
     Some rv)
  | None => (mgr, None)
  end.

(** The loop of [GetPlanPIndexes] over the plan's entries, in the order the
    [range] visits them:
    [a := byName[planPIndex.IndexName]; if a == nil { a = make(...) };
     byName[planPIndex.IndexName] = append(a, planPIndex)]. *)
Definition byName_loop (l : list PlanPIndex) (m : gmap string (list PlanPIndex))
  : gmap string (list PlanPIndex) :=
  fold_left (fun m planPIndex =>
               <[IndexName planPIndex :=
                   default [] (m !! IndexName planPIndex) ++ [planPIndex]]> m)
            l m.

(** [GetPlanPIndexes], given what [CfgGetPlanPIndexes(mgr.cfg)] returns when
    it is called: an error, or the plan, which may be nil. *)
Definition GetPlanPIndexes (mgr : Manager) (refresh : bool)
  (cfg : result (option (list PlanPIndex)))
  : Manager * result (option (list PlanPIndex) * gmap string (list PlanPIndex)) :=
  if bool_decide (lastPlanPIndexes mgr = None) || refresh then
    match cfg with
    | Err err => (mgr, Err err)
    | Ok planPIndexes =>
      let byName :=
        match planPIndexes with
        | None => ∅
        | Some l => byName_loop l ∅
        end in
      ({| feeds := feeds mgr; pindexes := pindexes mgr; meh := meh mgr;
          lastPlanPIndexes := planPIndexes; lastPlanPIndexesByName := byName |},
       Ok (planPIndexes, byName))
    end
  else (mgr, Ok (lastPlanPIndexes mgr, lastPlanPIndexesByName mgr)).

(** The registrations a manager is asked for. *)
Inductive mop : Type :=
| RegisterPIndex (pindex : PIndex)
| UnregisterPIndex (name : string)
| RegisterFeed (feed : Feed)
| UnregisterFeed (name : string).

Definition mstep (mgr : Manager) (o : mop) : Manager * list meh_event :=
  match o with
  | RegisterPIndex pindex => let '(mgr', ev, _) := registerPIndex mgr pindex in (mgr', ev)
  | UnregisterPIndex name => let '(mgr', ev, _) := unregisterPIndex mgr name in (mgr', ev)
  | RegisterFeed feed => let '(mgr', _) := registerFeed mgr feed in (mgr', [])
  | UnregisterFeed name => let '(mgr', _) := unregisterFeed mgr name in (mgr', [])
  end.

Fixpoint msteps (mgr : Manager) (os : list mop) : Manager * list meh_event :=
  match os with
  | [] => (mgr, [])
  | o :: os' =>
    let '(mgr1, ev1) := mstep mgr o in
    let '(mgr2, ev2) := msteps mgr1 os' in
    (mgr2, ev1 ++ ev2)
  end.

(** What the handlers have seen: the pindexes registered and not
    unregistered since. *)
Definition replay (m : gmap string PIndex) (e : meh_event) : gmap string PIndex :=
  match e with
  | OnRegisterPIndex pindex => <[Name pindex := pindex]> m
  | OnUnregisterPIndex pindex => delete (Name pindex) m
  end.

(** Every pindex and every feed is stored under its name. *)
Definition registry_ok (mgr : Manager) : Prop :=
  map_Forall (fun k p => Name p = k) (pindexes mgr) /\
  map_Forall (fun k f => FeedName f = k) (feeds mgr).

End Manager.

End Mgr.

(** * Facts *)

(** ** [BigEndian] *)

Lemma Z_of_byte_range (b : byte) : 0 <= Z_of_byte b < 256.
Proof.
  unfold Z_of_byte. pose proof (Byte.to_N_bounded b) as H. lia.
Qed.

Lemma Z_of_byte_of_Z (v : Z) : Z_of_byte (byte_of_Z v) = v mod 256.
Proof.
  unfold Z_of_byte, byte_of_Z.
  change 255 with (Z.ones 8). rewrite Z.land_ones by lia.
  change (2 ^ 8) with 256.
  pose proof (Z.mod_pos_bound v 256 ltac:(lia)) as Hb.
  destruct (Byte.of_N (Z.to_N (v mod 256))) as [b|] eqn:E.
  - simpl. apply Byte.to_of_N in E. rewrite E. lia.
  - apply Byte.of_N_None_iff in E. lia.
Qed.

Lemma PutUint64_length (v : Z) : length (BigEndian.PutUint64 v) = 8%nat.
Proof. reflexivity. Qed.

Lemma Uint64_nonneg (b : list byte) : 0 <= BigEndian.Uint64 b.
Proof.
  unfold BigEndian.Uint64, BigEndian.at_.
  repeat (apply Z.lor_nonneg; split);
    try apply Z.shiftl_nonneg; apply Z_of_byte_range.
Qed.

(** Bits that do not overlap: [a] below [2^n], [b] a multiple of [2^n]. *)
Lemma lor_disjoint (a b c n : Z) :
  0 <= a < 2 ^ n -> 0 <= n -> 0 <= c -> b = c * 2 ^ n -> Z.lor a b = a + b.
Proof.
  intros Ha Hn Hc ->.
  rewrite <- Z.shiftl_mul_pow2 by lia.
  assert (Z.land a (Z.shiftl c n) = 0) as Hland.
  { apply Z.bits_inj'. intros k Hk. rewrite Z.land_spec, Z.bits_0.
    destruct (Z.lt_ge_cases k n) as [Hkn|Hkn].
    - rewrite (Z.shiftl_spec_low c n k Hkn). apply andb_false_r.
    - destruct (Z.eq_dec a 0) as [->|Ha0]; [rewrite Z.bits_0; reflexivity|].
      rewrite (Z.bits_above_log2 a k); [reflexivity|lia|].
      apply Z.log2_lt_pow2; [lia|].
      apply Z.lt_le_trans with (2 ^ n); [lia|apply Z.pow_le_mono_r; lia]. }
  rewrite <- Z.lxor_lor, <- Z.add_nocarry_lxor by assumption. reflexivity.
Qed.

(** [Uint64] reads the eight bytes as a number in base 256, the first byte
    the most significant. *)
Lemma Uint64_big_endian (b0 b1 b2 b3 b4 b5 b6 b7 : byte) :
  BigEndian.Uint64 [b0; b1; b2; b3; b4; b5; b6; b7] =
    Z_of_byte b0 * 256 ^ 7 + Z_of_byte b1 * 256 ^ 6 + Z_of_byte b2 * 256 ^ 5 +
    Z_of_byte b3 * 256 ^ 4 + Z_of_byte b4 * 256 ^ 3 + Z_of_byte b5 * 256 ^ 2 +
    Z_of_byte b6 * 256 + Z_of_byte b7.
Proof.
  unfold BigEndian.Uint64, BigEndian.at_. simpl nth.
  pose proof (Z_of_byte_range b0). pose proof (Z_of_byte_range b1).
  pose proof (Z_of_byte_range b2). pose proof (Z_of_byte_range b3).
  pose proof (Z_of_byte_range b4). pose proof (Z_of_byte_range b5).
  pose proof (Z_of_byte_range b6). pose proof (Z_of_byte_range b7).
  generalize dependent (Z_of_byte b0). generalize dependent (Z_of_byte b1).
  generalize dependent (Z_of_byte b2). generalize dependent (Z_of_byte b3).
  generalize dependent (Z_of_byte b4). generalize dependent (Z_of_byte b5).
  generalize dependent (Z_of_byte b6). generalize dependent (Z_of_byte b7).
  intros z7 H7 z6 H6 z5 H5 z4 H4 z3 H3 z2 H2 z1 H1 z0 H0.
  rewrite !Z.shiftl_mul_pow2 by lia.
  rewrite (lor_disjoint (z1 * 2 ^ 48) _ z0 56) by lia.
  rewrite (lor_disjoint (z2 * 2 ^ 40) _ (z1 + z0 * 2 ^ 8) 48) by lia.
  rewrite (lor_disjoint (z3 * 2 ^ 32) _ (z2 + z1 * 2 ^ 8 + z0 * 2 ^ 16) 40) by lia.
  rewrite (lor_disjoint (z4 * 2 ^ 24) _
             (z3 + z2 * 2 ^ 8 + z1 * 2 ^ 16 + z0 * 2 ^ 24) 32) by lia.
  rewrite (lor_disjoint (z5 * 2 ^ 16) _
             (z4 + z3 * 2 ^ 8 + z2 * 2 ^ 16 + z1 * 2 ^ 24 + z0 * 2 ^ 32) 24) by lia.
  rewrite (lor_disjoint (z6 * 2 ^ 8) _
             (z5 + z4 * 2 ^ 8 + z3 * 2 ^ 16 + z2 * 2 ^ 24 + z1 * 2 ^ 32 + z0 * 2 ^ 40) 16)
    by lia.
  rewrite (lor_disjoint z7 _
             (z6 + z5 * 2 ^ 8 + z4 * 2 ^ 16 + z3 * 2 ^ 24 + z2 * 2 ^ 32 + z1 * 2 ^ 40
              + z0 * 2 ^ 48) 8) by lia.
  lia.
Qed.

(** Decoding what [PutUint64] wrote gives the number back. *)
Lemma Uint64_PutUint64 (v : Z) :
  is_uint64 v -> BigEndian.Uint64 (BigEndian.PutUint64 v) = v.
Proof.
  unfold is_uint64, uint64_max. intros Hv.
  unfold BigEndian.PutUint64. rewrite Uint64_big_endian.
  rewrite !Z_of_byte_of_Z, !Z.shiftr_div_pow2 by lia.
  change (2 ^ 64) with 18446744073709551616 in Hv.
  change (2 ^ 56) with 72057594037927936. change (2 ^ 48) with 281474976710656.
  change (2 ^ 40) with 1099511627776. change (2 ^ 32) with 4294967296.
  change (2 ^ 24) with 16777216. change (2 ^ 16) with 65536.
  change (2 ^ 8) with 256.
  change (256 ^ 7) with 72057594037927936. change (256 ^ 6) with 281474976710656.
  change (256 ^ 5) with 1099511627776. change (256 ^ 4) with 4294967296.
  change (256 ^ 3) with 16777216. change (256 ^ 2) with 65536.
  Z.to_euclidean_division_equations. lia.
Qed.

(** ** [cwrQueue] and [container/heap] *)

Section HeapFacts.

Local Open Scope nat_scope.

Implicit Types (q h : CwrQueue) (i j k n : nat).

Lemma parent_spec k : 0 < k -> 2 * ((k - 1) / 2) + 1 = k \/ 2 * ((k - 1) / 2) + 2 = k.
Proof.
  intros Hk.
  pose proof (Nat.div_mod_eq (k - 1) 2) as E.
  pose proof (Nat.mod_upper_bound (k - 1) 2) as B.
  lia.
Qed.

Lemma parent_of_left i : (2 * i + 1 - 1) / 2 = i.
Proof.
  replace (2 * i + 1 - 1) with (i * 2) by lia. apply Nat.div_mul. lia.
Qed.

Lemma parent_of_right i : (2 * i + 2 - 1) / 2 = i.
Proof.
  replace (2 * i + 2 - 1) with (1 + i * 2) by lia.
  rewrite Nat.div_add by lia. reflexivity.
Qed.

Lemma key_lookup q i a : q !! i = Some a -> key q i = consistencySeq a.
Proof. unfold key. intros ->. reflexivity. Qed.

Lemma Less_key q i j :
  i < length q -> j < length q ->
  cwrQ.Less q i j = bool_decide (key q i < key q j)%Z.
Proof.
  intros Hi Hj. unfold cwrQ.Less, key.
  destruct (lookup_lt_is_Some_2 q i Hi) as [a ->].
  destruct (lookup_lt_is_Some_2 q j Hj) as [b ->].
  reflexivity.
Qed.

Lemma Less_oob_l q i j : length q <= i -> cwrQ.Less q i j = false.
Proof.
  intros Hi. unfold cwrQ.Less. rewrite (lookup_ge_None_2 q i Hi). reflexivity.
Qed.

Lemma Swap_length q i j : length (cwrQ.Swap q i j) = length q.
Proof.
  unfold cwrQ.Swap. destruct (q !! i), (q !! j); try reflexivity.
  rewrite !length_insert. reflexivity.
Qed.

Lemma Swap_lookup q i j k :
  i < length q -> j < length q ->
  cwrQ.Swap q i j !! k =
    if decide (k = i) then q !! j else if decide (k = j) then q !! i else q !! k.
Proof.
  intros Hi Hj. unfold cwrQ.Swap.
  destruct (lookup_lt_is_Some_2 q i Hi) as [a Ha].
  destruct (lookup_lt_is_Some_2 q j Hj) as [b Hb].
  rewrite Ha, Hb.
  destruct (decide (k = i)) as [->|Hki].
  - rewrite list_lookup_insert_eq by (rewrite length_insert; lia). reflexivity.
  - rewrite list_lookup_insert_ne by congruence.
    destruct (decide (k = j)) as [->|Hkj].
    + rewrite list_lookup_insert_eq by lia. reflexivity.
    + rewrite list_lookup_insert_ne by congruence. reflexivity.
Qed.

Lemma Swap_key q i j k :
  i < length q -> j < length q ->
  key (cwrQ.Swap q i j) k =
    if decide (k = i) then key q j else if decide (k = j) then key q i else key q k.
Proof.
  intros Hi Hj. unfold key. rewrite Swap_lookup by assumption.
  repeat case_decide; reflexivity.
Qed.

Lemma Swap_perm q i j : cwrQ.Swap q i j ≡ₚ q.
Proof.
  unfold cwrQ.Swap.
  destruct (q !! i) as [a|] eqn:Ha; [|reflexivity].
  destruct (q !! j) as [b|] eqn:Hb; [|reflexivity].
  destruct (decide (i = j)) as [->|Hne].
  - rewrite list_insert_insert_eq. rewrite list_insert_id; [reflexivity|congruence].
  - symmetry. apply Permutation_inj. split.
    + rewrite !length_insert. reflexivity.
    + exists (fun k => if decide (k = i) then j else if decide (k = j) then i else k).
      split.
      * intros x y. repeat case_decide; lia.
      * intros k. repeat case_decide; subst.
        -- rewrite list_lookup_insert_ne by congruence.
           rewrite list_lookup_insert_eq by (apply lookup_lt_Some in Hb; lia). assumption.
        -- rewrite list_lookup_insert_eq
             by (rewrite length_insert; apply lookup_lt_Some in Ha; lia).
           assumption.
        -- rewrite !list_lookup_insert_ne by congruence. reflexivity.
Qed.

(** [up] and [down], one iteration at a time. *)
Lemma up_unfold h j :
  heap.up h j =
    if decide ((j - 1) / 2 = j) then h
    else if cwrQ.Less h j ((j - 1) / 2)
         then heap.up (cwrQ.Swap h ((j - 1) / 2) j) ((j - 1) / 2)
         else h.
Proof.
  rewrite heap.up_equation_1. unfold heap.up_unfold_clause_1.
  destruct (decide ((j - 1) / 2 = j)); [reflexivity|].
  unfold heap.up_unfold_clause_1_clause_2.
  destruct (cwrQ.Less h j ((j - 1) / 2)); reflexivity.
Qed.

Lemma down_unfold h i n :
  heap.down h i n =
    if decide (n <= 2 * i + 1) then h
    else if cwrQ.Less h (heap.down_child h i n) i
         then heap.down (cwrQ.Swap h i (heap.down_child h i n)) (heap.down_child h i n) n
         else h.
Proof.
  rewrite heap.down_equation_1. unfold heap.down_unfold_clause_1.
  destruct (decide (n <= 2 * i + 1)); [reflexivity|].
  unfold heap.down_unfold_clause_1_clause_2.
  destruct (cwrQ.Less h (heap.down_child h i n) i); reflexivity.
Qed.

Lemma up_length h j : length (heap.up h j) = length h.
Proof.
  revert h. induction j as [j IH] using lt_wf_ind. intros h.
  rewrite up_unfold.
  destruct (decide ((j - 1) / 2 = j)) as [|Hnr]; [reflexivity|].
  destruct (cwrQ.Less h j ((j - 1) / 2)); [|reflexivity].
  rewrite IH, Swap_length; [reflexivity|].
  destruct j as [|j']; [exfalso; apply Hnr; reflexivity|].
  pose proof (parent_spec (S j')). lia.
Qed.

Lemma up_perm h j : heap.up h j ≡ₚ h.
Proof.
  revert h. induction j as [j IH] using lt_wf_ind. intros h.
  rewrite up_unfold.
  destruct (decide ((j - 1) / 2 = j)) as [|Hnr]; [reflexivity|].
  destruct (cwrQ.Less h j ((j - 1) / 2)); [|reflexivity].
  rewrite IH, Swap_perm; [reflexivity|].
  destruct j as [|j']; [exfalso; apply Hnr; reflexivity|].
  pose proof (parent_spec (S j')). lia.
Qed.

Lemma up_ordered h j :
  j < length h -> up_pre h j -> heap_ordered (heap.up h j).
Proof.
  revert h. induction j as [j IH] using lt_wf_ind. intros h Hj [Hpre Hgrand].
  rewrite up_unfold.
  destruct (decide ((j - 1) / 2 = j)) as [Hroot|Hnr].
  - intros k Hk. apply Hpre; [lia|].
    intros ->. pose proof (parent_spec j). lia.
  - assert (0 < j) as Hj0 by (destruct j; [exfalso; apply Hnr; reflexivity|lia]).
    pose proof (parent_spec j Hj0) as Hp.
    remember ((j - 1) / 2) as p eqn:Ep.
    assert (p < j) as Hpj by lia.
    rewrite Less_key by lia.
    case_bool_decide as Hlt.
    + apply IH; [lia|rewrite Swap_length; lia|].
      split.
      * intros k Hk Hkp. rewrite Swap_length in Hk.
        rewrite !Swap_key by lia.
        pose proof (parent_spec k (proj1 Hk)) as Hpk.
        remember ((k - 1) / 2) as pk eqn:Epk.
        destruct (decide (k = j)) as [->|Hkj].
        { assert (pk = p) as -> by lia.
          rewrite decide_True by reflexivity.
          rewrite decide_False by lia. lia. }
        rewrite (decide_False (P := k = p)) by assumption.
        destruct (decide (pk = p)) as [->|Hpkp].
        { specialize (Hpre k Hk Hkj). rewrite <- Epk in Hpre. lia. }
        destruct (decide (pk = j)) as [->|Hpkj].
        { specialize (Hgrand k Hk (eq_sym Epk) Hj0). lia. }
        specialize (Hpre k Hk Hkj). rewrite <- Epk in Hpre. lia.
      * intros k Hk Hkp Hp0. rewrite Swap_length in Hk.
        rewrite !Swap_key by lia.
        pose proof (parent_spec p Hp0) as Hpp.
        remember ((p - 1) / 2) as pp eqn:Epp.
        rewrite (decide_False (P := pp = p)) by lia.
        rewrite (decide_False (P := pp = j)) by lia.
        assert (key h pp <= key h p)%Z as Hpp_le.
        { rewrite Epp. apply Hpre; lia. }
        rewrite (decide_False (P := k = p)) by (pose proof (parent_spec k (proj1 Hk)); lia).
        destruct (decide (k = j)) as [->|Hkj]; [lia|].
        specialize (Hpre k Hk Hkj). rewrite Hkp in Hpre. lia.
    + intros k Hk.
      destruct (decide (k = j)) as [->|Hkj].
      * rewrite <- Ep. lia.
      * apply Hpre; assumption.
Qed.

Lemma down_child_spec h i n :
  n <= length h -> 2 * i + 1 < n ->
  (heap.down_child h i n = 2 * i + 1 \/
   (heap.down_child h i n = 2 * i + 2 /\ 2 * i + 2 < n)) /\
  (key h (heap.down_child h i n) <= key h (2 * i + 1))%Z /\
  (2 * i + 2 < n -> (key h (heap.down_child h i n) <= key h (2 * i + 2))%Z).
Proof.
  intros Hn Hi. unfold heap.down_child. cbv zeta.
  replace (2 * i + 1 + 1) with (2 * i + 2) by lia.
  case_bool_decide as Hr; simpl.
  - rewrite Less_key by lia.
    case_bool_decide as Hlt.
    + split; [right; split; [reflexivity|assumption]|]. split; [lia|]. intros _. lia.
    + split; [left; reflexivity|]. split; [lia|]. intros _. lia.
  - split; [left; reflexivity|]. split; [lia|]. intros ?. lia.
Qed.

Lemma down_child_parent h i n :
  n <= length h -> 2 * i + 1 < n ->
  (heap.down_child h i n - 1) / 2 = i /\ i < heap.down_child h i n < n.
Proof.
  intros Hn Hi.
  destruct (down_child_spec h i n Hn Hi) as ([->|[-> ?]] & _).
  - rewrite parent_of_left. lia.
  - rewrite parent_of_right. lia.
Qed.

Lemma down_length h i n : length (heap.down h i n) = length h.
Proof.
  remember (n - i) as m eqn:Em. revert h i Em.
  induction m as [m IH] using lt_wf_ind. intros h i Em.
  rewrite down_unfold.
  destruct (decide (n <= 2 * i + 1)) as [|Hin]; [reflexivity|].
  destruct (cwrQ.Less h (heap.down_child h i n) i); [|reflexivity].
  erewrite IH; [apply Swap_length| |reflexivity].
  unfold heap.down_child. destruct (_ && _); lia.
Qed.

Lemma down_perm h i n : heap.down h i n ≡ₚ h.
Proof.
  remember (n - i) as m eqn:Em. revert h i Em.
  induction m as [m IH] using lt_wf_ind. intros h i Em.
  rewrite down_unfold.
  destruct (decide (n <= 2 * i + 1)) as [|Hin]; [reflexivity|].
  destruct (cwrQ.Less h (heap.down_child h i n) i); [|reflexivity].
  erewrite IH; [apply Swap_perm| |reflexivity].
  unfold heap.down_child. destruct (_ && _); lia.
Qed.

(** [down(h, i, n)] leaves the entries from [n] on where they are. *)
Lemma down_lookup_ge h i n k :
  n <= length h -> n <= k -> heap.down h i n !! k = h !! k.
Proof.
  remember (n - i) as m eqn:Em. revert h i Em.
  induction m as [m IH] using lt_wf_ind. intros h i Em Hn Hk.
  rewrite down_unfold.
  destruct (decide (n <= 2 * i + 1)) as [|Hin]; [reflexivity|].
  destruct (down_child_parent h i n Hn ltac:(lia)) as [_ Hc].
  destruct (cwrQ.Less h (heap.down_child h i n) i); [|reflexivity].
  erewrite IH; [| |reflexivity|rewrite Swap_length; lia|lia]; [|lia].
  rewrite Swap_lookup by lia.
  rewrite decide_False by lia. rewrite decide_False by lia. reflexivity.
Qed.

Lemma down_ordered h i n :
  n <= length h -> down_pre h i n -> heap_ordered_upto n (heap.down h i n).
Proof.
  remember (n - i) as m eqn:Em. revert h i Em.
  induction m as [m IH] using lt_wf_ind. intros h i Em Hn [Hpre Hgrand].
  rewrite down_unfold.
  destruct (decide (n <= 2 * i + 1)) as [Hleaf|Hin].
  - intros k Hk. apply Hpre; [lia|]. pose proof (parent_spec k). lia.
  - destruct (down_child_spec h i n Hn ltac:(lia)) as (Hc & Hcl & Hcr).
    destruct (down_child_parent h i n Hn ltac:(lia)) as [Hcp Hcn].
    remember (heap.down_child h i n) as c eqn:Ec.
    rewrite Less_key by lia.
    case_bool_decide as Hlt.
    + eapply IH; [|reflexivity|rewrite Swap_length; lia|]; [lia|].
      split.
      * intros k Hk Hkc. rewrite !Swap_key by lia.
        pose proof (parent_spec k (proj1 Hk)) as Hpk.
        remember ((k - 1) / 2) as pk eqn:Epk.
        destruct (decide (pk = i)) as [->|Hpki].
        { rewrite (decide_False (P := k = i)) by lia.
          destruct (decide (k = c)) as [->|Hkc']; [lia|].
          assert (k = 2 * i + 1 \/ k = 2 * i + 2) as [->| ->] by lia; lia. }
        rewrite (decide_False (P := pk = c)) by assumption.
        destruct (decide (k = i)) as [->|Hki].
        { specialize (Hgrand c ltac:(lia) Hcp ltac:(lia)). rewrite <- Epk in Hgrand. lia. }
        rewrite (decide_False (P := k = c)) by lia.
        specialize (Hpre k Hk). rewrite <- Epk in Hpre. apply Hpre. assumption.
      * intros k Hk Hkc Hc0. rewrite !Swap_key by lia.
        rewrite Hcp. rewrite (decide_True (P := i = i)) by reflexivity.
        pose proof (parent_spec k (proj1 Hk)) as Hpk.
        rewrite (decide_False (P := k = i)) by lia.
        rewrite (decide_False (P := k = c)) by lia.
        specialize (Hpre k Hk). rewrite Hkc in Hpre. apply Hpre. lia.
    + intros k Hk.
      destruct (decide ((k - 1) / 2 = i)) as [Hki|Hki].
      * rewrite Hki. pose proof (parent_spec k (proj1 Hk)) as Hpk.
        assert (k = 2 * i + 1 \/ k = 2 * i + 2) as [->| ->] by lia; lia.
      * apply Hpre; assumption.
Qed.

Lemma heap_ordered_nil : heap_ordered [].
Proof. intros j Hj. simpl in Hj. lia. Qed.

Lemma Init_nil : heap.Init [] = [].
Proof. reflexivity. Qed.

(** The root of a heap is a least entry. *)
Lemma heap_root_min q k :
  heap_ordered q -> k < length q -> (key q 0 <= key q k)%Z.
Proof.
  intros Hq. induction k as [k IH] using lt_wf_ind. intros Hk.
  destruct (decide (k = 0)) as [->|Hk0]; [lia|].
  pose proof (parent_spec k ltac:(lia)) as Hp.
  specialize (Hq k ltac:(lia)).
  specialize (IH ((k - 1) / 2) ltac:(lia) ltac:(lia)). lia.
Qed.

Lemma heap_root_least q top c :
  heap_ordered q -> q !! 0 = Some top -> c ∈ q ->
  (consistencySeq top <= consistencySeq c)%Z.
Proof.
  intros Hq Htop Hc.
  apply list_elem_of_lookup in Hc as [k Hk].
  pose proof (heap_root_min q k Hq (lookup_lt_Some _ _ _ Hk)) as H.
  rewrite (key_lookup _ _ _ Htop), (key_lookup _ _ _ Hk) in H. exact H.
Qed.

Lemma Push_length h x : length (heap.Push h x) = S (length h).
Proof.
  unfold heap.Push, cwrQ.Push. cbv zeta. rewrite up_length, length_app. simpl. lia.
Qed.

Lemma Push_perm h x : heap.Push h x ≡ₚ x :: h.
Proof.
  unfold heap.Push, cwrQ.Push. cbv zeta. rewrite up_perm.
  symmetry. apply Permutation_cons_append.
Qed.

Lemma Push_ordered h x : heap_ordered h -> heap_ordered (heap.Push h x).
Proof.
  intros Hh. unfold heap.Push, cwrQ.Push, cwrQ.Len. cbv zeta.
  rewrite length_app. simpl.
  replace (length h + 1 - 1) with (length h) by lia.
  apply up_ordered; [rewrite length_app; simpl; lia|].
  split.
  - intros k Hk Hne. rewrite length_app in Hk. simpl in Hk.
    pose proof (parent_spec k (proj1 Hk)) as Hp.
    unfold key. rewrite !lookup_app_l by lia.
    apply (Hh k). lia.
  - intros k Hk Hp Hl. rewrite length_app in Hk. simpl in Hk.
    pose proof (parent_spec k (proj1 Hk)). lia.
Qed.

(** [heap.Pop] on a heap that is not empty: it returns the root and leaves a
    heap of the other entries. *)
Lemma Pop_spec h top :
  heap_ordered h -> h !! 0 = Some top ->
  exists h', heap.Pop h = Some (top, h') /\
             heap_ordered h' /\ h ≡ₚ top :: h' /\ length h = S (length h').
Proof.
  intros Hh Htop.
  pose proof (lookup_lt_Some _ _ _ Htop) as Hlen.
  unfold heap.Pop, cwrQ.Len. cbv zeta.
  remember (length h - 1) as n eqn:En.
  remember (heap.down (cwrQ.Swap h 0 n) 0 n) as h2 eqn:E2.
  assert (length h2 = S n) as Hl2.
  { rewrite E2, down_length, Swap_length. lia. }
  assert (h2 !! n = Some top) as Hlast.
  { rewrite E2, down_lookup_ge by (rewrite ?Swap_length; lia).
    rewrite Swap_lookup by lia.
    destruct (decide (n = 0)) as [->|]; [assumption|].
    rewrite decide_True by reflexivity. assumption. }
  assert (heap_ordered_upto n h2) as Ho2.
  { rewrite E2. apply down_ordered; [rewrite Swap_length; lia|].
    split; [|intros; lia].
    intros k Hk Hpk. pose proof (parent_spec k (proj1 Hk)) as Hp.
    rewrite !Swap_key by lia.
    rewrite !decide_False by lia.
    apply (Hh k). lia. }
  exists (take n h2).
  unfold cwrQ.Pop. rewrite Hl2. replace (S n - 1) with n by lia.
  rewrite Hlast. split; [reflexivity|].
  assert (h2 = take n h2 ++ [top]) as Esplit.
  { rewrite <- (take_drop n h2) at 1. f_equal.
    apply list_eq. intros k. rewrite lookup_drop.
    destruct k as [|k]; simpl.
    - rewrite Nat.add_0_r. assumption.
    - rewrite lookup_ge_None_2 by lia. reflexivity. }
  split; [|split].
  - intros k Hk. rewrite length_take, Hl2 in Hk.
    pose proof (parent_spec k (proj1 Hk)) as Hp.
    unfold key. rewrite !lookup_take_lt by lia. apply (Ho2 k). lia.
  - transitivity h2.
    + rewrite E2, down_perm, Swap_perm. reflexivity.
    + rewrite Esplit at 1. symmetry. apply Permutation_cons_append.
  - rewrite length_take, Hl2. lia.
Qed.

Lemma heap_orderedb_correct q : heap_orderedb q = true -> heap_ordered q.
Proof.
  unfold heap_orderedb. rewrite forallb_forall. intros H j Hj.
  apply Z.leb_le, H, in_seq. lia.
Qed.

End HeapFacts.

(** ** The loop that wakes the waiters *)

Lemma wake_loop_spec fuel (q : CwrQueue) (b : Z) q' woken :
  heap_ordered q -> (length q <= fuel)%nat ->
  wake_loop fuel q b = (q', woken) ->
  heap_ordered q' /\ q ≡ₚ woken ++ q' /\
  Forall (fun c => consistencySeq c <= b) woken /\
  Forall (fun c => b < consistencySeq c) q' /\
  StronglySorted seq_le woken.
Proof.
  revert q q' woken.
  induction fuel as [|fuel IH]; intros q q' woken Hq Hlen Hw; simpl in Hw.
  - destruct q; [|simpl in Hlen; lia].
    injection Hw as <- <-. repeat split; auto using StronglySorted.
  - destruct (q !! 0%nat) as [top|] eqn:Htop.
    + case_bool_decide as Hle.
      * destruct (Pop_spec q top Hq Htop) as (h' & HPop & Hh' & Hperm & Hlen').
        rewrite HPop in Hw.
        destruct (wake_loop fuel h' b) as [q'' woken'] eqn:Hrec.
        injection Hw as <- <-.
        destruct (IH h' q'' woken' Hh' ltac:(lia) Hrec) as (Ho & Hp & Hlew & Hgt & Hs).
        split; [assumption|]. split; [|split; [|split]].
        -- rewrite Hperm, Hp. reflexivity.
        -- constructor; assumption.
        -- assumption.
        -- constructor; [assumption|].
           apply Forall_forall. intros c Hc.
           apply (heap_root_least q top c Hq Htop).
           rewrite Hperm, Hp. rewrite elem_of_cons, elem_of_app. auto.
      * injection Hw as <- <-.
        split; [assumption|]. split; [reflexivity|]. split; [constructor|].
        split; [|constructor].
        apply Forall_forall. intros c Hc.
        pose proof (heap_root_least q top c Hq Htop Hc). lia.
    + injection Hw as <- <-.
      destruct q; [|discriminate].
      repeat split; auto using StronglySorted.
Qed.

(** The fuel [wake] gives the loop is enough: the loop stops on its own
    condition, an empty queue or a root above [seqMaxBatch]. *)
Lemma wake_loop_exit (q : CwrQueue) (b : Z) q' woken :
  heap_ordered q -> wake q b = (q', woken) ->
  match q' !! 0%nat with
  | None => q' = []
  | Some top => b < consistencySeq top
  end.
Proof.
  intros Hq Hw. unfold wake, cwrQ.Len in Hw.
  destruct (wake_loop_spec _ q b q' woken Hq (le_n _) Hw) as (_ & _ & _ & Hgt & _).
  destruct q' as [|top rest]; simpl; [reflexivity|].
  inversion Hgt; assumption.
Qed.

(** ** The partition *)

Section PartitionFacts.

Context {Index : Type} {BI : BleveIndex Index}.

Implicit Types (t : BleveDestPartition) (bindex : Index).

Lemma wake_spec (q : CwrQueue) (b : Z) q' woken :
  heap_ordered q -> wake q b = (q', woken) ->
  heap_ordered q' /\ q ≡ₚ woken ++ q' /\
  Forall (fun c => consistencySeq c <= b) woken /\
  Forall (fun c => b < consistencySeq c) q' /\
  StronglySorted seq_le woken.
Proof.
  intros Hq Hw. apply (wake_loop_spec (cwrQ.Len q) q b); [assumption|apply le_n|assumption].
Qed.

(** A failed [Batch] changes nothing. *)
Lemma applyBatch_failure t bindex err :
  idx_Batch bindex (batch t) = Err err ->
  applyBatchUnlocked t bindex =
    {| st := t; idx := bindex; trace := [EvBatch (batch t)]; res := Some err |}.
Proof. intros H. unfold applyBatchUnlocked. rewrite H. reflexivity. Qed.

(** What [applyBatchUnlocked] returns tells whether [Batch] failed. *)
Lemma applyBatch_res t bindex :
  match idx_Batch bindex (batch t) with
  | Err err => res (applyBatchUnlocked t bindex) = Some err
  | Ok _ => res (applyBatchUnlocked t bindex) = None
  end.
Proof.
  unfold applyBatchUnlocked. destruct (idx_Batch bindex (batch t)); [|reflexivity].
  simpl. destruct (wake _ _). reflexivity.
Qed.

(** A successful [Batch], field by field. *)
Lemma applyBatch_success t bindex bindex' :
  idx_Batch bindex (batch t) = Ok bindex' ->
  let o := applyBatchUnlocked t bindex in
  let w := wake (cwrQueue t) (seqMax t) in
  res o = None /\ idx o = bindex' /\
  trace o = EvBatch (batch t) :: map (fun cwr => EvClose (doneCh cwr)) (snd w) /\
  cwrQueue (st o) = fst w /\
  seqMaxBatch (st o) = seqMax t /\ seqMax (st o) = seqMax t /\
  seqMaxBuf (st o) = seqMaxBuf t /\
  seqSnapEnd (st o) = seqSnapEnd t /\
  batch (st o) = NewBatch /\
  buf (st o) = match buf t with Some _ => Some [] | None => None end /\
  lastOpaque (st o) = lastOpaque t /\
  partition (st o) = partition t /\ partitionOpaque (st o) = partitionOpaque t /\
  cwrCh (st o) = cwrCh t /\ cwrChClosed (st o) = cwrChClosed t.
Proof.
  intros H. unfold applyBatchUnlocked. rewrite H.
  destruct t as [p po sm smb smba sse b ba lo ch chc q]. simpl in *.
  destruct (wake q sm) as [q' woken].
  destruct b; simpl; repeat split; reflexivity.
Qed.

(** C1.  When [applyBatchUnlocked] succeeds, [seqMaxBatch] becomes the
    [seqMax] of the call; the waiters popped are closed in non-decreasing
    order of target, they are exactly the queued requests with a target at
    most the new [seqMaxBatch], and what stays queued is a heap of the
    others; the batch is a new empty one, the value buffer has length 0 and
    [seqSnapEnd] is as before. *)
Theorem applyBatch_ok_wakes_and_resets t bindex bindex' :
  heap_ordered (cwrQueue t) ->
  idx_Batch bindex (batch t) = Ok bindex' ->
  let o := applyBatchUnlocked t bindex in
  res o = None /\
  seqMaxBatch (st o) = seqMax t /\
  (exists woken : list consistencyWaitReq,
     trace o = EvBatch (batch t) :: map (fun cwr => EvClose (doneCh cwr)) woken /\
     StronglySorted seq_le woken /\
     cwrQueue t ≡ₚ woken ++ cwrQueue (st o) /\
     (forall cwr, cwr ∈ cwrQueue t ->
        consistencySeq cwr <= seqMaxBatch (st o) ->
        (cwr ∈ woken) /\ (cwr ∉ cwrQueue (st o)) /\ (EvClose (doneCh cwr) ∈ trace o)) /\
     (forall cwr, cwr ∈ woken -> consistencySeq cwr <= seqMaxBatch (st o))) /\
  heap_ordered (cwrQueue (st o)) /\
  batch (st o) = NewBatch /\
  len (buf (st o)) = 0 /\
  seqSnapEnd (st o) = seqSnapEnd t.
Proof.
  intros Hq Hb o.
  destruct (applyBatch_success t bindex bindex' Hb)
    as (Hres & _ & Htr & Hqueue & Hsmb & _ & _ & Hsnap & Hbatch & Hbuf & _).
  fold o in Hres, Htr, Hqueue, Hsmb, Hsnap, Hbatch, Hbuf.
  destruct (wake (cwrQueue t) (seqMax t)) as [q' woken] eqn:Hw. simpl in Htr, Hqueue.
  destruct (wake_spec _ _ _ _ Hq Hw) as (Ho & Hperm & Hle & Hgt & Hsorted).
  rewrite Hqueue, Hsmb.
  split; [assumption|]. split; [reflexivity|]. split.
  { exists woken. split; [assumption|]. split; [assumption|]. split; [assumption|].
    rewrite Forall_forall in Hle, Hgt.
    split; [|exact Hle].
    intros cwr Hin Hseq.
    assert (cwr ∉ q') as Hnot by (intros Hq'; specialize (Hgt _ Hq'); lia).
    assert (cwr ∈ woken) as Hwoken.
    { rewrite Hperm, elem_of_app in Hin. destruct Hin; [assumption|contradiction]. }
    split; [assumption|]. split; [assumption|].
    rewrite Htr. apply elem_of_cons. right.
    apply (list_elem_of_fmap_2 (fun cwr => EvClose (doneCh cwr))). assumption. }
  split; [assumption|]. split; [assumption|]. split; [|assumption].
  rewrite Hbuf. destruct (buf t); reflexivity.
Qed.

(** C5.  When the index's [Batch] fails, [applyBatchUnlocked] returns its
    error and the partition is as before, pending batch included, so the
    next attempt passes the same batch to the index. *)
Theorem applyBatch_error_keeps_state t bindex err :
  idx_Batch bindex (batch t) = Err err ->
  let o := applyBatchUnlocked t bindex in
  res o = Some err /\ st o = t /\ idx o = bindex /\
  trace o = [EvBatch (batch t)] /\
  (forall b, EvBatch b ∈ trace (applyBatchUnlocked (st o) (idx o)) -> b = batch t).
Proof.
  intros H o. unfold o. rewrite (applyBatch_failure t bindex err H). simpl.
  repeat split; try reflexivity.
  intros b Hb. rewrite (applyBatch_failure t bindex err H) in Hb. simpl in Hb.
  apply list_elem_of_singleton in Hb. congruence.
Qed.

(** C10.  [OnSnapshotStart] returns the error of a failed apply and leaves
    [seqSnapEnd] as it was; it sets [seqSnapEnd] to [snapEnd] exactly when
    the apply succeeds. *)
Theorem OnSnapshotStart_seqSnapEnd t bindex snapStart snapEnd :
  let o := OnSnapshotStart t bindex snapStart snapEnd in
  (forall err, idx_Batch bindex (batch t) = Err err ->
     res o = Some err /\ st o = t /\ seqSnapEnd (st o) = seqSnapEnd t) /\
  (forall bindex', idx_Batch bindex (batch t) = Ok bindex' ->
     res o = None /\ seqSnapEnd (st o) = snapEnd /\ idx o = bindex').
Proof.
  intros o. split.
  - intros err H. unfold o, OnSnapshotStart.
    rewrite (applyBatch_failure t bindex err H). simpl. repeat split; reflexivity.
  - intros bindex' H. unfold o, OnSnapshotStart.
    destruct (applyBatch_success t bindex bindex' H) as (Hres & Hidx & _).
    rewrite Hres. simpl. split; [reflexivity|]. split; [reflexivity|assumption].
Qed.

Lemma applyBatch_trace_head t bindex :
  exists tr, trace (applyBatchUnlocked t bindex) = EvBatch (batch t) :: tr.
Proof.
  unfold applyBatchUnlocked. destruct (idx_Batch bindex (batch t)).
  - simpl. destruct (wake _ _). simpl. eauto.
  - simpl. eauto.
Qed.

(** C2.  [updateSeqUnlocked(seq)]: when [seq > seqMax], [seqMax] becomes
    [seq] and a write of its 8 big-endian bytes under the key [<partition>]
    is staged; otherwise nothing is staged.  The call then returns without
    calling [Batch] exactly when the buffered bytes are below 200000 and
    [seq < seqSnapEnd]; otherwise it is [applyBatchUnlocked]. *)
Theorem updateSeq_stages_then_applies t bindex seq :
  let o := updateSeqUnlocked t bindex seq in
  BLEVE_DEST_APPLY_BUF_SIZE_BYTES = 200000 /\
  exists t1 : BleveDestPartition,
    (seqMax t < seq ->
       seqMax t1 = seq /\
       seqMaxBuf t1 = BigEndian.PutUint64 seq /\
       length (BigEndian.PutUint64 seq) = 8%nat /\
       (is_uint64 seq -> BigEndian.Uint64 (BigEndian.PutUint64 seq) = seq) /\
       batch t1 = Batch_SetInternal (batch t) (partition t)
                    (Some (BigEndian.PutUint64 seq))) /\
    (seq <= seqMax t -> t1 = t) /\
    (partition t1 = partition t /\ partitionOpaque t1 = partitionOpaque t /\
     seqMaxBatch t1 = seqMaxBatch t /\ seqSnapEnd t1 = seqSnapEnd t /\
     buf t1 = buf t /\ lastOpaque t1 = lastOpaque t /\
     cwrCh t1 = cwrCh t /\ cwrChClosed t1 = cwrChClosed t /\
     cwrQueue t1 = cwrQueue t) /\
    (len (buf t) < 200000 /\ seq < seqSnapEnd t ->
       o = {| st := t1; idx := bindex; trace := []; res := None |}) /\
    (~ (len (buf t) < 200000 /\ seq < seqSnapEnd t) ->
       o = applyBatchUnlocked t1 bindex) /\
    ((forall b, EvBatch b ∉ trace o) <->
     (len (buf t) < 200000 /\ seq < seqSnapEnd t)).
Proof.
  intros o. split; [reflexivity|]. unfold o, updateSeqUnlocked.
  set (t1 := if bool_decide (seqMax t < seq) then _ else t).
  exists t1.
  assert (buf t1 = buf t /\ seqSnapEnd t1 = seqSnapEnd t) as [Ebuf Esnap].
  { unfold t1. case_bool_decide; split; reflexivity. }
  rewrite Ebuf, Esnap. unfold BLEVE_DEST_APPLY_BUF_SIZE_BYTES.
  split; [|split; [|split; [|split; [|split]]]].
  - intros Hlt. unfold t1. rewrite bool_decide_eq_true_2 by assumption. simpl.
    split; [reflexivity|]. split; [reflexivity|]. split; [reflexivity|].
    split; [apply Uint64_PutUint64|reflexivity].
  - intros Hle. unfold t1. rewrite bool_decide_eq_false_2 by lia. reflexivity.
  - unfold t1. case_bool_decide; repeat split; reflexivity.
  - intros [H1 H2]. rewrite !bool_decide_eq_true_2 by assumption. reflexivity.
  - intros Hn.
    destruct (bool_decide (len (buf t) < 200000)) eqn:E1;
      destruct (bool_decide (seq < seqSnapEnd t)) eqn:E2; simpl; try reflexivity.
    apply bool_decide_eq_true in E1, E2. tauto.
  - destruct (bool_decide (len (buf t) < 200000)) eqn:E1;
      destruct (bool_decide (seq < seqSnapEnd t)) eqn:E2; simpl.
    1: { apply bool_decide_eq_true in E1, E2. split; [tauto|].
         intros _ b Hb. simpl in Hb. apply elem_of_nil in Hb. exact Hb. }
    all: split;
      [ intros Hno; destruct (applyBatch_trace_head t1 bindex) as [tr Htr];
        exfalso; apply (Hno (batch t1)); rewrite Htr; apply elem_of_cons; left; reflexivity
      | intros [H1 H2];
        first [ apply bool_decide_eq_false in E1 | apply bool_decide_eq_false in E2 ];
        tauto ].
Qed.

End PartitionFacts.

(** ** The worker *)



(** ** Sequences of operations on a partition *)

Section RunFacts.

Context {Index : Type} {BI : BleveIndex Index} {CA : Callers}.

Implicit Types (t : BleveDestPartition) (bindex : Index).

Lemma applyBatch_seq t bindex :
  seq_inv t -> seq_step t (st (applyBatchUnlocked t bindex)).
Proof.
  unfold seq_step, seq_inv. intros Hinv.
  destruct (idx_Batch bindex (batch t)) as [bindex'|err] eqn:Hb.
  - destruct (applyBatch_success t bindex bindex' Hb)
      as (_ & _ & _ & _ & Hsmb & Hsm & _).
    rewrite Hsmb, Hsm. lia.
  - rewrite (applyBatch_failure t bindex err Hb). simpl. lia.
Qed.

Lemma updateSeq_seq t bindex seq :
  seq_inv t -> seq_step t (st (updateSeqUnlocked t bindex seq)).
Proof.
  intros Hinv. unfold updateSeqUnlocked.
  set (t1 := if bool_decide (seqMax t < seq) then _ else t).
  assert (seq_step t t1) as (Hi1 & Hm1 & Hb1).
  { unfold t1, seq_step, seq_inv in *. case_bool_decide; simpl; lia. }
  destruct (_ && _).
  - simpl. split; [assumption|]. split; assumption.
  - destruct (applyBatch_seq t1 bindex Hi1) as (Hi2 & Hm2 & Hb2).
    split; [assumption|]. split; lia.
Qed.

Lemma GetOpaque_seqMax_seq t bindex tr :
  seq_inv t -> seq_step t (st (GetOpaque_seqMax t bindex tr)).
Proof.
  unfold seq_step, seq_inv, GetOpaque_seqMax. intros Hinv.
  case_bool_decide as Hz; [|simpl; lia].
  destruct (idx_GetInternal bindex (partition t)) as [b|err]; [|simpl; lia].
  case_bool_decide; [simpl; lia|].
  case_bool_decide; [simpl; lia|].
  simpl. pose proof (Uint64_nonneg (take 8 b)). lia.
Qed.

Lemma GetOpaque_seq t bindex :
  seq_inv t -> seq_step t (st (GetOpaque t bindex)).
Proof.
  intros Hinv. unfold GetOpaque.
  destruct (lastOpaque t).
  - apply GetOpaque_seqMax_seq. assumption.
  - destruct (idx_GetInternal bindex (partitionOpaque t)) as [value|err].
    + apply (GetOpaque_seqMax_seq (set_lastOpaque (append_nil value) t)). assumption.
    + simpl. unfold seq_step, seq_inv in *. lia.
Qed.

Lemma run_body_fields t cwr :
  let t' := wst (run_body t cwr) in
  seqMax t' = seqMax t /\ seqMaxBatch t' = seqMaxBatch t /\
  batch t' = batch t /\ partition t' = partition t /\
  partitionOpaque t' = partitionOpaque t.
Proof.
  unfold run_body.
  destruct (decide _); [simpl; tauto|].
  destruct (decide _); [|destruct (receives cwr); simpl; tauto].
  case_bool_decide; simpl; tauto.
Qed.

Lemma pexec_seq t bindex (o : pop) :
  seq_inv t -> seq_step t (st (pexec t bindex o)).
Proof.
  intros Hinv. destruct o as [key seq val|key seq|s e|v| | |cwr]; simpl.
  - unfold OnDataUpdate. destruct (appendToBufUnlocked t val) as [t1 bufVal] eqn:Ha.
    assert (seqMax t1 = seqMax t /\ seqMaxBatch t1 = seqMaxBatch t) as [E1 E2].
    { unfold appendToBufUnlocked in Ha. case_bool_decide.
      - injection Ha as <- _. tauto.
      - injection Ha as <- _. destruct (buf t); simpl; tauto. }
    destruct (updateSeq_seq (set_batch (Batch_Index (batch t1) key bufVal) t1) bindex seq)
      as (H1 & H2 & H3).
    { unfold seq_inv in *. simpl. lia. }
    simpl in H2, H3. unfold seq_step. split; [assumption|]. lia.
  - unfold OnDataDelete.
    apply (updateSeq_seq (set_batch (Batch_Delete (batch t) key) t)). assumption.
  - unfold OnSnapshotStart.
    pose proof (applyBatch_seq t bindex Hinv) as H.
    destruct (res (applyBatchUnlocked t bindex)); [assumption|].
    simpl. exact H.
  - unfold seq_step, seq_inv in *. simpl. lia.
  - apply GetOpaque_seq. assumption.
  - apply applyBatch_seq. assumption.
  - pose proof (run_body_fields t cwr) as H. cbv zeta in H.
    destruct (run_body t cwr) as [t' tr bl]. simpl in *.
    destruct H as (E1 & E2 & _). unfold seq_step, seq_inv in *. lia.
Qed.

(** C4.  From the partition [getPartitionUnlocked] creates, through any
    sequence of operations, whatever they return: [seqMaxBatch <= seqMax]
    holds in every state, and from each state to every later one neither
    [seqMax] nor [seqMaxBatch] decreases. *)
Theorem seqMaxBatch_le_seqMax_monotone (p : string) (bindex : Index) (os : list pop) :
  let states := newPartition p :: map st (psteps (newPartition p) bindex os) in
  Forall seq_inv states /\
  StronglySorted
    (fun a b => seqMax a <= seqMax b /\ seqMaxBatch a <= seqMaxBatch b) states.
Proof.
  cbv zeta.
  assert (seq_inv (newPartition p)) as H0 by (unfold seq_inv; simpl; lia).
  generalize dependent (newPartition p). revert bindex.
  induction os as [|o os IH]; intros bindex t Ht; simpl.
  - split; repeat constructor; assumption.
  - destruct (pexec_seq t bindex o Ht) as (Hi & Hm & Hb).
    destruct (IH (idx (pexec t bindex o)) (st (pexec t bindex o)) Hi) as [HF HS].
    split; [constructor; assumption|].
    constructor; [assumption|].
    inversion HS as [|a l HS' Hall]; subst.
    constructor; [split; assumption|].
    eapply Forall_impl; [exact Hall|]. simpl. intros b [? ?]. lia.
Qed.

Lemma keys_ok_distinct t : keys_ok t -> partitionOpaque t <> partition t.
Proof.
  unfold keys_ok. intros E Heq. rewrite Heq in E.
  apply (f_equal String.length) in E.
  change (String.length ("o:" ++ partition t)%string)
    with (S (S (String.length (partition t)))) in E.
  lia.
Qed.

(** C6.  [GetOpaque] reads the key [o:<partition>] exactly when
    [lastOpaque] is unset, and the key [<partition>] exactly when [seqMax]
    is 0 (and the first read, if any, did not fail).  An empty value under
    [<partition>] gives [seqMax] 0, a value of 8 bytes is decoded with
    [BigEndian.Uint64] into [seqMax], any other length is an error; a
    successful call returns [lastOpaque] and [seqMax]. *)
Theorem GetOpaque_reads_and_decodes t bindex :
  keys_ok t -> 0 <= seqMax t ->
  let o := GetOpaque t bindex in
  let opaque : result (option (list byte)) :=
    match lastOpaque t with
    | Some v => Ok (Some v)
    | None =>
      match idx_GetInternal bindex (partitionOpaque t) with
      | Ok value => Ok (append_nil value)
      | Err err => Err err
      end
    end in
  (EvGetInternal (partitionOpaque t) ∈ trace o <-> lastOpaque t = None) /\
  (EvGetInternal (partition t) ∈ trace o <->
     seqMax t = 0 /\ exists lo, opaque = Ok lo) /\
  (forall err, opaque = Err err -> res o = Err err /\ st o = t) /\
  (forall lo, opaque = Ok lo ->
     lastOpaque (st o) = lo /\
     (seqMax t <> 0 -> res o = Ok (lo, seqMax t) /\ seqMax (st o) = seqMax t) /\
     (seqMax t = 0 ->
        match idx_GetInternal bindex (partition t) with
        | Err err => res o = Err err
        | Ok b =>
          (length b = 0%nat -> res o = Ok (lo, 0) /\ seqMax (st o) = 0) /\
          (length b = 8%nat ->
             res o = Ok (lo, BigEndian.Uint64 b) /\
             seqMax (st o) = BigEndian.Uint64 b) /\
          (length b <> 0%nat -> length b <> 8%nat -> res o = Err ErrSeqMaxSize)
        end)) /\
  (forall v s, res o = Ok (v, s) -> v = lastOpaque (st o) /\ s = seqMax (st o)).
Proof.
  intros Hkeys Hnn. pose proof (keys_ok_distinct t Hkeys) as Hne.
  assert (forall (t' : BleveDestPartition) tr,
            partition t' = partition t -> seqMax t' = seqMax t ->
            let o := GetOpaque_seqMax t' bindex tr in
            lastOpaque (st o) = lastOpaque t' /\
            trace o = tr ++ (if bool_decide (seqMax t = 0)
                             then [EvGetInternal (partition t)] else []) /\
            (seqMax t <> 0 ->
               res o = Ok (lastOpaque t', seqMax t) /\ seqMax (st o) = seqMax t) /\
            (seqMax t = 0 ->
               match idx_GetInternal bindex (partition t) with
               | Err err => res o = Err err
               | Ok b =>
                 (length b = 0%nat ->
                    res o = Ok (lastOpaque t', 0) /\ seqMax (st o) = 0) /\
                 (length b = 8%nat ->
                    res o = Ok (lastOpaque t', BigEndian.Uint64 b) /\
                    seqMax (st o) = BigEndian.Uint64 b) /\
                 (length b <> 0%nat -> length b <> 8%nat -> res o = Err ErrSeqMaxSize)
               end) /\
            (forall v s, res o = Ok (v, s) ->
               v = lastOpaque (st o) /\ s = seqMax (st o))) as Hsecond.
  { intros t' tr Ep Es. unfold GetOpaque_seqMax. rewrite Ep, Es.
    case_bool_decide as Hz.
    - assert (seqMax t = 0) as Hz0 by lia.
      rewrite bool_decide_eq_true_2 by assumption.
      destruct (idx_GetInternal bindex (partition t)) as [b|err]; simpl.
      + case_bool_decide as Hl0; [|case_bool_decide as Hl8]; simpl.
        * repeat split; intros; simplify_eq /=;
            solve [reflexivity|lia|congruence].
        * repeat split; intros; simplify_eq /=;
            solve [reflexivity|lia|congruence].
        * assert (length b = 8%nat) as Hb8 by lia.
          rewrite firstn_all2 by lia.
          repeat split; intros; simplify_eq /=;
            solve [reflexivity|lia|congruence].
      + repeat split; intros; simplify_eq /=;
          solve [reflexivity|lia|congruence].
    - rewrite bool_decide_eq_false_2 by lia. simpl. rewrite app_nil_r.
      repeat split; intros; simplify_eq /=;
        solve [reflexivity|lia|congruence]. }
  cbv zeta in Hsecond |- *. unfold GetOpaque.
  destruct (lastOpaque t) as [v0|] eqn:Hlo.
  - destruct (Hsecond t [] eq_refl eq_refl) as (H1 & H2 & H3 & H4 & H5).
    rewrite H2. simpl app.
    split; [|split; [|split; [|split]]].
    + split; [|discriminate]. intros Hin.
      case_bool_decide; [apply list_elem_of_singleton in Hin; congruence|].
      apply elem_of_nil in Hin. contradiction.
    + case_bool_decide as Hz.
      * split; [intros _; split; [assumption|eauto]|].
        intros _. apply list_elem_of_singleton. reflexivity.
      * split; [intros Hin; apply elem_of_nil in Hin; contradiction|].
        intros [? _]. contradiction.
    + intros err [=].
    + intros lo [= <-]. rewrite H1, Hlo. rewrite Hlo in H3, H4.
      split; [reflexivity|]. split; assumption.
    + assumption.
  - destruct (idx_GetInternal bindex (partitionOpaque t)) as [value|err] eqn:Hread.
    + destruct (Hsecond (set_lastOpaque (append_nil value) t)
                  [EvGetInternal (partitionOpaque t)] eq_refl eq_refl)
        as (H1 & H2 & H3 & H4 & H5).
      simpl in H1, H3, H4. rewrite H2.
      split; [|split; [|split; [|split]]].
      * split; [reflexivity|]. intros _. apply elem_of_app. left.
        apply list_elem_of_singleton. reflexivity.
      * rewrite elem_of_app, list_elem_of_singleton.
        case_bool_decide as Hz.
        -- split; [intros _; split; [assumption|eauto]|].
           intros _. right. apply list_elem_of_singleton. reflexivity.
        -- split.
           ++ intros [[= Heq]|Hin]; [congruence|apply elem_of_nil in Hin; contradiction].
           ++ intros [? _]. contradiction.
      * intros err [=].
      * intros lo [= <-]. split; [assumption|]. split; assumption.
      * assumption.
    + simpl.
      split; [|split; [|split; [|split]]].
      * split; [reflexivity|]. intros _. apply list_elem_of_singleton. reflexivity.
      * rewrite list_elem_of_singleton. split.
        -- intros [= Heq]. congruence.
        -- intros [_ [lo [=]]].
      * intros err' [= <-]. split; reflexivity.
      * intros lo [=].
      * intros v s [=].
Qed.

(** *** The queue of waiters stays a heap *)

Lemma applyBatch_heap t bindex :
  heap_ordered (cwrQueue t) -> heap_ordered (cwrQueue (st (applyBatchUnlocked t bindex))).
Proof.
  intros Hq. destruct (idx_Batch bindex (batch t)) as [bindex'|err] eqn:Hb.
  - destruct (applyBatch_success t bindex bindex' Hb) as (_ & _ & _ & Hqueue & _).
    rewrite Hqueue.
    destruct (wake (cwrQueue t) (seqMax t)) as [q' woken] eqn:Hw.
    apply (wake_spec _ _ _ _ Hq Hw).
  - rewrite (applyBatch_failure t bindex err Hb). exact Hq.
Qed.

Lemma updateSeq_heap t bindex (seq : Z) :
  heap_ordered (cwrQueue t) ->
  heap_ordered (cwrQueue (st (updateSeqUnlocked t bindex seq))).
Proof.
  intros Hq. unfold updateSeqUnlocked.
  set (t1 := if bool_decide (seqMax t < seq) then _ else t).
  assert (cwrQueue t1 = cwrQueue t) as E by (unfold t1; case_bool_decide; reflexivity).
  destruct (_ && _); simpl.
  - rewrite E. exact Hq.
  - apply applyBatch_heap. rewrite E. exact Hq.
Qed.

Lemma pexec_heap t bindex (o : pop) :
  heap_ordered (cwrQueue t) -> heap_ordered (cwrQueue (st (pexec t bindex o))).
Proof.
  intros Hq. destruct o as [key seq val|key seq|s e|v| | |cwr]; simpl.
  - unfold OnDataUpdate. destruct (appendToBufUnlocked t val) as [t1 bufVal] eqn:Ha.
    assert (cwrQueue t1 = cwrQueue t) as E.
    { unfold appendToBufUnlocked in Ha. case_bool_decide.
      - injection Ha as <- _. reflexivity.
      - injection Ha as <- _. destruct (buf t); reflexivity. }
    apply updateSeq_heap. simpl. rewrite E. exact Hq.
  - unfold OnDataDelete. apply updateSeq_heap. exact Hq.
  - unfold OnSnapshotStart.
    pose proof (applyBatch_heap t bindex Hq) as H.
    destruct (res (applyBatchUnlocked t bindex)); [assumption|exact H].
  - exact Hq.
  - assert (cwrQueue (st (GetOpaque t bindex)) = cwrQueue t) as ->; [|exact Hq].
    unfold GetOpaque, GetOpaque_seqMax.
    repeat first [case_match | case_bool_decide]; reflexivity.
  - apply applyBatch_heap. exact Hq.
  - assert (heap_ordered (cwrQueue (wst (run_body t cwr)))) as H.
    { unfold run_body. repeat first [case_match | case_bool_decide]; simpl;
        solve [exact Hq | apply Push_ordered; exact Hq]. }
    destruct (run_body t cwr). exact H.
Qed.

(** *** What every reachable state has *)

Lemma applyBatch_names t bindex :
  partition (st (applyBatchUnlocked t bindex)) = partition t /\
  partitionOpaque (st (applyBatchUnlocked t bindex)) = partitionOpaque t.
Proof.
  destruct (idx_Batch bindex (batch t)) as [bindex'|err] eqn:Hb.
  - destruct (applyBatch_success t bindex bindex' Hb)
      as (_ & _ & _ & _ & _ & _ & _ & _ & _ & _ & _ & Hp & Hpo & _).
    split; assumption.
  - rewrite (applyBatch_failure t bindex err Hb). split; reflexivity.
Qed.

Lemma updateSeq_names t bindex (seq : Z) :
  partition (st (updateSeqUnlocked t bindex seq)) = partition t /\
  partitionOpaque (st (updateSeqUnlocked t bindex seq)) = partitionOpaque t.
Proof.
  unfold updateSeqUnlocked.
  set (t1 := if bool_decide (seqMax t < seq) then _ else t).
  assert (partition t1 = partition t /\ partitionOpaque t1 = partitionOpaque t)
    as [E1 E2] by (unfold t1; case_bool_decide; split; reflexivity).
  destruct (_ && _); simpl; [split; assumption|].
  destruct (applyBatch_names t1 bindex) as [-> ->]. split; assumption.
Qed.

Lemma pexec_names t bindex (o : pop) :
  partition (st (pexec t bindex o)) = partition t /\
  partitionOpaque (st (pexec t bindex o)) = partitionOpaque t.
Proof.
  destruct o as [key seq val|key seq|s e|v| | |cwr]; simpl.
  - unfold OnDataUpdate. destruct (appendToBufUnlocked t val) as [t1 bufVal] eqn:Ha.
    assert (partition t1 = partition t /\ partitionOpaque t1 = partitionOpaque t)
      as [E1 E2].
    { unfold appendToBufUnlocked in Ha. case_bool_decide.
      - injection Ha as <- _. split; reflexivity.
      - injection Ha as <- _. destruct (buf t); split; reflexivity. }
    destruct (updateSeq_names (set_batch (Batch_Index (batch t1) key bufVal) t1)
                bindex seq) as [-> ->].
    split; assumption.
  - unfold OnDataDelete. apply (updateSeq_names (set_batch _ t)).
  - unfold OnSnapshotStart. pose proof (applyBatch_names t bindex) as H.
    destruct (res (applyBatchUnlocked t bindex)); exact H.
  - split; reflexivity.
  - unfold GetOpaque, GetOpaque_seqMax.
    repeat first [case_match | case_bool_decide]; split; reflexivity.
  - apply applyBatch_names.
  - pose proof (run_body_fields t cwr) as H. cbv zeta in H.
    destruct (run_body t cwr) as [t' tr bl]. simpl in *. tauto.
Qed.

(** In every state a partition reaches: the two keys are [<partition>] and
    [o:<partition>], [seqMax] is not negative, [seqMaxBatch <= seqMax], and
    the queue of waiters is a heap. *)
Lemma reachable_partition_ok (p : string) bindex (os : list pop) :
  Forall (fun r =>
            keys_ok (st r) /\ 0 <= seqMax (st r) /\ seq_inv (st r) /\
            heap_ordered (cwrQueue (st r)))
         (psteps (newPartition p) bindex os).
Proof.
  assert (keys_ok (newPartition p) /\ 0 <= seqMax (newPartition p) /\
          seq_inv (newPartition p) /\ heap_ordered (cwrQueue (newPartition p))) as H0.
  { split; [reflexivity|]. split; [simpl; lia|].
    split; [unfold seq_inv; simpl; lia|apply heap_ordered_nil]. }
  generalize dependent (newPartition p). revert bindex.
  induction os as [|o os IH]; intros bindex t (Hk & Hn & Hi & Hq); simpl; [constructor|].
  destruct (pexec_names t bindex o) as [Ep Epo].
  destruct (pexec_seq t bindex o Hi) as (Hi' & Hm & _).
  pose proof (pexec_heap t bindex o Hq) as Hq'.
  assert (keys_ok (st (pexec t bindex o))) as Hk'
    by (unfold keys_ok in *; congruence).
  constructor; [|apply IH]; (split; [assumption|split; [lia|split; assumption]]).
Qed.

(** *** The opaque value: staged, applied, read back *)

Lemma staged_internal_snoc (key : string) (b : Batch) (op : batch_op) :
  staged_internal key (b ++ [op]) =
    match op with
    | OpSetInternal k v => if decide (k = key) then Some v else staged_internal key b
    | _ => staged_internal key b
    end.
Proof.
  induction b as [|a b IH]; simpl.
  - destruct op as [| |k v]; reflexivity.
  - rewrite IH. destruct op as [| |k v]; try reflexivity.
    destruct (decide (k = key)); reflexivity.
Qed.









Context {BII : BleveIndexInternal Index}.


End RunFacts.

(** ** The destination *)

Section DestFacts.

Context {Index : Type} {BI : BleveIndex Index} {CA : Callers}.

Implicit Types (t : BleveDest Index).

Lemma run_body_queue (b : BleveDestPartition) (c cwr : consistencyWaitReq) :
  cwr ∈ cwrQueue b -> cwr ∈ cwrQueue (wst (run_body b c)).
Proof.
  intros Hin. unfold run_body.
  destruct (decide _); [assumption|].
  destruct (decide _); [|destruct (receives c); assumption].
  case_bool_decide; [|assumption].
  simpl. rewrite Push_perm. apply elem_of_cons. right. assumption.
Qed.

Lemma run_loop_queue (msgs : list consistencyWaitReq) (b : BleveDestPartition)
  (cwr : consistencyWaitReq) :
  cwr ∈ cwrQueue b -> cwr ∈ cwrQueue (wst (run_loop msgs b)).
Proof.
  revert b. induction msgs as [|c msgs IH]; intros b Hin; simpl; [assumption|].
  pose proof (run_body_queue b c cwr Hin) as H1.
  destruct (wblocked (run_body b c)); [exact H1|].
  simpl. apply IH. exact H1.
Qed.

(** A request whose caller receives does not block the worker. *)
Lemma run_body_receives (b : BleveDestPartition) (c : consistencyWaitReq) :
  receives c = true -> wblocked (run_body b c) = false.
Proof.
  intros Hc. unfold run_body. rewrite Hc.
  repeat first [case_match | case_bool_decide]; reflexivity.
Qed.

(** What the worker queues comes from the channel or was queued. *)
Lemma run_body_queue_from (b : BleveDestPartition) (c cwr : consistencyWaitReq) :
  cwr ∈ cwrQueue (wst (run_body b c)) -> cwr = c \/ cwr ∈ cwrQueue b.
Proof.
  unfold run_body.
  destruct (decide _); [auto|].
  destruct (decide _); [|destruct (receives c); auto].
  case_bool_decide; [|auto].
  simpl. rewrite Push_perm. intros Hin. apply elem_of_cons in Hin. exact Hin.
Qed.

Lemma run_loop_receives (msgs : list consistencyWaitReq) (b : BleveDestPartition) :
  forallb receives msgs = true ->
  wblocked (run_loop msgs b) = false /\
  forall cwr, cwr ∈ cwrQueue (wst (run_loop msgs b)) -> cwr ∈ msgs \/ cwr ∈ cwrQueue b.
Proof.
  revert b. induction msgs as [|c msgs IH]; intros b Hall; simpl.
  - split; [reflexivity|]. auto.
  - apply andb_true_iff in Hall as [Hc Hall].
    rewrite (run_body_receives b c Hc). simpl.
    destruct (IH (wst (run_body b c)) Hall) as [Hb Hq].
    split; [exact Hb|].
    intros cwr Hin. destruct (Hq cwr Hin) as [H|H].
    + left. apply elem_of_cons. right. exact H.
    + destruct (run_body_queue_from b c cwr H) as [->|H'].
      * left. apply list_elem_of_here.
      * right. exact H'.
Qed.

(** The drain of the queue when every caller receives: each request is sent
    the error and closed. *)
Lemma run_closing_loop_all (q : list consistencyWaitReq) :
  forallb receives q = true ->
  run_closing_loop q =
    (flat_map (fun cwr => [EvSend (doneCh cwr) ErrWaitClosed; EvClose (doneCh cwr)]) q,
     false).
Proof.
  induction q as [|c q IH]; intros Hall; simpl; [reflexivity|].
  apply andb_true_iff in Hall as [Hc Hall].
  rewrite Hc, (IH Hall). reflexivity.
Qed.

(** The drain of the queue stops at the first request whose caller has
    gone: the requests behind it get nothing. *)
Lemma run_closing_loop_blocks (pre post : list consistencyWaitReq)
  (c : consistencyWaitReq) :
  forallb receives pre = true -> receives c = false ->
  run_closing_loop (pre ++ c :: post) =
    (flat_map (fun cwr => [EvSend (doneCh cwr) ErrWaitClosed; EvClose (doneCh cwr)]) pre
       ++ [EvSend (doneCh c) ErrWaitClosed],
     true).
Proof.
  intros Hpre Hc. induction pre as [|a pre IH]; simpl.
  - rewrite Hc. reflexivity.
  - simpl in Hpre. apply andb_true_iff in Hpre as [Ha Hpre].
    rewrite Ha, (IH Hpre). reflexivity.
Qed.

(** The worker of a partition whose channel was closed, when the callers of
    all its requests receive: it does not block, and it sends the
    "consistency wait closed" error to every request of its heap, and closes
    it. *)
Lemma run_closed_signals (b : BleveDestPartition) (cwr : consistencyWaitReq) :
  forallb receives (cwrCh b ++ cwrQueue b) = true ->
  cwr ∈ cwrQueue b ->
  wblocked (run_closed b) = false /\
  exists pre post,
    wtrace (run_closed b) =
      pre ++ [EvSend (doneCh cwr) ErrWaitClosed; EvClose (doneCh cwr)] ++ post.
Proof.
  intros Hall Hin. unfold run_closed.
  rewrite forallb_app in Hall. apply andb_true_iff in Hall as [Hch Hq].
  pose proof (run_loop_queue (cwrCh b) (set_cwrCh [] b) cwr Hin) as H1.
  destruct (run_loop_receives (cwrCh b) (set_cwrCh [] b) Hch) as [Hb Hfrom].
  rewrite Hb. unfold run_closing.
  assert (forallb receives (cwrQueue (wst (run_loop (cwrCh b) (set_cwrCh [] b)))) = true)
    as Hall1.
  { apply forallb_forall. intros c Hc. apply list_elem_of_In in Hc.
    rewrite forallb_forall in Hch, Hq.
    destruct (Hfrom c Hc) as [H|H]; [apply Hch|apply Hq]; apply list_elem_of_In; exact H. }
  rewrite (run_closing_loop_all _ Hall1). simpl.
  split; [reflexivity|].
  apply list_elem_of_split in H1 as (l1 & l2 & Hsplit).
  rewrite Hsplit, flat_map_app. simpl.
  eexists (_ ++ _), _. rewrite <- app_assoc. reflexivity.
Qed.

(** On a closed destination every operation returns "already closed" and
    changes nothing. *)
Lemma step_closed t (o : Dest.op) :
  bindex t = None -> Dest.step t o = (t, Some ErrAlreadyClosed).
Proof.
  intros Hc.
  destruct o; simpl;
    unfold Dest.OnDataUpdate, Dest.OnDataDelete, Dest.OnSnapshotStart,
      Dest.SetOpaque, Dest.GetOpaque, Dest.ConsistencyWait, Dest.Close,
      Dest.closeUnlocked, Dest.dispatch, Dest.getPartition,
      Dest.getPartitionUnlocked;
    rewrite Hc; reflexivity.
Qed.

Lemma steps_closed t (os : list Dest.op) :
  bindex t = None ->
  Dest.steps t os = (t, replicate (length os) (Some ErrAlreadyClosed)).
Proof.
  intros Hc. induction os as [|o os IH]; simpl; [reflexivity|].
  rewrite (step_closed t o Hc), IH. reflexivity.
Qed.

(** After a [Close] that returns no error the index handle is nil and the
    partition map is empty; the channel of every partition that was in the
    map is closed; every later operation through the destination returns
    "already closed"; and the worker of a partition whose callers all
    receive sends the "consistency wait closed" error to every request
    pending in its heap, and closes it.  (With a caller that has gone, see
    [run_closing_loop_blocks].) *)
Lemma Close_ok_closes_everything t t'
  (closed : list BleveDestPartition) :
  Dest.Close t = (t', closed, None) ->
  bindex t' = None /\ partitions t' = ∅ /\
  (forall p bdp, partitions t !! p = Some bdp ->
     set_cwrChClosed true bdp ∈ closed /\
     (forallb receives (cwrCh bdp ++ cwrQueue bdp) = true ->
      forall cwr, cwr ∈ cwrQueue bdp ->
        wblocked (run_closed (set_cwrChClosed true bdp)) = false /\
        exists pre post,
          wtrace (run_closed (set_cwrChClosed true bdp)) =
            pre ++ [EvSend (doneCh cwr) ErrWaitClosed; EvClose (doneCh cwr)] ++ post)) /\
  (forall bdp, bdp ∈ closed -> cwrChClosed bdp = true) /\
  (forall os : list Dest.op,
     Dest.steps t' os = (t', replicate (length os) (Some ErrAlreadyClosed))).
Proof.
  unfold Dest.Close, Dest.closeUnlocked. intros H.
  destruct (bindex t) as [bi|] eqn:Hbi; [|discriminate].
  destruct (idx_Close bi); [discriminate|].
  injection H as <- <-.
  split; [reflexivity|]. split; [reflexivity|]. split; [|split].
  - intros p bdp Hp. split.
    + apply list_elem_of_In, in_map_iff. exists (p, bdp). split; [reflexivity|].
      apply list_elem_of_In, elem_of_map_to_list. assumption.
    + intros Hall cwr Hin.
      apply (run_closed_signals (set_cwrChClosed true bdp) cwr); assumption.
  - intros bdp Hin. apply list_elem_of_In, in_map_iff in Hin as ([p b] & <- & _).
    reflexivity.
  - intros os. apply steps_closed. reflexivity.
Qed.

End DestFacts.

(** ** The feed *)

Lemma Sprintf_d_nonempty (n : Z) : Sprintf_d n <> "".
Proof.
  unfold Sprintf_d. destruct (N.to_uint (Z.to_N n)); discriminate.
Qed.

(** [Sprintf_d] writes the number in decimal: reading the digits back gives
    the number. *)
Lemma Sprintf_d_decimal (n : Z) :
  0 <= n ->
  option_map N.of_uint (NilZero.uint_of_string (Sprintf_d n)) = Some (Z.to_N n).
Proof.
  intros _. unfold Sprintf_d.
  pose proof (DecimalN.Unsigned.of_to (Z.to_N n)) as H.
  destruct (N.to_uint (Z.to_N n)) eqn:E.
  1: { rewrite NilZero.usu_nil. simpl. rewrite <- H. reflexivity. }
  all: rewrite NilZero.usu by discriminate; simpl; f_equal; exact H.
Qed.

Lemma vbucketIdStrings_length : length vbucketIdStrings = 1024%nat.
Proof. unfold vbucketIdStrings. rewrite length_map, length_seq. reflexivity. Qed.

Lemma vbucketIdStrings_nth (i : nat) :
  (i < 1024)%nat -> nth i vbucketIdStrings "" = Sprintf_d (Z.of_nat i).
Proof.
  intros Hi.
  rewrite (nth_indep _ "" (Sprintf_d (Z.of_nat 0))) by (rewrite vbucketIdStrings_length; lia).
  unfold vbucketIdStrings.
  rewrite (map_nth (fun i => Sprintf_d (Z.of_nat i))), seq_nth by lia.
  reflexivity.
Qed.

(** C9.  The partition [VBucketIdToPartitionDest] passes to the partition
    function, and returns, is the decimal string of the vbucket id; the
    table holds 1024 strings, and for an id below 1024 the table's entry
    is that string, not empty, so it is the one used. *)
Theorem VBucketId_partition_decimal {Dest : Type}
  (pf : string -> list byte -> gmap string Dest -> result Dest)
  (dests : gmap string Dest) (vbucketId : Z) (key : list byte) :
  0 <= vbucketId < 65536 ->
  length vbucketIdStrings = 1024%nat /\
  (vbucketId < 1024 ->
     nth (Z.to_nat vbucketId) vbucketIdStrings "" = Sprintf_d vbucketId /\
     nth (Z.to_nat vbucketId) vbucketIdStrings "" <> "") /\
  option_map N.of_uint (NilZero.uint_of_string (Sprintf_d vbucketId))
    = Some (Z.to_N vbucketId) /\
  match VBucketIdToPartitionDest pf dests vbucketId key with
  | Ok (partition, dest) =>
    partition = Sprintf_d vbucketId /\ pf (Sprintf_d vbucketId) key dests = Ok dest
  | Err err =>
    exists err', pf (Sprintf_d vbucketId) key dests = Err err' /\
                 err = ErrPartitionFunc vbucketId err'
  end.
Proof.
  intros Hv.
  assert (vbucketId < 1024 ->
          nth (Z.to_nat vbucketId) vbucketIdStrings "" = Sprintf_d vbucketId) as Htab.
  { intros Hlt. rewrite vbucketIdStrings_nth by lia. f_equal. lia. }
  split; [apply vbucketIdStrings_length|].
  split; [|split; [apply Sprintf_d_decimal; lia|]].
  - intros Hlt. split; [auto|]. rewrite Htab by assumption. apply Sprintf_d_nonempty.
  - unfold VBucketIdToPartitionDest. rewrite vbucketIdStrings_length. cbv zeta.
    case_bool_decide as Hlt.
    + rewrite Htab by lia. rewrite decide_False by apply Sprintf_d_nonempty.
      destruct (pf (Sprintf_d vbucketId) key dests) as [dest|err'].
      * split; reflexivity.
      * exists err'. split; reflexivity.
    + rewrite decide_True by reflexivity.
      destruct (pf (Sprintf_d vbucketId) key dests) as [dest|err'].
      * split; reflexivity.
      * exists err'. split; reflexivity.
Qed.

(** ** The index in memory keeps the contract *)

Lemma mem_apply_internal_frame (key : string) (b : Batch) (i : MemIndex) :
  staged_internal key b = None ->
  mi_internal (fold_left mem_apply b i) !! key = mi_internal i !! key.
Proof.
  revert i. induction b as [|op b IH]; intros i Hs; simpl in *; [reflexivity|].
  destruct (staged_internal key b) eqn:Hb; [discriminate|].
  rewrite IH by reflexivity.
  destruct op as [id data|id|k [v|]]; simpl; try reflexivity.
  - destruct (decide (k = key)); [discriminate|]. apply lookup_insert_ne. assumption.
  - destruct (decide (k = key)); [discriminate|]. apply lookup_delete_ne. assumption.
Qed.

Lemma mem_apply_internal (key : string) (b : Batch) (i : MemIndex)
  (v : option (list byte)) :
  staged_internal key b = Some v ->
  mi_internal (fold_left mem_apply b i) !! key = v.
Proof.
  revert i. induction b as [|op b IH]; intros i Hs; simpl in *; [discriminate|].
  destruct (staged_internal key b) as [v'|] eqn:Hb.
  - injection Hs as ->. apply IH. reflexivity.
  - rewrite mem_apply_internal_frame by assumption.
    destruct op as [id data|id|k [w|]]; simpl; try discriminate.
    + destruct (decide (k = key)) as [->|]; [|discriminate].
      injection Hs as <-. apply lookup_insert_eq.
    + destruct (decide (k = key)) as [->|]; [|discriminate].
      injection Hs as <-. apply lookup_delete_eq.
Qed.

#[export] Instance MemIndex_internal : BleveIndexInternal MemIndex.
Proof.
  constructor. intros i i' b key v w Hb Hs Hg. simpl in Hb, Hg.
  destruct (mi_fail i); [discriminate|].
  injection Hb as <-. injection Hg as <-.
  rewrite (mem_apply_internal key b i v Hs). reflexivity.
Qed.

(** ** The definitions on concrete inputs *)

(** A snapshot from 1 to 5 on a new partition "0", then updates at the
    sequences 3 and 5: the batch is applied at 5, and the index holds the
    eight bytes of 5 under "0". *)
Example snapshot_then_updates :
  let o1 := OnSnapshotStart (newPartition "0") mem_empty 1 5 in
  let o2 := OnDataUpdate (st o1) (idx o1) "k1" 3 [x76; x31] in
  let o3 := OnDataUpdate (st o2) (idx o2) "k2" 5 [x76; x32] in
  trace o2 = [] /\ seqMaxBatch (st o2) = 0 /\
  res o3 = None /\ seqMaxBatch (st o3) = 5 /\ seqSnapEnd (st o3) = 5 /\
  batch (st o3) = [] /\ buf (st o3) = Some [] /\
  idx_GetInternal (idx o3) "0" = Ok (BigEndian.PutUint64 5) /\
  mi_docs (idx o3) !! "k1" = Some [x76; x31].
Proof. vm_compute. repeat split; reflexivity. Qed.

(** Applying the batch of [sample_partition]: the waiters for 3 and 5 are
    closed, in this order, and the waiter for 7 stays queued. *)
Example sample_apply :
  let o := applyBatchUnlocked sample_partition mem_empty in
  trace o = [EvBatch (batch sample_partition); EvClose 2%nat; EvClose 3%nat] /\
  map consistencySeq (cwrQueue (st o)) = [7] /\
  seqMaxBatch (st o) = 5 /\ seqSnapEnd (st o) = 10.
Proof. vm_compute. repeat split; reflexivity. Qed.

(** A buffer that reached the threshold is applied in the middle of the
    snapshot, and the end of the snapshot stays. *)
Example apply_on_size :
  let t := set_buf (Some (replicate (Z.to_nat 200000) x00)) sample_partition in
  let o := OnDataDelete t mem_empty "k1" 6 in
  existsb is_EvBatch (trace o) = true /\ seqMaxBatch (st o) = 6 /\
  seqSnapEnd (st o) = 10 /\ buf (st o) = Some [].
Proof. vm_compute. repeat split; reflexivity. Qed.

(** [OnSnapshotStart] over an index that fails. *)
Example snapshot_start_fails :
  let o := OnSnapshotStart sample_partition mem_failing 11 20 in
  res o = Some (ErrEngine "batch failed") /\ st o = sample_partition.
Proof. vm_compute. repeat split; reflexivity. Qed.

(** A request with the level "strong" whose caller receives. *)
Example unsupported_level :
  run_body sample_partition
    {| consistencyLevel := "strong"; consistencySeq := 1; cancelCh := None;
       doneCh := 9%nat |}
  = {| wst := sample_partition;
       wtrace := [EvSend 9%nat (ErrUnsupportedLevel "strong"); EvClose 9%nat];
       wblocked := false |}.
Proof. reflexivity. Qed.

(** The worker of [sample_partition] once its channel is closed, all callers
    receiving. *)
Example sample_run_closed :
  wtrace (run_closed (set_cwrChClosed true sample_partition)) =
    [EvSend 2%nat ErrWaitClosed; EvClose 2%nat;
     EvSend 1%nat ErrWaitClosed; EvClose 1%nat;
     EvSend 3%nat ErrWaitClosed; EvClose 3%nat] /\
  wblocked (run_closed (set_cwrChClosed true sample_partition)) = false.
Proof. vm_compute. split; reflexivity. Qed.

(** ** The theorems at concrete inputs *)

(** [applyBatch_ok_wakes_and_resets] on [sample_partition]: the waiters for
    3 and 5 are woken, the one for 7 stays. *)
Lemma applyBatch_ok_wakes_and_resets_witness :
  heap_ordered (cwrQueue sample_partition) /\
  idx_Batch mem_empty (batch sample_partition) = Ok sample_index /\
  let t := sample_partition in
  let o := applyBatchUnlocked t mem_empty in
  res o = None /\
  seqMaxBatch (st o) = seqMax t /\
  (exists woken : list consistencyWaitReq,
     trace o = EvBatch (batch t) :: map (fun cwr => EvClose (doneCh cwr)) woken /\
     StronglySorted seq_le woken /\
     cwrQueue t ≡ₚ woken ++ cwrQueue (st o) /\
     (forall cwr, cwr ∈ cwrQueue t ->
        consistencySeq cwr <= seqMaxBatch (st o) ->
        (cwr ∈ woken) /\ (cwr ∉ cwrQueue (st o)) /\ (EvClose (doneCh cwr) ∈ trace o)) /\
     (forall cwr, cwr ∈ woken -> consistencySeq cwr <= seqMaxBatch (st o))) /\
  heap_ordered (cwrQueue (st o)) /\
  batch (st o) = NewBatch /\
  len (buf (st o)) = 0 /\
  seqSnapEnd (st o) = seqSnapEnd t.
Proof.
  assert (heap_ordered (cwrQueue sample_partition)) as H1
    by (apply heap_orderedb_correct; vm_compute; reflexivity).
  assert (idx_Batch mem_empty (batch sample_partition) = Ok sample_index) as H2
    by reflexivity.
  split; [exact H1|]. split; [exact H2|].
  exact (applyBatch_ok_wakes_and_resets sample_partition mem_empty sample_index H1 H2).
Defined.

(** [applyBatch_error_keeps_state] on an index that fails. *)
Lemma applyBatch_error_keeps_state_witness :
  idx_Batch mem_failing (batch sample_partition) = Err (ErrEngine "batch failed") /\
  let t := sample_partition in
  let o := applyBatchUnlocked t mem_failing in
  res o = Some (ErrEngine "batch failed") /\ st o = t /\ idx o = mem_failing /\
  trace o = [EvBatch (batch t)] /\
  (forall b, EvBatch b ∈ trace (applyBatchUnlocked (st o) (idx o)) -> b = batch t).
Proof.
  assert (idx_Batch mem_failing (batch sample_partition) = Err (ErrEngine "batch failed"))
    as H1 by reflexivity.
  split; [exact H1|].
  exact (applyBatch_error_keeps_state sample_partition mem_failing _ H1).
Defined.

(** [GetOpaque_reads_and_decodes] on a new partition "0" over [sample_index],
    where the key "0" holds the eight bytes of 5. *)
Lemma GetOpaque_reads_and_decodes_witness :
  keys_ok (newPartition "0") /\ 0 <= seqMax (newPartition "0") /\
  res (GetOpaque (newPartition "0") sample_index) = Ok (None, 5) /\
  let t := newPartition "0" in
  let o := GetOpaque t sample_index in
  (EvGetInternal (partitionOpaque t) ∈ trace o <-> lastOpaque t = None) /\
  (forall v s, res o = Ok (v, s) -> v = lastOpaque (st o) /\ s = seqMax (st o)).
Proof.
  assert (keys_ok (newPartition "0")) as H1 by reflexivity.
  assert (0 <= seqMax (newPartition "0")) as H2 by (simpl; lia).
  split; [exact H1|]. split; [exact H2|]. split; [vm_compute; reflexivity|].
  pose proof (GetOpaque_reads_and_decodes (newPartition "0") sample_index H1 H2) as H.
  cbv zeta in H. split; [exact (proj1 H)|exact (proj2 (proj2 (proj2 (proj2 H))))].
Defined.


(** C3.  A request of the level "strong" whose caller passed a cancel
    channel and has returned on it ("cancelled"): the worker issues the send
    of the "consistency wait unsupported level" error and stays in it for
    ever; it never closes [doneCh], so the request is not signalled done,
    and it keeps the partition's mutex.  The same request with a caller that
    receives is sent the error and closed. *)
Theorem run_body_unsupported_level_blocks :
  let cwr := cancellable "strong" 1 8%nat 1%nat in
  let d := fst (Dest.steps (Dest.NewBleveDest "/tmp/pindex" mem_empty)
                  [Dest.DoConsistencyWait "0" "strong" 1 (Some 8%nat) 1%nat]) in
  exists bdp,
    partitions d !! "0" = Some bdp /\ cwrCh bdp = [cwr] /\
    receives (CA := callers_gone_1) cwr = false /\
    let w := run_recv (CA := callers_gone_1) bdp in
    wtrace w = [EvSend 1%nat (ErrUnsupportedLevel "strong")] /\
    closes (wtrace w) = [] /\
    wblocked w = true /\
    pblocked (CA := callers_gone_1) (newPartition "0") (PWait cwr) = true /\
    run_recv (CA := callers_waiting) bdp =
      {| wst := set_cwrCh [] bdp;
         wtrace := [EvSend 1%nat (ErrUnsupportedLevel "strong"); EvClose 1%nat];
         wblocked := false |}.
Proof.
  cbv zeta. eexists. split; [vm_compute; reflexivity|].
  vm_compute. repeat split; reflexivity.
Qed.

(** C8.  A destination with one partition and two pending requests: one for
    the sequence number 3 whose caller passed a cancel channel and has
    returned on it, and one for 7 whose caller waits.  [Close] returns no
    error, the handle is nil and the map empty; but the worker of the
    partition, draining its heap, stays for ever in the send to the first
    request: the request for 7 is still in the heap and is neither sent the
    "consistency wait closed" error nor closed. *)
Theorem Close_leaves_waiter_unsignalled :
  let d := fst (Dest.steps (Dest.NewBleveDest "/tmp/pindex" mem_empty)
                  [Dest.DoConsistencyWait "0" "at_plus" 3 (Some 8%nat) 1%nat;
                   Dest.DoConsistencyWait "0" "at_plus" 7 None 2%nat]) in
  exists bdp,
    Dest.Close d =
      ({| path := "/tmp/pindex"; bindex := None; partitions := ∅ |}, [bdp], None) /\
    cwrChClosed bdp = true /\
    let w := run_closed (CA := callers_gone_1) bdp in
    cwrQueue (wst w) = [cancellable "at_plus" 3 8%nat 1%nat; waiter 7 2%nat] /\
    wtrace w = [EvSend 1%nat ErrWaitClosed] /\
    wblocked w = true /\
    (EvSend 2%nat ErrWaitClosed ∉ wtrace w) /\
    (EvClose 2%nat ∉ wtrace w).
Proof.
  cbv zeta.
  exists (set_cwrChClosed true
            (set_cwrCh [cancellable "at_plus" 3 8%nat 1%nat; waiter 7 2%nat]
               (newPartition "0"))).
  split; [vm_compute; reflexivity|].
  split; [reflexivity|].
  assert (wtrace (run_closed (CA := callers_gone_1)
                    (set_cwrChClosed true
                       (set_cwrCh [cancellable "at_plus" 3 8%nat 1%nat; waiter 7 2%nat]
                          (newPartition "0"))))
          = [EvSend 1%nat ErrWaitClosed]) as Htr by (vm_compute; reflexivity).
  split; [vm_compute; reflexivity|]. split; [exact Htr|].
  split; [vm_compute; reflexivity|].
  rewrite Htr. split; intros Hin; apply list_elem_of_singleton in Hin; discriminate.
Qed.

(** [VBucketId_partition_decimal] at the vbucket 17. *)
Lemma VBucketId_partition_decimal_witness :
  0 <= 17 < 65536 /\
  VBucketIdToPartitionDest sample_pf ∅ 17 [] = Ok ("17", 0%nat) /\
  length vbucketIdStrings = 1024%nat /\
  (17 < 1024 ->
     nth (Z.to_nat 17) vbucketIdStrings "" = Sprintf_d 17 /\
     nth (Z.to_nat 17) vbucketIdStrings "" <> "") /\
  option_map N.of_uint (NilZero.uint_of_string (Sprintf_d 17)) = Some (Z.to_N 17) /\
  match VBucketIdToPartitionDest sample_pf ∅ 17 [] with
  | Ok (partition, dest) =>
    partition = Sprintf_d 17 /\ sample_pf (Sprintf_d 17) [] ∅ = Ok dest
  | Err err =>
    exists err', sample_pf (Sprintf_d 17) [] ∅ = Err err' /\
                 err = ErrPartitionFunc 17 err'
  end.
Proof.
  assert (0 <= 17 < 65536) as H1 by lia.
  split; [exact H1|]. split; [vm_compute; reflexivity|].
  exact (VBucketId_partition_decimal sample_pf ∅ 17 [] H1).
Defined.

(** * More of the code *)

(** ** The partition: what every operation keeps *)

Section PartitionInvariants.

Context {Index : Type} {BI : BleveIndex Index} {CA : Callers}.

Implicit Types (t : BleveDestPartition) (bindex : Index).

Lemma batch_values_snoc (b : Batch) (op : batch_op) :
  batch_values (b ++ [op]) =
    batch_values b ++ match op with OpIndex _ data => data | _ => [] end.
Proof.
  induction b as [|a b IH]; simpl.
  - destruct op; simpl; rewrite ?app_nil_r; reflexivity.
  - destruct a; rewrite IH; rewrite ?app_assoc; reflexivity.
Qed.

(** The state [updateSeqUnlocked] hands to [applyBatchUnlocked], or returns. *)
Lemma updateSeq_split t bindex (seq : Z) :
  exists t1,
    ((updateSeqUnlocked t bindex seq = {| st := t1; idx := bindex; trace := []; res := None |} /\
      len (buf t) < BLEVE_DEST_APPLY_BUF_SIZE_BYTES /\ seq < seqSnapEnd t) \/
     (updateSeqUnlocked t bindex seq = applyBatchUnlocked t1 bindex /\
      ~ (len (buf t) < BLEVE_DEST_APPLY_BUF_SIZE_BYTES /\ seq < seqSnapEnd t))) /\
    partition t1 = partition t /\ partitionOpaque t1 = partitionOpaque t /\
    seqMaxBatch t1 = seqMaxBatch t /\ seqSnapEnd t1 = seqSnapEnd t /\
    buf t1 = buf t /\ lastOpaque t1 = lastOpaque t /\ cwrQueue t1 = cwrQueue t /\
    ((seqMax t < seq /\ seqMax t1 = seq /\
      batch t1 = batch t ++ [OpSetInternal (partition t) (Some (BigEndian.PutUint64 seq))]) \/
     (seq <= seqMax t /\ seqMax t1 = seqMax t /\ batch t1 = batch t)).
Proof.
  unfold updateSeqUnlocked.
  set (t1 := if bool_decide (seqMax t < seq) then _ else t).
  exists t1.
  assert (buf t1 = buf t /\ seqSnapEnd t1 = seqSnapEnd t) as [Ebuf Esnap]
    by (unfold t1; case_bool_decide; split; reflexivity).
  split.
  { rewrite Ebuf, Esnap.
    destruct (bool_decide (len (buf t) < BLEVE_DEST_APPLY_BUF_SIZE_BYTES)) eqn:E1;
      destruct (bool_decide (seq < seqSnapEnd t)) eqn:E2; simpl.
    1: { left. apply bool_decide_eq_true in E1, E2. auto. }
    all: right; split; [reflexivity|]; intros [? ?];
      first [apply bool_decide_eq_false in E1 | apply bool_decide_eq_false in E2];
      contradiction. }
  unfold t1. case_bool_decide; simpl; repeat split; try reflexivity.
  - left. auto.
  - right. repeat split; try reflexivity. lia.
Qed.

Lemma applyBatch_partition_ok t bindex :
  partition_ok t -> partition_ok (st (applyBatchUnlocked t bindex)).
Proof.
  intros (Hk & Hn & Hi & Hq & Hw & Hb & Hs).
  destruct (idx_Batch bindex (batch t)) as [bindex'|err] eqn:HB.
  - destruct (applyBatch_success t bindex bindex' HB)
      as (_ & _ & _ & Equeue & Esmb & Esm & _ & _ & Ebatch & Ebuf & _ & Ep & Epo & _).
    destruct (wake (cwrQueue t) (seqMax t)) as [q' woken] eqn:Hwake. simpl in Equeue.
    destruct (wake_spec _ _ _ _ Hq Hwake) as (Ho & Hperm & _ & Hgt & _).
    unfold partition_ok, keys_ok, seq_inv, waiters_ok, buf_ok, seqkey_ok.
    rewrite Ep, Epo, Esmb, Esm, Equeue, Ebatch, Ebuf.
    split; [exact Hk|]. split; [exact Hn|]. split; [lia|]. split; [exact Ho|].
    split; [|split].
    + apply Forall_forall. intros c Hc. split.
      * unfold waiters_ok in Hw. rewrite Forall_forall in Hw.
        apply (Hw c). rewrite Hperm. apply elem_of_app. right. exact Hc.
      * rewrite Forall_forall in Hgt. apply Hgt. exact Hc.
    + destruct (buf t); reflexivity.
    + intros v Hv. discriminate.
  - rewrite (applyBatch_failure t bindex err HB). simpl.
    exact (conj Hk (conj Hn (conj Hi (conj Hq (conj Hw (conj Hb Hs)))))).
Qed.

Lemma updateSeq_partition_ok t bindex (seq : Z) :
  partition_ok t -> partition_ok (st (updateSeqUnlocked t bindex seq)).
Proof.
  intros (Hk & Hn & Hi & Hq & Hw & Hb & Hs).
  destruct (updateSeq_split t bindex seq)
    as (t1 & Hr & Ep & Epo & Esmb & Esnap & Ebuf & Elo & Eq & Hseq).
  assert (partition_ok t1) as H1.
  { unfold partition_ok, keys_ok, seq_inv, waiters_ok, buf_ok, seqkey_ok in *.
    rewrite Ep, Epo, Esmb, Eq, Ebuf.
    destruct Hseq as [(Hlt & -> & ->)|(Hle & -> & ->)].
    - split; [exact Hk|]. split; [lia|]. split; [lia|]. split; [exact Hq|].
      split; [exact Hw|]. split.
      + rewrite batch_values_snoc, app_nil_r. exact Hb.
      + intros v. rewrite staged_internal_snoc, decide_True by reflexivity.
        intros [= <-]. split; [reflexivity|lia].
    - exact (conj Hk (conj Hn (conj Hi (conj Hq (conj Hw (conj Hb Hs)))))). }
  destruct Hr as [[-> _] | [-> _]]; [exact H1|].
  apply applyBatch_partition_ok. exact H1.
Qed.

Lemma GetOpaque_fields t bindex :
  let t' := st (GetOpaque t bindex) in
  partition t' = partition t /\ partitionOpaque t' = partitionOpaque t /\
  seqMaxBatch t' = seqMaxBatch t /\ seqSnapEnd t' = seqSnapEnd t /\
  buf t' = buf t /\ batch t' = batch t /\ cwrQueue t' = cwrQueue t /\
  idx (GetOpaque t bindex) = bindex /\
  (seqMax t' = seqMax t \/ (seqMax t <= 0 /\ 0 <= seqMax t')).
Proof.
  unfold GetOpaque, GetOpaque_seqMax.
  repeat first [case_match | case_bool_decide]; simpl in *; repeat split; auto.
  all: right; split; [first [assumption|congruence|lia]|apply Uint64_nonneg].
Qed.

Lemma appendToBuf_fields t (b : list byte) :
  let t' := fst (appendToBufUnlocked t b) in
  snd (appendToBufUnlocked t b) = b /\
  default [] (buf t') = default [] (buf t) ++ b /\
  (b = [] -> t' = t) /\
  partition t' = partition t /\ partitionOpaque t' = partitionOpaque t /\
  seqMax t' = seqMax t /\ seqMaxBatch t' = seqMaxBatch t /\
  seqSnapEnd t' = seqSnapEnd t /\ batch t' = batch t /\
  lastOpaque t' = lastOpaque t /\ cwrQueue t' = cwrQueue t.
Proof.
  unfold appendToBufUnlocked. case_bool_decide as Hlen; simpl.
  - assert (b = []) as -> by (destruct b; [reflexivity|simpl in Hlen; lia]).
    rewrite app_nil_r. repeat split; reflexivity.
  - assert (b <> []) as Hne by (intros ->; simpl in Hlen; lia).
    destruct (buf t) eqn:Ebuf; simpl; rewrite ?Ebuf; simpl;
      (split; [reflexivity|]); (split; [reflexivity|]);
      (split; [intros E; contradiction|]); repeat split; reflexivity.
Qed.

Lemma run_body_partition_ok t (cwr : consistencyWaitReq) :
  partition_ok t -> partition_ok (wst (run_body t cwr)).
Proof.
  intros H. pose proof H as (Hk & Hn & Hi & Hq & Hw & Hb & Hs).
  unfold run_body.
  destruct (decide _); [exact H|].
  destruct (decide _) as [Hlevel|]; [|destruct (receives cwr); exact H].
  case_bool_decide as Hgt; [|exact H].
  unfold partition_ok, keys_ok, seq_inv, waiters_ok, buf_ok, seqkey_ok in *. simpl.
  split; [exact Hk|]. split; [exact Hn|]. split; [exact Hi|].
  split; [apply Push_ordered; exact Hq|].
  split; [|exact (conj Hb Hs)].
  rewrite Push_perm. constructor; [|exact Hw].
  split; [assumption|lia].
Qed.

Lemma pexec_partition_ok t bindex (o : pop) :
  partition_ok t -> partition_ok (st (pexec t bindex o)).
Proof.
  intros H. pose proof H as (Hk & Hn & Hi & Hq & Hw & Hb & Hs).
  destruct o as [key seq val|key seq|s e|v| | |cwr]; simpl.
  - unfold OnDataUpdate.
    pose proof (appendToBuf_fields t val) as Ha. cbv zeta in Ha.
    destruct (appendToBufUnlocked t val) as [t1 bufVal]. simpl in Ha.
    destruct Ha as (-> & Ebuf & _ & Ep & Epo & Esm & Esmb & _ & Eb & _ & Eq).
    apply updateSeq_partition_ok.
    unfold partition_ok, keys_ok, seq_inv, waiters_ok, buf_ok, seqkey_ok in *. simpl.
    rewrite Ep, Epo, Esm, Esmb, Eq, Ebuf, Eb. unfold Batch_Index.
    rewrite batch_values_snoc, staged_internal_snoc, Hb.
    exact (conj Hk (conj Hn (conj Hi (conj Hq (conj Hw (conj eq_refl Hs)))))).
  - unfold OnDataDelete. apply updateSeq_partition_ok.
    unfold partition_ok, keys_ok, seq_inv, waiters_ok, buf_ok, seqkey_ok in *. simpl.
    unfold Batch_Delete. rewrite batch_values_snoc, staged_internal_snoc, app_nil_r.
    exact (conj Hk (conj Hn (conj Hi (conj Hq (conj Hw (conj Hb Hs)))))).
  - unfold OnSnapshotStart.
    pose proof (applyBatch_partition_ok t bindex H) as H'.
    destruct (res (applyBatchUnlocked t bindex)); [exact H'|exact H'].
  - unfold partition_ok, keys_ok, seq_inv, waiters_ok, buf_ok, seqkey_ok in *. simpl.
    unfold Batch_SetInternal. rewrite batch_values_snoc, staged_internal_snoc, app_nil_r.
    rewrite decide_False by (apply keys_ok_distinct; exact Hk).
    exact (conj Hk (conj Hn (conj Hi (conj Hq (conj Hw (conj Hb Hs)))))).
  - pose proof (GetOpaque_fields t bindex) as Hg. cbv zeta in Hg.
    destruct Hg as (Ep & Epo & Esmb & _ & Ebuf & Eb & Eq & _ & Hsm).
    unfold partition_ok, keys_ok, seq_inv, waiters_ok, buf_ok, seqkey_ok in *.
    rewrite Ep, Epo, Esmb, Ebuf, Eb, Eq.
    destruct Hsm as [->|[Hle Hge]].
    + exact (conj Hk (conj Hn (conj Hi (conj Hq (conj Hw (conj Hb Hs)))))).
    + split; [exact Hk|]. split; [exact Hge|]. split; [lia|]. split; [exact Hq|].
      split; [exact Hw|]. split; [exact Hb|].
      intros v Hv. destruct (Hs v Hv) as [_ Hpos]. lia.
  - apply applyBatch_partition_ok. exact H.
  - pose proof (run_body_partition_ok t cwr H) as H'.
    destruct (run_body t cwr) as [t' tr bl]. exact H'.
Qed.

Lemma newPartition_ok (p : string) : partition_ok (newPartition p).
Proof.
  split; [reflexivity|]. split; [simpl; lia|]. split; [unfold seq_inv; simpl; lia|].
  split; [apply heap_ordered_nil|]. split; [constructor|].
  split; [reflexivity|]. intros v Hv. discriminate.
Qed.

Lemma psteps_partition_ok t bindex (os : list pop) :
  partition_ok t -> Forall (fun r => partition_ok (st r)) (psteps t bindex os).
Proof.
  revert t bindex. induction os as [|o os IH]; intros t bindex H; simpl; [constructor|].
  pose proof (pexec_partition_ok t bindex o H) as H'.
  constructor; [exact H'|]. apply IH. exact H'.
Qed.

Lemma pfinal_partition_ok t bindex (os : list pop) :
  partition_ok t -> partition_ok (fst (pfinal t bindex os)).
Proof.
  revert t bindex. induction os as [|o os IH]; intros t bindex H; simpl; [exact H|].
  apply IH. apply pexec_partition_ok. exact H.
Qed.

Lemma updateSeq_shape t bindex (seq : Z) :
  partition_ok t ->
  let r := updateSeqUnlocked t bindex seq in
  (trace r = [] /\ cwrQueue (st r) = cwrQueue t /\ seqMaxBatch (st r) = seqMaxBatch t /\
   seq < seqSnapEnd t) \/
  (exists t1,
     partition_ok t1 /\ partition t1 = partition t /\
     cwrQueue t1 = cwrQueue t /\ seqMaxBatch t1 = seqMaxBatch t /\
     seqSnapEnd t1 = seqSnapEnd t /\ r = applyBatchUnlocked t1 bindex).
Proof.
  intros H. cbv zeta. pose proof H as (Hk & Hn & Hi & Hq & Hw & Hb & Hs).
  destruct (updateSeq_split t bindex seq)
    as (t1 & Hr & Ep & Epo & Esmb & Esnap & Ebuf & Elo & Eq & Hseq).
  assert (partition_ok t1) as H1.
  { unfold partition_ok, keys_ok, seq_inv, waiters_ok, buf_ok, seqkey_ok in *.
    rewrite Ep, Epo, Esmb, Eq, Ebuf.
    destruct Hseq as [(Hlt & -> & ->)|(Hle & -> & ->)].
    - split; [exact Hk|]. split; [lia|]. split; [lia|]. split; [exact Hq|].
      split; [exact Hw|]. split.
      + rewrite batch_values_snoc, app_nil_r. exact Hb.
      + intros v. rewrite staged_internal_snoc, decide_True by reflexivity.
        intros [= <-]. split; [reflexivity|lia].
    - exact (conj Hk (conj Hn (conj Hi (conj Hq (conj Hw (conj Hb Hs)))))). }
  destruct Hr as [(-> & _ & Hlt) | (-> & _)].
  - left. simpl. auto.
  - right. exists t1. auto 10.
Qed.

Lemma pexec_shape t bindex (o : pop) :
  partition_ok t -> op_shape t bindex o (pexec t bindex o).
Proof.
  intros H. unfold op_shape.
  destruct o as [key seq val|key seq|s e|v| | |cwr]; simpl.
  - unfold OnDataUpdate.
    pose proof (appendToBuf_fields t val) as Ha. cbv zeta in Ha.
    pose proof (pexec_partition_ok t bindex (POnUpdate key seq val) H) as _.
    destruct (appendToBufUnlocked t val) as [t1 bufVal]. simpl in Ha.
    destruct Ha as (-> & Ebuf & _ & Ep & Epo & Esm & Esmb & Esnap & Eb & _ & Eq).
    set (t2 := set_batch (Batch_Index (batch t1) key val) t1).
    assert (partition_ok t2) as H2.
    { destruct H as (Hk & Hn & Hi & Hq & Hw & Hb & Hs).
      unfold partition_ok, keys_ok, seq_inv, waiters_ok, buf_ok, seqkey_ok, t2 in *. simpl.
      rewrite Ep, Epo, Esm, Esmb, Eq, Ebuf, Eb. unfold Batch_Index.
      rewrite batch_values_snoc, staged_internal_snoc, Hb.
      exact (conj Hk (conj Hn (conj Hi (conj Hq (conj Hw (conj eq_refl Hs)))))). }
    destruct (updateSeq_shape t2 bindex seq H2)
      as [(Htr & Hq' & Hsmb' & _)|(t3 & H3 & Ep3 & Eq3 & Esmb3 & Esnap3 & ->)].
    + right. left. rewrite Htr, Hq', Hsmb'. simpl. rewrite Eq, Esmb.
      repeat split; try reflexivity; discriminate.
    + right. right. exists t3. simpl in *.
      rewrite Ep3, Eq3, Esmb3, Esnap3, Ep, Eq, Esmb, Esnap. auto 12.
  - unfold OnDataDelete.
    set (t2 := set_batch (Batch_Delete (batch t) key) t).
    assert (partition_ok t2) as H2.
    { destruct H as (Hk & Hn & Hi & Hq & Hw & Hb & Hs).
      unfold partition_ok, keys_ok, seq_inv, waiters_ok, buf_ok, seqkey_ok, t2 in *. simpl.
      unfold Batch_Delete.
      rewrite batch_values_snoc, staged_internal_snoc, app_nil_r.
      exact (conj Hk (conj Hn (conj Hi (conj Hq (conj Hw (conj Hb Hs)))))). }
    destruct (updateSeq_shape t2 bindex seq H2)
      as [(Htr & Hq' & Hsmb' & _)|(t3 & H3 & Ep3 & Eq3 & Esmb3 & Esnap3 & ->)].
    + right. left. rewrite Htr, Hq', Hsmb'. simpl.
      repeat split; try reflexivity; discriminate.
    + right. right. exists t3. simpl in *. auto 12.
  - right. right. exists t. unfold OnSnapshotStart.
    split; [exact H|]. repeat (split; [reflexivity|]).
    destruct (res (applyBatchUnlocked t bindex)) eqn:Hr; simpl.
    + auto.
    + split; [reflexivity|]. split; [reflexivity|]. split; [reflexivity|].
      right. exists s, e. auto.
  - right. left. simpl. repeat split; try reflexivity; discriminate.
  - right. left.
    pose proof (GetOpaque_fields t bindex) as Hg. cbv zeta in Hg.
    destruct Hg as (_ & _ & Esmb & _ & _ & _ & Eq & _ & _).
    split; [|repeat split; try assumption; discriminate].
    unfold GetOpaque, GetOpaque_seqMax.
    repeat first [case_match | case_bool_decide]; reflexivity.
  - right. right. exists t. split; [exact H|]. auto 12.
  - left. exists cwr. destruct (run_body t cwr). auto.
Qed.

Lemma forallb_get_no_other (tr : list event) (e : event) :
  forallb is_EvGetInternal tr = true -> e ∈ tr -> is_EvGetInternal e = true.
Proof.
  intros H Hin. rewrite forallb_forall in H. apply H, list_elem_of_In. exact Hin.
Qed.

(** What a successful or failed apply on [t1] puts in the trace. *)
Lemma applyBatch_trace t1 bindex :
  heap_ordered (cwrQueue t1) ->
  let a := applyBatchUnlocked t1 bindex in
  exists woken,
    trace a = EvBatch (batch t1) :: map (fun cwr => EvClose (doneCh cwr)) woken /\
    (forall cwr, cwr ∈ woken ->
       cwr ∈ cwrQueue t1 /\ consistencySeq cwr <= seqMaxBatch (st a)) /\
    (res a = None -> seqMaxBatch (st a) = seqMax t1) /\
    seqMax (st a) = seqMax t1 /\ partition (st a) = partition t1.
Proof.
  intros Hq. cbv zeta.
  destruct (idx_Batch bindex (batch t1)) as [bindex'|err] eqn:HB.
  - destruct (applyBatch_success t1 bindex bindex' HB)
      as (_ & _ & Htr & _ & Esmb & Esm & _ & _ & _ & _ & _ & Ep & _).
    destruct (wake (cwrQueue t1) (seqMax t1)) as [q' woken] eqn:Hwake. simpl in Htr.
    destruct (wake_spec _ _ _ _ Hq Hwake) as (_ & Hperm & Hle & _ & _).
    exists woken. split; [exact Htr|]. rewrite Esmb, Esm, Ep.
    split; [|auto].
    intros cwr Hin. split.
    + rewrite Hperm. apply elem_of_app. left. exact Hin.
    + rewrite Forall_forall in Hle. apply Hle. exact Hin.
  - rewrite (applyBatch_failure t1 bindex err HB). simpl.
    exists []. split; [reflexivity|]. split; [|split; [discriminate|auto]].
    intros cwr Hin. apply elem_of_nil in Hin. contradiction.
Qed.

(** X3.  In every state a partition reaches, each request in the queue has
    the level "at_plus" and a target above [seqMaxBatch]: no request stays
    queued once its target was applied. *)
Theorem queued_waiters_await_unapplied (p : string) bindex (os : list pop) :
  Forall (fun r =>
            Forall (fun cwr => consistencyLevel cwr = "at_plus" /\
                               seqMaxBatch (st r) < consistencySeq cwr)
                   (cwrQueue (st r)))
         (psteps (newPartition p) bindex os).
Proof.
  eapply Forall_impl; [apply psteps_partition_ok, newPartition_ok|].
  intros r (_ & _ & _ & _ & Hw & _). exact Hw.
Qed.

(** X4.  Whatever operation runs on a reachable partition: a [doneCh] it
    closes is that of the request the worker is handling or of a request
    that was queued, and if that request is an "at_plus" one its target is
    at most the [seqMaxBatch] the operation leaves; an error is sent only by
    the worker, to a request of an unsupported level. *)
Theorem waiter_closed_once_applied (p : string) bindex (os : list pop) (o : pop) :
  let s := pfinal (newPartition p) bindex os in
  let r := pexec (fst s) (snd s) o in
  (forall c, EvClose c ∈ trace r ->
     exists cwr, doneCh cwr = c /\
                 (o = PWait cwr \/ cwr ∈ cwrQueue (fst s)) /\
                 (consistencyLevel cwr = "at_plus" ->
                  consistencySeq cwr <= seqMaxBatch (st r))) /\
  (forall c err, EvSend c err ∈ trace r ->
     exists cwr, o = PWait cwr /\ doneCh cwr = c /\
                 err = ErrUnsupportedLevel (consistencyLevel cwr) /\
                 consistencyLevel cwr <> "" /\ consistencyLevel cwr <> "at_plus").
Proof.
  cbv zeta.
  pose proof (pfinal_partition_ok (newPartition p) bindex os (newPartition_ok p)) as H.
  destruct (pfinal (newPartition p) bindex os) as [t i]. simpl in *.
  destruct (pexec_shape t i o H)
    as [(cwr & -> & Htr & Hst)|[(Hget & _)|(t1 & H1 & _ & Eq & _ & _ & Htr & _ & _ & Hst)]].
  - rewrite Htr, Hst. unfold run_body.
    destruct (decide (consistencyLevel cwr = "")) as [E0|N0]; simpl.
    + split.
      * intros c Hc. apply list_elem_of_singleton in Hc. injection Hc as ->.
        exists cwr. split; [reflexivity|]. split; [auto|]. rewrite E0. discriminate.
      * intros c err Hc. apply list_elem_of_singleton in Hc. discriminate.
    + destruct (decide (consistencyLevel cwr = "at_plus")) as [E1|N1]; simpl.
      * case_bool_decide as Hgt; simpl.
        -- split; [intros c Hc|intros c err Hc]; apply elem_of_nil in Hc; contradiction.
        -- split.
           ++ intros c Hc. apply list_elem_of_singleton in Hc. injection Hc as ->.
              exists cwr. split; [reflexivity|]. split; [auto|]. intros _. lia.
           ++ intros c err Hc. apply list_elem_of_singleton in Hc. discriminate.
      * destruct (receives cwr); simpl; split.
        -- intros c Hc. exists cwr.
           apply elem_of_cons in Hc as [Hc|Hc]; [discriminate|].
           apply list_elem_of_singleton in Hc. injection Hc as ->.
           split; [reflexivity|]. split; [auto|]. intros E. contradiction.
        -- intros c err Hc. exists cwr.
           apply elem_of_cons in Hc as [Hc|Hc];
             [|apply list_elem_of_singleton in Hc; discriminate].
           injection Hc as -> ->. auto.
        -- intros c Hc. apply list_elem_of_singleton in Hc. discriminate.
        -- intros c err Hc. exists cwr.
           apply list_elem_of_singleton in Hc. injection Hc as -> ->. auto.
  - split; [intros c Hc|intros c err Hc];
      pose proof (forallb_get_no_other _ _ Hget Hc) as Hb; discriminate.
  - assert (seqMaxBatch (st (pexec t i o)) = seqMaxBatch (st (applyBatchUnlocked t1 i)))
      as Esmb.
    { destruct Hst as [->|(s & e & _ & _ & ->)]; reflexivity. }
    rewrite Htr, Esmb.
    destruct H1 as (_ & _ & _ & Hq1 & _).
    destruct (applyBatch_trace t1 i Hq1) as (woken & Htr1 & Hwoken & _).
    rewrite Htr1. split.
    + intros c Hc. apply elem_of_cons in Hc as [Hc|Hc]; [discriminate|].
      apply list_elem_of_fmap in Hc as (cwr & Hc & Hin). injection Hc as ->.
      destruct (Hwoken cwr Hin) as [Hin1 Hle].
      exists cwr. split; [reflexivity|]. split; [right; rewrite <- Eq; exact Hin1|].
      intros _. exact Hle.
    + intros c err Hc. apply elem_of_cons in Hc as [Hc|Hc]; [discriminate|].
      apply list_elem_of_fmap in Hc as (cwr & Hc & _). discriminate.
Qed.

(** X5.  Whatever operation runs on a reachable partition [p]: if a batch it
    passes to the index writes the key [<p>], the value written is the eight
    big-endian bytes of the [seqMax] the operation leaves, which is above 0,
    and is the new [seqMaxBatch] when the operation returns no error. *)
Theorem batch_writes_current_seqMax (p : string) bindex (os : list pop) (o : pop)
  (b : Batch) (v : option (list byte)) :
  let s := pfinal (newPartition p) bindex os in
  let r := pexec (fst s) (snd s) o in
  EvBatch b ∈ trace r ->
  staged_internal p b = Some v ->
  v = Some (BigEndian.PutUint64 (seqMax (st r))) /\ 0 < seqMax (st r) /\
  (res r = None -> seqMaxBatch (st r) = seqMax (st r)).
Proof.
  cbv zeta.
  pose proof (pfinal_partition_ok (newPartition p) bindex os (newPartition_ok p)) as H.
  assert (partition (fst (pfinal (newPartition p) bindex os)) = p) as Hp.
  { clear H. generalize (eq_refl : partition (newPartition p) = p).
    generalize (newPartition p). revert bindex.
    induction os as [|o' os IH]; intros bindex t Ht; simpl; [exact Ht|].
    apply IH. destruct (pexec_names t bindex o') as [-> _]. exact Ht. }
  destruct (pfinal (newPartition p) bindex os) as [t i]. simpl in *.
  intros Hin Hv.
  destruct (pexec_shape t i o H)
    as [(cwr & -> & Htr & Hst)|[(Hget & _)|(t1 & H1 & Ep1 & _ & _ & _ & Htr & Hres & _ & Hst)]].
  - exfalso. rewrite Htr in Hin. unfold run_body in Hin.
    repeat first [case_match | case_bool_decide]; simpl in Hin;
      repeat (apply elem_of_cons in Hin as [Hin|Hin]; [discriminate|]);
      apply elem_of_nil in Hin; contradiction.
  - pose proof (forallb_get_no_other _ _ Hget Hin) as Hb. discriminate.
  - assert (seqMax (st (pexec t i o)) = seqMax (st (applyBatchUnlocked t1 i)) /\
            seqMaxBatch (st (pexec t i o)) = seqMaxBatch (st (applyBatchUnlocked t1 i)))
      as [Esm Esmb].
    { destruct Hst as [->|(s & e & _ & _ & ->)]; split; reflexivity. }
    rewrite Esm, Esmb, Hres.
    pose proof H1 as (_ & _ & _ & Hq1 & _ & _ & Hs1).
    destruct (applyBatch_trace t1 i Hq1) as (woken & Htr1 & _ & Hok & Esm1 & _).
    rewrite Htr, Htr1 in Hin.
    apply elem_of_cons in Hin as [Hin|Hin].
    + injection Hin as ->. rewrite <- Hp, <- Ep1 in Hv.
      destruct (Hs1 v Hv) as [-> Hpos]. rewrite Esm1.
      split; [reflexivity|]. split; [exact Hpos|exact Hok].
    + apply list_elem_of_fmap in Hin as (cwr & Hc & _). discriminate.
Qed.

(** X7.  In every state a partition reaches, the value buffer is the
    concatenation of the values the pending batch indexes, in order; so the
    length [updateSeqUnlocked] compares with the threshold is the number of
    value bytes the batch holds. *)
Theorem buf_is_staged_values (p : string) bindex (os : list pop) :
  Forall (fun r =>
            default [] (buf (st r)) = batch_values (batch (st r)) /\
            len (buf (st r)) = Z.of_nat (length (batch_values (batch (st r)))))
         (psteps (newPartition p) bindex os).
Proof.
  eapply Forall_impl; [apply psteps_partition_ok, newPartition_ok|].
  intros r (_ & _ & _ & _ & _ & Hb & _). unfold buf_ok in Hb.
  split; [exact Hb|]. unfold len. rewrite Hb. reflexivity.
Qed.

End PartitionInvariants.

(** ** The queue of waiters as a priority queue *)

(** X1.  [heap.Push] over a [cwrQueue] that is a heap by [Less] (the order
    of [consistencySeq]) leaves a heap that holds the new request and the old
    ones, one entry longer, whose first entry has a least target. *)
Theorem heap_Push_keeps_heap (h : CwrQueue) (x : consistencyWaitReq) :
  heap_ordered h ->
  heap_ordered (heap.Push h x) /\
  heap.Push h x ≡ₚ x :: h /\
  cwrQ.Len (heap.Push h x) = S (cwrQ.Len h) /\
  exists top, heap.Push h x !! 0%nat = Some top /\
              Forall (fun c => consistencySeq top <= consistencySeq c) (x :: h).
Proof.
  intros Hh.
  pose proof (Push_ordered h x Hh) as Ho.
  pose proof (Push_perm h x) as Hp.
  pose proof (Push_length h x) as Hl.
  split; [exact Ho|]. split; [exact Hp|]. split; [exact Hl|].
  destruct (heap.Push h x !! 0%nat) as [top|] eqn:Htop.
  - exists top. split; [reflexivity|].
    apply Forall_forall. intros c Hc.
    apply (heap_root_least _ _ _ Ho Htop). rewrite Hp. exact Hc.
  - apply lookup_ge_None in Htop. lia.
Qed.

(** X2.  [heap.Pop] over a [cwrQueue] that is a heap: on an empty queue
    there is no entry to return (Go panics); otherwise it returns the first
    entry, whose target is a least one, and leaves a heap of the other
    entries. *)
Theorem heap_Pop_returns_least (h : CwrQueue) :
  heap_ordered h ->
  (h = [] /\ heap.Pop h = None) \/
  (exists top h',
     heap.Pop h = Some (top, h') /\ h !! 0%nat = Some top /\
     heap_ordered h' /\ h ≡ₚ top :: h' /\
     Forall (fun c => consistencySeq top <= consistencySeq c) h).
Proof.
  intros Hh. destruct h as [|top h0] eqn:Eh.
  - left. split; reflexivity.
  - right. rewrite <- Eh in *.
    assert (h !! 0%nat = Some top) as Htop by (rewrite Eh; reflexivity).
    destruct (Pop_spec h top Hh Htop) as (h' & HPop & Hh' & Hperm & _).
    exists top, h'. repeat (split; [assumption|]).
    apply Forall_forall. intros c Hc. exact (heap_root_least _ _ _ Hh Htop Hc).
Qed.

(** ** Mutations outside a snapshot *)

Section OutsideSnapshot.

Context {Index : Type} {BI : BleveIndex Index} {CA : Callers}.

Lemma pexec_seqSnapEnd t bindex (o : pop) :
  outside_snapshot o = true ->
  seqSnapEnd (st (pexec t bindex o)) = seqSnapEnd t.
Proof.
  intros Ho. destruct o as [key seq val|key seq|s e|v| | |cwr]; simpl in *;
    try discriminate.
  - unfold OnDataUpdate.
    pose proof (appendToBuf_fields t val) as (_ & _ & _ & _ & _ & _ & _ & Ese & _).
    destruct (appendToBufUnlocked t val) as [t1 bufVal]. simpl in Ese.
    destruct (updateSeq_split (set_batch (Batch_Index (batch t1) key bufVal) t1) bindex seq)
      as (t2 & [[-> _]|[-> _]] & _ & _ & _ & E2 & _); simpl in *.
    + congruence.
    + destruct (idx_Batch bindex (batch t2)) as [i'|err] eqn:HB.
      * destruct (applyBatch_success t2 bindex i' HB) as (_ & _ & _ & _ & _ & _ & _ & E & _).
        congruence.
      * rewrite (applyBatch_failure t2 bindex err HB). simpl. congruence.
  - unfold OnDataDelete.
    destruct (updateSeq_split (set_batch (Batch_Delete (batch t) key) t) bindex seq)
      as (t2 & [[-> _]|[-> _]] & _ & _ & _ & E2 & _); simpl in *.
    + congruence.
    + destruct (idx_Batch bindex (batch t2)) as [i'|err] eqn:HB.
      * destruct (applyBatch_success t2 bindex i' HB) as (_ & _ & _ & _ & _ & _ & _ & E & _).
        congruence.
      * rewrite (applyBatch_failure t2 bindex err HB). simpl. congruence.
  - reflexivity.
  - pose proof (GetOpaque_fields t bindex) as (_ & _ & _ & E & _). exact E.
  - destruct (idx_Batch bindex (batch t)) as [i'|err] eqn:HB.
    + destruct (applyBatch_success t bindex i' HB) as (_ & _ & _ & _ & _ & _ & _ & E & _).
      exact E.
    + rewrite (applyBatch_failure t bindex err HB). reflexivity.
  - unfold run_body. repeat first [case_match | case_bool_decide]; reflexivity.
Qed.

(** [updateSeqUnlocked] at a sequence number that is not below [seqSnapEnd]
    passes the batch to the index. *)
Lemma updateSeq_applies t bindex (seq : Z) (m : batch_op) :
  seqSnapEnd t <= seq ->
  m ∈ batch t ->
  let r := updateSeqUnlocked t bindex seq in
  exists b, EvBatch b ∈ trace r /\ m ∈ b /\
            (res r = None -> batch (st r) = NewBatch /\ seqMaxBatch (st r) = seqMax (st r)).
Proof.
  intros Hse Hm. cbv zeta.
  destruct (updateSeq_split t bindex seq)
    as (t1 & [[_ [_ Hlt]]|[-> _]] & _ & _ & _ & _ & _ & _ & _ & Hb); [lia|].
  exists (batch t1).
  assert (m ∈ batch t1) as Hm1.
  { destruct Hb as [(_ & _ & ->)|(_ & _ & ->)]; [|exact Hm].
    apply elem_of_app. left. exact Hm. }
  destruct (idx_Batch bindex (batch t1)) as [i'|err] eqn:HB.
  - destruct (applyBatch_success t1 bindex i' HB)
      as (_ & _ & Htr & _ & Esmb & Esm & _ & _ & Ebatch & _).
    rewrite Htr. split; [apply list_elem_of_here|]. split; [exact Hm1|].
    intros _. split; [exact Ebatch|congruence].
  - rewrite (applyBatch_failure t1 bindex err HB). simpl.
    split; [apply list_elem_of_here|]. split; [exact Hm1|]. discriminate.
Qed.

(** X6.  In a run on a fresh partition with no [OnSnapshotStart],
    [seqSnapEnd] stays 0 and nothing is held back: each [OnDataUpdate] and
    [OnDataDelete] passes a batch that holds its mutation to the index in the
    same call, and when the call returns no error the pending batch is
    empty and [seqMaxBatch] equals [seqMax]. *)
Theorem no_snapshot_applies_each_mutation (p : string) bindex (os : list pop) :
  forallb outside_snapshot os = true ->
  Forall2 (fun o r =>
             seqSnapEnd (st r) = 0 /\
             forall m, mutation_of o = Some m ->
               exists b, EvBatch b ∈ trace r /\ m ∈ b /\
                         (res r = None ->
                          batch (st r) = NewBatch /\ seqMaxBatch (st r) = seqMax (st r)))
          os (psteps (newPartition p) bindex os).
Proof.
  generalize (eq_refl : seqSnapEnd (newPartition p) = 0).
  generalize (newPartition p). revert bindex.
  induction os as [|o os IH]; intros bindex t Ht Hos; simpl in *; [constructor|].
  apply andb_true_iff in Hos as [Ho Hos].
  pose proof (pexec_seqSnapEnd t bindex o Ho) as Hse.
  constructor.
  - split; [congruence|].
    intros m Hm. destruct o as [key seq val|key seq|s e|v| | |cwr]; simpl in *;
      try discriminate; injection Hm as <-; apply bool_decide_eq_true in Ho.
    + unfold OnDataUpdate.
      pose proof (appendToBuf_fields t val) as (Hv & _ & _ & _ & _ & _ & _ & Ese & _).
      destruct (appendToBufUnlocked t val) as [t1 bufVal]. simpl in Hv, Ese. subst bufVal.
      apply updateSeq_applies; simpl; [lia|].
      apply elem_of_app. right. apply list_elem_of_here.
    + unfold OnDataDelete.
      apply updateSeq_applies; simpl; [lia|].
      apply elem_of_app. right. apply list_elem_of_here.
  - apply IH; [congruence|exact Hos].
Qed.

End OutsideSnapshot.

(** ** The opaque value a partition remembers *)

Section CachedOpaque.

Context {Index : Type} {BI : BleveIndex Index} {CA : Callers}.

Lemma applyBatch_lastOpaque t bindex :
  lastOpaque (st (applyBatchUnlocked t bindex)) = lastOpaque t.
Proof.
  destruct (idx_Batch bindex (batch t)) as [i'|err] eqn:HB.
  - destruct (applyBatch_success t bindex i' HB)
      as (_ & _ & _ & _ & _ & _ & _ & _ & _ & _ & E & _). exact E.
  - rewrite (applyBatch_failure t bindex err HB). reflexivity.
Qed.

Lemma updateSeq_lastOpaque t bindex (seq : Z) :
  lastOpaque (st (updateSeqUnlocked t bindex seq)) = lastOpaque t.
Proof.
  destruct (updateSeq_split t bindex seq)
    as (t1 & [[-> _]|[-> _]] & _ & _ & _ & _ & _ & E & _); simpl.
  - exact E.
  - rewrite applyBatch_lastOpaque. exact E.
Qed.

(** With [lastOpaque] set, [GetOpaque] does not read the opaque key. *)
Lemma GetOpaque_cached t bindex (v : list byte) :
  lastOpaque t = Some v ->
  let g := GetOpaque t bindex in
  lastOpaque (st g) = Some v /\
  Forall (fun e => e = EvGetInternal (partition t)) (trace g) /\
  ((exists sq, res g = Ok (Some v, sq)) \/
   (seqMax t <= 0 /\ exists err, res g = Err err)).
Proof.
  intros Hv. cbv zeta. unfold GetOpaque. rewrite Hv. unfold GetOpaque_seqMax.
  case_bool_decide as Hs; simpl.
  - destruct (idx_GetInternal bindex (partition t)) as [b|err]; simpl.
    + repeat case_bool_decide; simpl; rewrite ?Hv;
        (split; [reflexivity|]); (split; [repeat constructor|]); eauto.
    + split; [exact Hv|]. split; [repeat constructor|]. eauto.
  - rewrite Hv. split; [reflexivity|]. split; [constructor|]. eauto.
Qed.

Lemma pexec_lastOpaque t bindex (o : pop) (v : list byte) :
  is_PSetOpaque o = false ->
  lastOpaque t = Some v ->
  lastOpaque (st (pexec t bindex o)) = Some v.
Proof.
  intros Ho Hv. destruct o as [key seq val|key seq|s e|w| | |cwr]; simpl in *;
    try discriminate.
  - unfold OnDataUpdate.
    pose proof (appendToBuf_fields t val)
      as (_ & _ & _ & _ & _ & _ & _ & _ & _ & El & _).
    destruct (appendToBufUnlocked t val) as [t1 bufVal]. simpl in El.
    rewrite updateSeq_lastOpaque. simpl. congruence.
  - unfold OnDataDelete. rewrite updateSeq_lastOpaque. exact Hv.
  - unfold OnSnapshotStart.
    pose proof (applyBatch_lastOpaque t bindex) as E.
    destruct (res (applyBatchUnlocked t bindex)); simpl; congruence.
  - apply (GetOpaque_cached t bindex v Hv).
  - rewrite applyBatch_lastOpaque. exact Hv.
  - unfold run_body. repeat first [case_match | case_bool_decide]; exact Hv.
Qed.

Lemma pfinal_lastOpaque t bindex (os : list pop) (v : list byte) :
  existsb is_PSetOpaque os = false ->
  lastOpaque t = Some v ->
  lastOpaque (fst (pfinal t bindex os)) = Some v /\
  partition (fst (pfinal t bindex os)) = partition t.
Proof.
  revert t bindex. induction os as [|o os IH]; intros t bindex Hos Hv; simpl in *.
  - auto.
  - apply orb_false_iff in Hos as [Ho Hos].
    destruct (IH (st (pexec t bindex o)) (idx (pexec t bindex o)) Hos
                 (pexec_lastOpaque t bindex o v Ho Hv)) as [E1 E2].
    split; [exact E1|]. rewrite E2. apply pexec_names.
Qed.

(** X8.  After [SetOpaque(value)] with a value that is not empty, or on a
    partition whose [lastOpaque] is not nil, and any operations that are no
    [SetOpaque], the partition still remembers [value]: [GetOpaque] reads
    the opaque key from the index no more (at most the key of the sequence
    number, while [seqMax] is 0) and returns [value], whether or not the
    batch that stages it was applied. *)
Theorem SetOpaque_then_GetOpaque_cached t bindex (value : list byte) (os : list pop) :
  value <> [] \/ lastOpaque t <> None ->
  existsb is_PSetOpaque os = false ->
  let s0 := SetOpaque t bindex value in
  let s := pfinal (st s0) (idx s0) os in
  let g := GetOpaque (fst s) (snd s) in
  lastOpaque (fst s) = Some value /\
  Forall (fun e => e = EvGetInternal (partition t)) (trace g) /\
  ((exists sq, res g = Ok (Some value, sq)) \/
   (seqMax (fst s) <= 0 /\ exists err, res g = Err err)).
Proof.
  intros Hval Hos. cbv zeta.
  assert (lastOpaque (st (SetOpaque t bindex value)) = Some value) as H0.
  { simpl. unfold append_reset. destruct value as [|b value]; [|reflexivity].
    destruct Hval as [Hval|Hval]; [contradiction|].
    destruct (lastOpaque t); [reflexivity|contradiction]. }
  destruct (pfinal_lastOpaque _ (idx (SetOpaque t bindex value)) os value Hos H0)
    as [E1 E2].
  split; [exact E1|].
  destruct (GetOpaque_cached _ (snd (pfinal (st (SetOpaque t bindex value))
                                            (idx (SetOpaque t bindex value)) os))
              value E1) as (_ & Htr & Hres).
  rewrite E2 in Htr. simpl in Htr. auto.
Qed.

End CachedOpaque.

(** ** The sequence number the index holds *)

Lemma Z_of_byte_inj (x y : byte) : Z_of_byte x = Z_of_byte y -> x = y.
Proof.
  unfold Z_of_byte. intros H. apply N2Z.inj in H.
  pose proof (Byte.of_to_N x) as Hx. rewrite H, Byte.of_to_N in Hx.
  congruence.
Qed.

Lemma byte_of_Z_spec (b : byte) (v : Z) : v mod 256 = Z_of_byte b -> byte_of_Z v = b.
Proof.
  intros H. apply Z_of_byte_inj. rewrite Z_of_byte_of_Z. exact H.
Qed.

(** Encoding what [Uint64] read from eight bytes gives the bytes back. *)
Lemma PutUint64_Uint64 (b : list byte) :
  length b = 8%nat -> BigEndian.PutUint64 (BigEndian.Uint64 b) = b.
Proof.
  intros Hlen.
  destruct b as [|b0 [|b1 [|b2 [|b3 [|b4 [|b5 [|b6 [|b7 [|b8 b]]]]]]]]];
    try discriminate.
  rewrite Uint64_big_endian. unfold BigEndian.PutUint64.
  pose proof (Z_of_byte_range b0). pose proof (Z_of_byte_range b1).
  pose proof (Z_of_byte_range b2). pose proof (Z_of_byte_range b3).
  pose proof (Z_of_byte_range b4). pose proof (Z_of_byte_range b5).
  pose proof (Z_of_byte_range b6). pose proof (Z_of_byte_range b7).
  repeat (apply (f_equal2 cons); [apply byte_of_Z_spec|]); [..|reflexivity];
    rewrite ?Z.shiftr_div_pow2 by lia;
    change (2 ^ 56) with 72057594037927936; change (2 ^ 48) with 281474976710656;
    change (2 ^ 40) with 1099511627776; change (2 ^ 32) with 4294967296;
    change (2 ^ 24) with 16777216; change (2 ^ 16) with 65536;
    change (2 ^ 8) with 256;
    change (256 ^ 7) with 72057594037927936; change (256 ^ 6) with 281474976710656;
    change (256 ^ 5) with 1099511627776; change (256 ^ 4) with 4294967296;
    change (256 ^ 3) with 16777216; change (256 ^ 2) with 65536;
    generalize dependent (Z_of_byte b0); generalize dependent (Z_of_byte b1);
    generalize dependent (Z_of_byte b2); generalize dependent (Z_of_byte b3);
    generalize dependent (Z_of_byte b4); generalize dependent (Z_of_byte b5);
    generalize dependent (Z_of_byte b6); generalize dependent (Z_of_byte b7);
    intros; Z.to_euclidean_division_equations; lia.
Qed.

#[export] Instance MemIndex_keeps : BleveIndexKeeps MemIndex.
Proof.
  constructor. intros i i' b key Hb Hs. simpl in *.
  destruct (mi_fail i); [discriminate|].
  injection Hb as <-. rewrite (mem_apply_internal_frame key b i Hs). reflexivity.
Qed.

Section PersistedSeq.

Context {Index : Type} {BI : BleveIndex Index} {CA : Callers}.

(** When [GetOpaque] changes [seqMax], the new one is what it decoded from
    the eight bytes the index returned for [<partition>]. *)
Lemma GetOpaque_seq_read t bindex :
  seqMax (st (GetOpaque t bindex)) = seqMax t \/
  (seqMax t <= 0 /\
   exists b, idx_GetInternal bindex (partition t) = Ok b /\ length b = 8%nat /\
             seqMax (st (GetOpaque t bindex)) = BigEndian.Uint64 (take 8 b)).
Proof.
  unfold GetOpaque, GetOpaque_seqMax.
  repeat first [case_match | case_bool_decide]; simpl in *; auto.
  all: try congruence.
  all: right; split; [first [assumption|lia]|]; eexists;
    (split; [first [reflexivity|eassumption]|]); split; [lia|reflexivity].
Qed.

Context {BII : BleveIndexInternal Index} {BIK : BleveIndexKeeps Index}.

Lemma applyBatch_seq_persisted t bindex :
  partition_ok t -> seq_persisted t bindex ->
  seq_persisted (st (applyBatchUnlocked t bindex)) (idx (applyBatchUnlocked t bindex)).
Proof.
  intros (_ & _ & _ & _ & _ & _ & Hs) [H1 H2].
  destruct (idx_Batch bindex (batch t)) as [i'|err] eqn:HB.
  - destruct (applyBatch_success t bindex i' HB)
      as (_ & Eidx & _ & _ & Esmb & Esm & _ & _ & Ebatch & _ & _ & Ep & _).
    assert (0 < seqMax t ->
            forall w, idx_GetInternal i' (partition t) = Ok w ->
                      w = BigEndian.PutUint64 (seqMax t)) as Hnew.
    { intros Hpos w Hw.
      destruct (staged_internal (partition t) (batch t)) as [v|] eqn:Hst.
      - destruct (Hs v Hst) as [-> _].
        exact (idx_batch_internal bindex i' (batch t) (partition t) _ w HB Hst Hw).
      - rewrite (idx_batch_keeps bindex i' (batch t) (partition t) HB Hst) in Hw.
        exact (H2 Hpos eq_refl w Hw). }
    unfold seq_persisted. rewrite Eidx, Esmb, Esm, Ep, Ebatch.
    split; [exact Hnew|]. intros Hpos _. exact (Hnew Hpos).
  - rewrite (applyBatch_failure t bindex err HB). simpl. split; assumption.
Qed.

Lemma updateSeq_seq_persisted t bindex (seq : Z) :
  partition_ok t -> seq_persisted t bindex ->
  seq_persisted (st (updateSeqUnlocked t bindex seq)) (idx (updateSeqUnlocked t bindex seq)).
Proof.
  intros H [H1 H2]. pose proof H as (Hk & Hn & Hi & Hq & Hw & Hb & Hs).
  destruct (updateSeq_split t bindex seq)
    as (t1 & Hr & Ep & Epo & Esmb & Esnap & Ebuf & Elo & Eq & Hseq).
  assert (partition_ok t1) as Hok1.
  { unfold partition_ok, keys_ok, seq_inv, waiters_ok, buf_ok, seqkey_ok in *.
    rewrite Ep, Epo, Esmb, Eq, Ebuf.
    destruct Hseq as [(Hlt & -> & ->)|(Hle & -> & ->)].
    - split; [exact Hk|]. split; [lia|]. split; [lia|]. split; [exact Hq|].
      split; [exact Hw|]. split.
      + rewrite batch_values_snoc, app_nil_r. exact Hb.
      + intros v. rewrite staged_internal_snoc, decide_True by reflexivity.
        intros [= <-]. split; [reflexivity|lia].
    - exact (conj Hk (conj Hn (conj Hi (conj Hq (conj Hw (conj Hb Hs)))))). }
  assert (seq_persisted t1 bindex) as Hp1.
  { unfold seq_persisted. rewrite Ep, Esmb. split; [exact H1|].
    destruct Hseq as [(Hlt & -> & ->)|(Hle & -> & ->)].
    - intros _. rewrite staged_internal_snoc, decide_True by reflexivity. discriminate.
    - exact H2. }
  destruct Hr as [[-> _] | [-> _]]; [exact Hp1|].
  apply applyBatch_seq_persisted; assumption.
Qed.

Lemma pexec_seq_persisted t bindex (o : pop) :
  partition_ok t -> seq_persisted t bindex ->
  seq_persisted (st (pexec t bindex o)) (idx (pexec t bindex o)).
Proof.
  intros H Hp. pose proof H as (Hk & Hn & Hi & Hq & Hw & Hb & Hs).
  pose proof Hp as [H1 H2].
  destruct o as [key seq val|key seq|s e|v| | |cwr]; simpl.
  - unfold OnDataUpdate.
    pose proof (appendToBuf_fields t val) as Ha. cbv zeta in Ha.
    destruct (appendToBufUnlocked t val) as [t1 bufVal]. simpl in Ha.
    destruct Ha as (-> & Ebuf & _ & Ep & Epo & Esm & Esmb & _ & Eb & _ & Eq).
    apply updateSeq_seq_persisted.
    + unfold partition_ok, keys_ok, seq_inv, waiters_ok, buf_ok, seqkey_ok in *. simpl.
      rewrite Ep, Epo, Esm, Esmb, Eq, Ebuf, Eb. unfold Batch_Index.
      rewrite batch_values_snoc, staged_internal_snoc, Hb.
      exact (conj Hk (conj Hn (conj Hi (conj Hq (conj Hw (conj eq_refl Hs)))))).
    + unfold seq_persisted. simpl. rewrite Ep, Esm, Esmb, Eb. unfold Batch_Index.
      rewrite staged_internal_snoc. split; assumption.
  - unfold OnDataDelete. apply updateSeq_seq_persisted.
    + unfold partition_ok, keys_ok, seq_inv, waiters_ok, buf_ok, seqkey_ok in *. simpl.
      unfold Batch_Delete. rewrite batch_values_snoc, staged_internal_snoc, app_nil_r.
      exact (conj Hk (conj Hn (conj Hi (conj Hq (conj Hw (conj Hb Hs)))))).
    + unfold seq_persisted. simpl. unfold Batch_Delete.
      rewrite staged_internal_snoc. split; assumption.
  - unfold OnSnapshotStart.
    pose proof (applyBatch_seq_persisted t bindex H Hp) as H'.
    destruct (res (applyBatchUnlocked t bindex)); exact H'.
  - unfold seq_persisted. simpl. unfold Batch_SetInternal.
    rewrite staged_internal_snoc.
    rewrite decide_False by (apply keys_ok_distinct; exact Hk).
    split; assumption.
  - pose proof (GetOpaque_fields t bindex) as Hg. cbv zeta in Hg.
    destruct Hg as (Ep & _ & Esmb & _ & _ & Eb & _ & Ei & _).
    unfold seq_persisted. rewrite Ep, Esmb, Eb, Ei. split; [exact H1|].
    destruct (GetOpaque_seq_read t bindex) as [->|(Hle & b & Hread & Hlen & ->)];
      [exact H2|].
    intros _ _ w Hrd. rewrite Hread in Hrd. injection Hrd as <-.
    rewrite take_ge by lia. symmetry. apply PutUint64_Uint64. exact Hlen.
  - apply applyBatch_seq_persisted; assumption.
  - pose proof (run_body_fields t cwr) as (Esm & Esmb & Eb & Ep & _).
    destruct (run_body t cwr) as [t' tr bl]. simpl in *.
    unfold seq_persisted. simpl. rewrite Esm, Esmb, Eb, Ep. exact Hp.
Qed.

Lemma pfinal_seq_persisted t bindex (os : list pop) :
  partition_ok t -> seq_persisted t bindex ->
  seq_persisted (fst (pfinal t bindex os)) (snd (pfinal t bindex os)) /\
  partition (fst (pfinal t bindex os)) = partition t.
Proof.
  revert t bindex. induction os as [|o os IH]; intros t bindex H Hp; simpl; [auto|].
  destruct (IH _ _ (pexec_partition_ok t bindex o H) (pexec_seq_persisted t bindex o H Hp))
    as [E1 E2].
  split; [exact E1|]. rewrite E2. apply pexec_names.
Qed.

(** X9.  Over an index that returns for an internal key what the last batch
    staged under it, and what it held before when the batch staged nothing:
    after any operations on a fresh partition [p], once a sequence number
    was applied ([seqMaxBatch] above 0), a read of the key [<p>] that
    succeeds returns the eight big-endian bytes of [seqMaxBatch]; so a fresh
    partition over that index, as after a restart, gets [seqMaxBatch] as the
    sequence number of [GetOpaque]. *)
Theorem applied_seq_is_persisted (p : string) bindex (os : list pop) :
  let s := pfinal (newPartition p) bindex os in
  0 < seqMaxBatch (fst s) ->
  (forall w, idx_GetInternal (snd s) p = Ok w ->
             w = BigEndian.PutUint64 (seqMaxBatch (fst s))) /\
  (seqMaxBatch (fst s) < uint64_max ->
   forall w sq, res (GetOpaque (newPartition p) (snd s)) = Ok (w, sq) ->
                sq = seqMaxBatch (fst s)).
Proof.
  cbv zeta. intros Hpos.
  assert (seq_persisted (newPartition p) bindex) as H0.
  { split; simpl; intros; lia. }
  destruct (pfinal_seq_persisted _ bindex os (newPartition_ok p) H0) as [[H1 _] Ep].
  simpl in Ep. rewrite Ep in H1. specialize (H1 Hpos).
  split; [exact H1|].
  intros Hmax w sq Hres.
  unfold GetOpaque, GetOpaque_seqMax in Hres. simpl in Hres.
  destruct (idx_GetInternal _ ("o:" ++ p)%string) as [value|err]; [|discriminate].
  simpl in Hres.
  destruct (idx_GetInternal _ p) as [b|err] eqn:Hread; [|discriminate].
  rewrite (H1 b eq_refl) in Hres. simpl in Hres.
  injection Hres as _ <-.
  change (take 8 (BigEndian.PutUint64 ?v)) with (BigEndian.PutUint64 v).
  apply Uint64_PutUint64. unfold is_uint64. lia.
Qed.

End PersistedSeq.

(** ** The added facts on concrete inputs *)

(** [heap_Push_keeps_heap] on the queue of [sample_partition] and a request
    for the sequence number 1. *)
Lemma heap_Push_keeps_heap_witness :
  let h := cwrQueue sample_partition in
  let x := waiter 1 4%nat in
  heap_ordered h /\
  heap_ordered (heap.Push h x) /\
  heap.Push h x ≡ₚ x :: h /\
  cwrQ.Len (heap.Push h x) = S (cwrQ.Len h) /\
  exists top, heap.Push h x !! 0%nat = Some top /\
              Forall (fun c => consistencySeq top <= consistencySeq c) (x :: h).
Proof.
  cbv zeta.
  assert (heap_ordered (cwrQueue sample_partition)) as H
    by (apply heap_orderedb_correct; vm_compute; reflexivity).
  split; [exact H|].
  exact (heap_Push_keeps_heap (cwrQueue sample_partition) (waiter 1 4%nat) H).
Defined.

(** [heap_Pop_returns_least] on the queue of [sample_partition]. *)
Lemma heap_Pop_returns_least_witness :
  let h := cwrQueue sample_partition in
  heap_ordered h /\
  ((h = [] /\ heap.Pop h = None) \/
   (exists top h',
      heap.Pop h = Some (top, h') /\ h !! 0%nat = Some top /\
      heap_ordered h' /\ h ≡ₚ top :: h' /\
      Forall (fun c => consistencySeq top <= consistencySeq c) h)).
Proof.
  cbv zeta.
  assert (heap_ordered (cwrQueue sample_partition)) as H
    by (apply heap_orderedb_correct; vm_compute; reflexivity).
  split; [exact H|].
  exact (heap_Pop_returns_least (cwrQueue sample_partition) H).
Defined.

(** [batch_writes_current_seqMax] on the first update of partition "0", at
    the sequence number 1. *)
Lemma batch_writes_current_seqMax_witness :
  let r := pexec (newPartition "0") mem_empty (POnUpdate "a" 1 [x61]) in
  let b := [OpIndex "a" [x61]; OpSetInternal "0" (Some (BigEndian.PutUint64 1))] in
  let v := Some (BigEndian.PutUint64 1) in
  EvBatch b ∈ trace r /\
  staged_internal "0" b = Some v /\
  v = Some (BigEndian.PutUint64 (seqMax (st r))) /\ 0 < seqMax (st r) /\
  (res r = None -> seqMaxBatch (st r) = seqMax (st r)).
Proof.
  cbv zeta.
  assert (EvBatch [OpIndex "a" [x61]; OpSetInternal "0" (Some (BigEndian.PutUint64 1))]
            ∈ trace (pexec (newPartition "0") mem_empty (POnUpdate "a" 1 [x61]))) as H1
    by (vm_compute; apply list_elem_of_here).
  assert (staged_internal "0"
            [OpIndex "a" [x61]; OpSetInternal "0" (Some (BigEndian.PutUint64 1))]
          = Some (Some (BigEndian.PutUint64 1))) as H2
    by (vm_compute; reflexivity).
  split; [exact H1|]. split; [exact H2|].
  exact (batch_writes_current_seqMax "0" mem_empty [] (POnUpdate "a" 1 [x61]) _ _ H1 H2).
Defined.

(** [no_snapshot_applies_each_mutation] on a run as the TAP feed drives it:
    every sequence number is 0. *)
Lemma no_snapshot_applies_each_mutation_witness :
  let os := [POnUpdate "a" 0 [x61]; POnDelete "a" 0; PSetOpaque [x62];
             POnUpdate "b" 0 []] in
  forallb outside_snapshot os = true /\
  Forall2 (fun o r =>
             seqSnapEnd (st r) = 0 /\
             forall m, mutation_of o = Some m ->
               exists b, EvBatch b ∈ trace r /\ m ∈ b /\
                         (res r = None ->
                          batch (st r) = NewBatch /\ seqMaxBatch (st r) = seqMax (st r)))
          os (psteps (newPartition "0") mem_empty os).
Proof.
  cbv zeta.
  assert (forallb outside_snapshot
            [POnUpdate "a" 0 [x61]; POnDelete "a" 0; PSetOpaque [x62];
             POnUpdate "b" 0 []] = true) as H by reflexivity.
  split; [exact H|].
  exact (no_snapshot_applies_each_mutation "0" mem_empty _ H).
Defined.

(** [SetOpaque_then_GetOpaque_cached] on [sample_partition]: the value is
    returned while its batch is still pending. *)
Lemma SetOpaque_then_GetOpaque_cached_witness :
  let t := sample_partition in
  let value := [x61; x62] in
  let os := [POnUpdate "k3" 6 [x76]; PGetOpaque] in
  let s0 := SetOpaque t mem_empty value in
  let s := pfinal (st s0) (idx s0) os in
  let g := GetOpaque (fst s) (snd s) in
  (value <> [] \/ lastOpaque t <> None) /\
  existsb is_PSetOpaque os = false /\
  batch (fst s) <> NewBatch /\
  lastOpaque (fst s) = Some value /\
  Forall (fun e => e = EvGetInternal (partition t)) (trace g) /\
  ((exists sq, res g = Ok (Some value, sq)) \/
   (seqMax (fst s) <= 0 /\ exists err, res g = Err err)).
Proof.
  cbv zeta.
  assert ([x61; x62] <> [] \/ lastOpaque sample_partition <> None) as H1
    by (left; discriminate).
  assert (existsb is_PSetOpaque [POnUpdate "k3" 6 [x76]; PGetOpaque] = false) as H2
    by reflexivity.
  split; [exact H1|]. split; [exact H2|]. split; [vm_compute; discriminate|].
  exact (SetOpaque_then_GetOpaque_cached sample_partition mem_empty [x61; x62]
           [POnUpdate "k3" 6 [x76]; PGetOpaque] H1 H2).
Defined.

(** [applied_seq_is_persisted] on partition "0" after an update at the
    sequence number 3 and one at 9 inside a snapshot that ends at 20, which
    stays pending. *)
Lemma applied_seq_is_persisted_witness :
  let os := [POnUpdate "a" 3 [x61]; POnSnapshotStart 4 20; POnUpdate "b" 9 [x62]] in
  let s := pfinal (newPartition "0") mem_empty os in
  0 < seqMaxBatch (fst s) /\
  seqMaxBatch (fst s) = 3 /\ seqMax (fst s) = 9 /\
  (forall w, idx_GetInternal (snd s) "0" = Ok w ->
             w = BigEndian.PutUint64 (seqMaxBatch (fst s))) /\
  (seqMaxBatch (fst s) < uint64_max ->
   forall w sq, res (GetOpaque (newPartition "0") (snd s)) = Ok (w, sq) ->
                sq = seqMaxBatch (fst s)).
Proof.
  cbv zeta.
  assert (0 < seqMaxBatch
                (fst (pfinal (newPartition "0") mem_empty
                        [POnUpdate "a" 3 [x61]; POnSnapshotStart 4 20;
                         POnUpdate "b" 9 [x62]]))) as H
    by (vm_compute; reflexivity).
  split; [exact H|]. split; [vm_compute; reflexivity|]. split; [vm_compute; reflexivity|].
  exact (applied_seq_is_persisted "0" mem_empty
           [POnUpdate "a" 3 [x61]; POnSnapshotStart 4 20; POnUpdate "b" 9 [x62]] H).
Defined.

(** ** The destination *)

Section DestInvariants.

Context {Index : Type} {BI : BleveIndex Index}.

Implicit Types (t : BleveDest Index).

Lemma getPartition_ok t (p : string) :
  dest_ok t ->
  match Dest.getPartitionUnlocked t p with
  | (t1, Err err) => t1 = t /\ bindex t = None /\ err = ErrAlreadyClosed
  | (t1, Ok (bdp, bi)) =>
    bindex t = Some bi /\ dest_ok t1 /\ path t1 = path t /\ bindex t1 = bindex t /\
    partition bdp = p /\ partition_ok bdp /\
    (forall q, q <> p -> partitions t1 !! q = partitions t !! q)
  end.
Proof.
  intros Ht. pose proof Ht as [Hc Hm]. unfold Dest.getPartitionUnlocked.
  destruct (bindex t) as [bi|] eqn:Hbi; [|auto].
  destruct (partitions t !! p) as [bdp|] eqn:Hp.
  - destruct (Hm p bdp Hp) as [Hn Hok].
    split; [reflexivity|]. split; [exact Ht|]. auto.
  - split; [reflexivity|]. split.
    { split; simpl; [discriminate|].
      apply map_Forall_insert_2; [|exact Hm].
      split; [reflexivity|apply newPartition_ok]. }
    split; [reflexivity|]. split; [reflexivity|].
    split; [reflexivity|]. split; [apply newPartition_ok|].
    intros q Hq. simpl. apply lookup_insert_ne. congruence.
Qed.

Lemma dispatch_ok {A : Type} t (p : string)
  (m : BleveDestPartition -> Index -> Outcome Index A) (fail : error -> A) :
  (forall bdp bi, partition_ok bdp ->
     partition_ok (st (m bdp bi)) /\ partition (st (m bdp bi)) = partition bdp) ->
  dest_ok t ->
  let t' := fst (fst (Dest.dispatch t p m fail)) in
  dest_ok t' /\ path t' = path t /\
  (bindex t = None <-> bindex t' = None) /\
  (bindex t <> None -> is_Some (partitions t' !! p)) /\
  (forall q, q <> p -> partitions t' !! q = partitions t !! q).
Proof.
  intros Hm Ht. cbv zeta. unfold Dest.dispatch, Dest.getPartition.
  pose proof (getPartition_ok t p Ht) as Hg.
  destruct (Dest.getPartitionUnlocked t p) as [t1 [[bdp bi]|err]]; simpl.
  - destruct Hg as (Hbi & [Hc1 Hm1] & Hpath & Hb1 & Hn & Hok & Hother).
    destruct (Hm bdp bi Hok) as [Hok' Hn'].
    split.
    { split; simpl; [discriminate|].
      apply map_Forall_insert_2; [|exact Hm1]. split; [congruence|exact Hok']. }
    split; [exact Hpath|]. split; [rewrite Hbi; split; discriminate|].
    split; [intros _; rewrite lookup_insert_eq; eauto|].
    intros q Hq. rewrite lookup_insert_ne by congruence. apply Hother. exact Hq.
  - destruct Hg as (-> & Hbi & _).
    split; [exact Ht|]. split; [reflexivity|]. split; [reflexivity|].
    split; [intros Hne; contradiction|]. reflexivity.
Qed.

Lemma step_ok t (o : Dest.op) :
  dest_ok t ->
  let t' := fst (Dest.step t o) in
  dest_ok t' /\ path t' = path t /\
  forall p, op_partition o = Some p ->
    (bindex t = None <-> bindex t' = None) /\
    (bindex t <> None -> is_Some (partitions t' !! p)) /\
    (forall q, q <> p -> partitions t' !! q = partitions t !! q).
Proof.
  intros Ht. cbv zeta.
  assert (forall A (x : BleveDest Index * list event * A) (f : A -> option error),
            fst (let '(t', _, r) := x in (t', f r)) = fst (fst x)) as Hfst
    by (intros A [[? ?] ?] f; reflexivity).
  destruct o as [p key seq val|p key seq|p s e|p v|p|p l s c d|]; simpl.
  - rewrite (Hfst _ _ (fun r => r)).
    destruct (dispatch_ok t p (fun bdp bi => OnDataUpdate bdp bi key seq val) Some)
      as (H1 & H2 & H3); [|exact Ht|].
    { intros bdp bi Hok. split; [exact (pexec_partition_ok bdp bi (POnUpdate key seq val) Hok)|].
      apply (pexec_names bdp bi (POnUpdate key seq val)). }
    split; [exact H1|]. split; [exact H2|]. intros p' [= <-]. exact H3.
  - rewrite (Hfst _ _ (fun r => r)).
    destruct (dispatch_ok t p (fun bdp bi => OnDataDelete bdp bi key seq) Some)
      as (H1 & H2 & H3); [|exact Ht|].
    { intros bdp bi Hok. split; [exact (pexec_partition_ok bdp bi (POnDelete key seq) Hok)|].
      apply (pexec_names bdp bi (POnDelete key seq)). }
    split; [exact H1|]. split; [exact H2|]. intros p' [= <-]. exact H3.
  - rewrite (Hfst _ _ (fun r => r)).
    destruct (dispatch_ok t p (fun bdp bi => OnSnapshotStart bdp bi s e) Some)
      as (H1 & H2 & H3); [|exact Ht|].
    { intros bdp bi Hok. split; [exact (pexec_partition_ok bdp bi (POnSnapshotStart s e) Hok)|].
      apply (pexec_names bdp bi (POnSnapshotStart s e)). }
    split; [exact H1|]. split; [exact H2|]. intros p' [= <-]. exact H3.
  - rewrite (Hfst _ _ (fun r => r)).
    destruct (dispatch_ok t p (fun bdp bi => SetOpaque bdp bi v) Some)
      as (H1 & H2 & H3); [|exact Ht|].
    { intros bdp bi Hok. split; [exact (pexec_partition_ok bdp bi (PSetOpaque v) Hok)|].
      apply (pexec_names bdp bi (PSetOpaque v)). }
    split; [exact H1|]. split; [exact H2|]. intros p' [= <-]. exact H3.
  - rewrite (Hfst _ _ (fun r => match r with Ok _ => None | Err err => Some err end)).
    destruct (dispatch_ok t p (fun bdp bi => GetOpaque bdp bi) Err)
      as (H1 & H2 & H3); [|exact Ht|].
    { intros bdp bi Hok. split; [exact (pexec_partition_ok bdp bi PGetOpaque Hok)|].
      apply (pexec_names bdp bi PGetOpaque). }
    split; [exact H1|]. split; [exact H2|]. intros p' [= <-]. exact H3.
  - rewrite (Hfst _ _ (fun r => r)). unfold Dest.ConsistencyWait.
    pose proof (getPartition_ok t p Ht) as Hg.
    destruct (Dest.getPartitionUnlocked t p) as [t1 [[bdp bi]|err]]; simpl.
    + destruct Hg as (Hbi & [Hc1 Hm1] & Hpath & Hb1 & Hn & Hok & Hother).
      split.
      { split; simpl; [rewrite Hb1, Hbi; discriminate|].
        apply map_Forall_insert_2; [|exact Hm1]. split; [exact Hn|exact Hok]. }
      split; [exact Hpath|]. intros p' [= <-].
      split; [rewrite Hb1; reflexivity|].
      split; [intros _; rewrite lookup_insert_eq; eauto|].
      intros q Hq. rewrite lookup_insert_ne by congruence. apply Hother. exact Hq.
    + destruct Hg as (-> & Hbi & _).
      split; [exact Ht|]. split; [reflexivity|]. intros p' [= <-].
      split; [reflexivity|]. split; [intros Hne; contradiction|]. reflexivity.
  - split; [|split; [|discriminate]].
    + unfold Dest.Close, Dest.closeUnlocked.
      destruct (bindex t) as [bi|] eqn:Hbi; simpl; [|exact Ht].
      destruct (idx_Close bi); simpl; split; simpl;
        first [reflexivity | apply map_Forall_empty].
    + unfold Dest.Close, Dest.closeUnlocked.
      destruct (bindex t) as [bi|]; simpl; [|reflexivity].
      destruct (idx_Close bi); reflexivity.
Qed.

Lemma steps_ok t (os : list Dest.op) :
  dest_ok t ->
  dest_ok (fst (Dest.steps t os)) /\ path (fst (Dest.steps t os)) = path t.
Proof.
  revert t. induction os as [|o os IH]; intros t Ht; simpl; [auto|].
  destruct (step_ok t o Ht) as (H1 & H2 & _).
  destruct (Dest.step t o) as [t1 r]. simpl in *.
  destruct (IH t1 H1) as [H3 H4].
  destruct (Dest.steps t1 os) as [t2 rs]. simpl in *.
  split; [exact H3|congruence].
Qed.

(** X10.  After any operations on a destination made by [NewBleveDest]: the
    path is the one it was made with; if it is closed it holds no partition;
    and every partition it holds is stored under its own name, has the
    opaque key [o:<name>], and has [seqMaxBatch <= seqMax] and
    [0 <= seqMax]. *)
Theorem dest_partitions_well_formed (path0 : string) (bi : Index) (os : list Dest.op) :
  let d := fst (Dest.steps (Dest.NewBleveDest path0 bi) os) in
  path d = path0 /\
  (bindex d = None -> partitions d = ∅) /\
  map_Forall (fun k bdp =>
                partition bdp = k /\ partitionOpaque bdp = ("o:" ++ k)%string /\
                seqMaxBatch bdp <= seqMax bdp /\ 0 <= seqMax bdp)
             (partitions d).
Proof.
  cbv zeta.
  assert (dest_ok (Dest.NewBleveDest path0 bi)) as H0.
  { split; simpl; [discriminate|apply map_Forall_empty]. }
  destruct (steps_ok _ os H0) as [[Hc Hm] Hp].
  split; [exact Hp|]. split; [exact Hc|].
  intros k bdp Hk. destruct (Hm k bdp Hk) as (Hn & Hko & Hpos & Hinv & _).
  unfold keys_ok in Hko. rewrite Hn in Hko.
  split; [exact Hn|]. split; [exact Hko|]. split; [exact Hinv|exact Hpos].
Qed.

(** X13.  An operation that names a partition leaves the other partitions
    of the destination as they are and keeps the path; it neither closes nor
    reopens the destination; and on an open destination the partition it
    names is in the map afterwards. *)
Theorem step_touches_only_its_partition (path0 : string) (bi : Index)
  (os : list Dest.op) (o : Dest.op) (p : string) :
  op_partition o = Some p ->
  let t := fst (Dest.steps (Dest.NewBleveDest path0 bi) os) in
  let t' := fst (Dest.step t o) in
  path t' = path t /\
  (bindex t = None <-> bindex t' = None) /\
  (bindex t <> None -> is_Some (partitions t' !! p)) /\
  (forall q, q <> p -> partitions t' !! q = partitions t !! q).
Proof.
  intros Ho. cbv zeta.
  assert (dest_ok (Dest.NewBleveDest path0 bi)) as H0.
  { split; simpl; [discriminate|apply map_Forall_empty]. }
  destruct (steps_ok _ os H0) as [Ht _].
  destruct (step_ok _ o Ht) as (_ & Hp & H).
  split; [exact Hp|]. exact (H p Ho).
Qed.

(** X12.  A [Close] whose [bindex.Close()] fails returns that error and
    keeps the index handle, but the partitions are gone all the same, each
    with its channel closed: the next operation on a partition gets a fresh
    one, without the batch that was pending, and another [Close] calls
    [bindex.Close()] again. *)
Theorem Close_error_keeps_handle t (bi : Index) (err : error) :
  bindex t = Some bi ->
  idx_Close bi = Some err ->
  let t' := fst (fst (Dest.Close t)) in
  let closed := snd (fst (Dest.Close t)) in
  snd (Dest.Close t) = Some err /\
  bindex t' = Some bi /\ partitions t' = ∅ /\ path t' = path t /\
  (forall p bdp, partitions t !! p = Some bdp -> set_cwrChClosed true bdp ∈ closed) /\
  (forall bdp, bdp ∈ closed -> cwrChClosed bdp = true) /\
  (forall p, snd (Dest.getPartitionUnlocked t' p) = Ok (newPartition p, bi)) /\
  Dest.Close t' = (t', [], Some err).
Proof.
  intros Hbi Hclose. cbv zeta. unfold Dest.Close, Dest.closeUnlocked.
  rewrite Hbi, Hclose. simpl. rewrite Hclose, map_to_list_empty. simpl.
  repeat (split; [reflexivity|]).
  split; [|split; [|split]].
  - intros p bdp Hp.
    apply list_elem_of_In, in_map_iff. exists (p, bdp). split; [reflexivity|].
    apply list_elem_of_In, elem_of_map_to_list. exact Hp.
  - intros bdp Hin. apply list_elem_of_In, in_map_iff in Hin as ([p b] & <- & _).
    reflexivity.
  - intros p. unfold Dest.getPartitionUnlocked. simpl. rewrite lookup_empty.
    reflexivity.
  - reflexivity.
Qed.

(** X11.  [Rollback] whatever partition and sequence number it is given:
    either the close succeeds, and then the destination is closed with no
    partition left, every partition's channel is closed, the files under the
    path are removed and [restart] is called once, in that order, and a
    second [Rollback] fails on "already closed" without removing or
    restarting anything; or the close fails, and then nothing is removed and
    [restart] is not called. *)
Theorem Rollback_all_or_nothing t (p : string) (rollbackSeq : Z) :
  let r := BleveDest_Rollback t p rollbackSeq in
  let t' := fst (fst (fst r)) in
  let closed := snd (fst (fst r)) in
  let effects := snd (fst r) in
  (snd r = None /\ bindex t <> None /\
   effects = [FsRemoveAll (path t); CallRestart] /\
   bindex t' = None /\ partitions t' = ∅ /\
   (forall q bdp, partitions t !! q = Some bdp -> set_cwrChClosed true bdp ∈ closed) /\
   (forall q s, BleveDest_Rollback t' q s = (t', [], [], Some (ErrCantClose ErrAlreadyClosed))))
  \/
  (exists err, snd r = Some (ErrCantClose err) /\ effects = [] /\
               bindex t' = bindex t /\ snd (Dest.closeUnlocked t) = Some err).
Proof.
  cbv zeta. unfold BleveDest_Rollback, Dest.closeUnlocked.
  destruct (bindex t) as [bi|] eqn:Hbi.
  - destruct (idx_Close bi) as [err|] eqn:Hc; simpl.
    + right. exists err. auto.
    + left. split; [reflexivity|]. split; [discriminate|].
      repeat (split; [reflexivity|]). split; [|reflexivity].
      intros q bdp Hq.
      apply list_elem_of_In, in_map_iff. exists (q, bdp). split; [reflexivity|].
      apply list_elem_of_In, elem_of_map_to_list. exact Hq.
  - simpl. right. exists ErrAlreadyClosed. auto.
Qed.

End DestInvariants.

(** ** Every request is answered once *)




Section Answered.

Context {Index : Type} {BI : BleveIndex Index} {CA : Callers}.















End Answered.

(** ** Partitions and vbucket ids *)

(** The first character of a decimal number is no sign. *)
Lemma uint_of_string_no_sign (c : ascii) (rest : string) (u : Decimal.uint) :
  NilZero.uint_of_string (String c rest) = Some u ->
  Ascii.eqb c "-" = false /\ Ascii.eqb c "+" = false.
Proof.
  simpl. destruct (NilEmpty.uint_of_string rest) as [d|]; [|discriminate].
  intros H. apply uint_of_char_spec in H.
  destruct H as [[-> _]|[[-> _]|[[-> _]|[[-> _]|[[-> _]|[[-> _]|[[-> _]|[[-> _]|
                 [[-> _]|[-> _]]]]]]]]]]; split; reflexivity.
Qed.

(** [Atoi] reads back what [Sprintf("%d")] wrote. *)
Lemma Atoi_Sprintf_d (n : Z) : 0 <= n < 2 ^ 63 -> Atoi (Sprintf_d n) = Some n.
Proof.
  intros Hn. pose proof (Sprintf_d_decimal n ltac:(lia)) as H.
  destruct (NilZero.uint_of_string (Sprintf_d n)) as [u|] eqn:Hu; [|discriminate].
  simpl in H. injection H as HN.
  destruct (Sprintf_d n) as [|c rest] eqn:Hs; [discriminate|].
  destruct (uint_of_string_no_sign c rest u Hu) as [E1 E2].
  unfold Atoi. rewrite E1, E2. cbv zeta. simpl orb. cbv iota.
  rewrite Hu, HN, Z2N.id by lia.
  rewrite bool_decide_eq_true_2 by lia. reflexivity.
Qed.

(** [Atoi] reads back what [Itoa] wrote, for every [int]. *)
Lemma Atoi_Itoa (i : Z) : - 2 ^ 63 <= i < 2 ^ 63 -> Atoi (Itoa i) = Some i.
Proof.
  intros Hi. unfold Itoa. case_bool_decide as Hneg; [|apply Atoi_Sprintf_d; lia].
  pose proof (Sprintf_d_decimal (- i) ltac:(lia)) as H.
  destruct (NilZero.uint_of_string (Sprintf_d (- i))) as [u|] eqn:Hu; [|discriminate].
  simpl in H. injection H as HN.
  unfold Atoi. change (Ascii.eqb "-" "-") with true.
  change (Ascii.eqb "-" "+") with false. cbv zeta. simpl orb. cbv iota.
  rewrite Hu, HN, Z2N.id by lia.
  rewrite bool_decide_eq_true_2 by lia. f_equal. lia.
Qed.

Lemma uint16_range (v : Z) : 0 <= uint16 v < 65536.
Proof. unfold uint16. apply Z.mod_pos_bound. lia. Qed.

Lemma ParsePartitions_loop_decimal (keys : list string) (acc : list Z) :
  Forall (fun k => exists n, 0 <= n < 65536 /\ k = Sprintf_d n) keys ->
  exists vbs, ParsePartitions_loop keys acc = ParseOk (acc ++ vbs) /\
              map Sprintf_d vbs = keys /\
              Forall (fun v => 0 <= v < 65536) vbs.
Proof.
  revert acc. induction keys as [|k keys IH]; intros acc Hk; simpl.
  - exists []. rewrite app_nil_r. auto.
  - apply Forall_cons in Hk as [(n & Hn & ->) Hkeys].
    rewrite bool_decide_eq_true_2 by apply Sprintf_d_nonempty.
    rewrite Atoi_Sprintf_d by lia.
    destruct (IH (acc ++ [uint16 n]) Hkeys) as (vbs & Hl & Hm & Hr).
    unfold uint16 in *. rewrite Z.mod_small in * by lia.
    exists (n :: vbs). rewrite Hl, <- app_assoc. simpl. rewrite Hm.
    split; [reflexivity|]. split; [reflexivity|]. constructor; assumption.
Qed.

Lemma ParsePartitions_loop_spec (keys : list string) (acc : list Z) :
  match ParsePartitions_loop keys acc with
  | ParseErr k => k ∈ keys /\ k <> "" /\ Atoi k = None
  | ParseOk vbs =>
    exists new, vbs = acc ++ new /\
      Forall (fun k => k = "" \/ exists n, Atoi k = Some n /\ uint16 n ∈ new) keys /\
      Forall (fun v => 0 <= v < 65536) new /\
      (length new <= length keys)%nat
  end.
Proof.
  revert acc. induction keys as [|k keys IH]; intros acc; simpl.
  - exists []. rewrite app_nil_r. repeat split; constructor.
  - case_bool_decide as Hk.
    + destruct (Atoi k) as [n|] eqn:Ha.
      * specialize (IH (acc ++ [uint16 n])).
        destruct (ParsePartitions_loop keys (acc ++ [uint16 n])) as [vbs|bad].
        -- destruct IH as (new & -> & Hall & Hr & Hlen).
           exists (uint16 n :: new). rewrite <- app_assoc. split; [reflexivity|].
           split; [|split; [constructor; [apply uint16_range|exact Hr]|simpl; lia]].
           constructor.
           ++ right. exists n. split; [exact Ha|apply list_elem_of_here].
           ++ eapply Forall_impl; [exact Hall|].
              intros k' [->|(n' & Hn' & Hin)]; [left; reflexivity|].
              right. exists n'. split; [exact Hn'|]. apply elem_of_cons. right. exact Hin.
        -- destruct IH as (Hin & Hne & Hnone).
           split; [apply elem_of_cons; right; exact Hin|auto].
      * split; [apply list_elem_of_here|auto].
    + specialize (IH acc).
      destruct (ParsePartitions_loop keys acc) as [vbs|bad].
      * destruct IH as (new & -> & Hall & Hr & Hlen).
        exists new. split; [reflexivity|].
        split; [|split; [exact Hr|simpl; lia]].
        constructor; [|exact Hall]. left.
        destruct (decide (k = "")) as [->|Hne]; [reflexivity|contradiction].
      * destruct IH as (Hin & Hne & Hnone).
        split; [apply elem_of_cons; right; exact Hin|auto].
Qed.

Lemma map_to_list_keys {Dest : Type} (dests : gmap string Dest) (k : string) :
  k ∈ map fst (map_to_list dests) <-> is_Some (dests !! k).
Proof.
  split.
  - intros Hin. apply list_elem_of_fmap in Hin as ([k' d] & -> & Hin).
    apply elem_of_map_to_list in Hin. simpl. eauto.
  - intros [d Hd]. apply list_elem_of_fmap. exists (k, d). split; [reflexivity|].
    apply elem_of_map_to_list. exact Hd.
Qed.

(** X15.  When every key of [dests] is the decimal string of a vbucket id
    (below 65536), [ParsePartitionsToVBucketIds] returns no error but one id
    for each key, without duplicates, and the ids are those whose decimal
    string, the partition [VBucketIdToPartitionDest] passes on for them, is
    a key of [dests]. *)
Theorem ParsePartitions_inverts_partition_names {Dest : Type} (dests : gmap string Dest) :
  map_Forall (fun k _ => exists n, 0 <= n < 65536 /\ k = Sprintf_d n) dests ->
  exists vbuckets,
    ParsePartitionsToVBucketIds dests = ParseOk vbuckets /\
    length vbuckets = size dests /\ NoDup vbuckets /\
    forall v, v ∈ vbuckets <-> (0 <= v < 65536 /\ is_Some (dests !! Sprintf_d v)).
Proof.
  intros Hall. unfold ParsePartitionsToVBucketIds.
  assert (Forall (fun k => exists n, 0 <= n < 65536 /\ k = Sprintf_d n)
                 (map fst (map_to_list dests))) as Hkeys.
  { apply Forall_forall. intros k Hk. apply map_to_list_keys in Hk as [d Hd].
    exact (Hall k d Hd). }
  destruct (ParsePartitions_loop_decimal _ [] Hkeys) as (vbs & Hl & Hm & Hr).
  exists vbs. split; [exact Hl|].
  split; [|split].
  - rewrite <- (length_map Sprintf_d vbs), Hm, length_map. apply length_map_to_list.
  - apply (NoDup_fmap_1 Sprintf_d). change (NoDup (map Sprintf_d vbs)).
    rewrite Hm. apply NoDup_fst_map_to_list.
  - intros v. split.
    + intros Hv. rewrite Forall_forall in Hr. split; [exact (Hr v Hv)|].
      apply map_to_list_keys. rewrite <- Hm. apply list_elem_of_fmap. eauto.
    + intros [Hv Hd]. apply map_to_list_keys in Hd. rewrite <- Hm in Hd.
      apply list_elem_of_fmap in Hd as (v' & Heq & Hin).
      rewrite Forall_forall in Hr. pose proof (Hr v' Hin) as Hv'.
      assert (Some v = Some v') as [= ->]; [|exact Hin].
      rewrite <- (Atoi_Sprintf_d v), <- (Atoi_Sprintf_d v') by lia. rewrite Heq. reflexivity.
Qed.

(** X16.  [ParsePartitionsToVBucketIds] returns an error only for a key of
    [dests] that is not empty and that [Atoi] rejects; and when it returns
    ids, every key is empty or read by [Atoi], the low sixteen bits of its
    number being among the ids, which are all below 65536 and no more than
    the keys. *)
Theorem ParsePartitions_error_or_all_parsed {Dest : Type} (dests : gmap string Dest) :
  (forall k, ParsePartitionsToVBucketIds dests = ParseErr k ->
     is_Some (dests !! k) /\ k <> "" /\ Atoi k = None) /\
  (forall vbuckets, ParsePartitionsToVBucketIds dests = ParseOk vbuckets ->
     map_Forall (fun k _ => k = "" \/ exists n, Atoi k = Some n /\ uint16 n ∈ vbuckets) dests /\
     Forall (fun v => 0 <= v < 65536) vbuckets /\
     (length vbuckets <= size dests)%nat).
Proof.
  unfold ParsePartitionsToVBucketIds.
  pose proof (ParsePartitions_loop_spec (map fst (map_to_list dests)) []) as H.
  destruct (ParsePartitions_loop (map fst (map_to_list dests)) []) as [vbs|bad].
  - split; [intros k Hk; discriminate|].
    intros vbuckets [= <-]. destruct H as (new & -> & Hall & Hr & Hlen). simpl.
    split; [|split; [exact Hr|]].
    + intros k d Hd. rewrite Forall_forall in Hall. apply Hall.
      apply map_to_list_keys. eauto.
    + rewrite length_map, length_map_to_list in Hlen. exact Hlen.
  - split; [|intros vbuckets Hv; discriminate].
    intros k [= <-]. destruct H as (Hin & Hne & Hnone).
    split; [apply map_to_list_keys; exact Hin|auto].
Qed.

(** X17.  A partition named by the decimal string of any [int] is accepted:
    its vbucket id is the number's low sixteen bits, so the names 65536 + v
    and v - 65536 are taken for the vbucket v without an error. *)
Theorem ParsePartitions_keeps_low_bits {Dest : Type} (d : Dest) (i : Z) :
  - 2 ^ 63 <= i < 2 ^ 63 ->
  ParsePartitionsToVBucketIds ({[Itoa i := d]} : gmap string Dest) = ParseOk [i mod 65536].
Proof.
  intros Hi. unfold ParsePartitionsToVBucketIds. rewrite map_to_list_singleton. simpl.
  rewrite (Atoi_Itoa i Hi).
  rewrite bool_decide_eq_true_2; [reflexivity|].
  unfold Itoa. case_bool_decide; [discriminate|apply Sprintf_d_nonempty].
Qed.

(** X18.  The partitions [CouchbasePartitions] names for a bucket of [n]
    vbuckets are the decimal strings of 0, ..., n - 1, in that order and
    distinct; and from destinations keyed by them
    [ParsePartitionsToVBucketIds] gets the vbucket ids 0, ..., n - 1 back. *)
Theorem CouchbasePartitions_round_trip (n : nat) :
  Z.of_nat n <= 65536 ->
  exists rv,
    CouchbasePartitions (Ok (Some n)) = inr rv /\
    length rv = n /\ NoDup rv /\
    (forall i, (i < n)%nat -> rv !! i = Some (Sprintf_d (Z.of_nat i))) /\
    (forall (Dest : Type) (dests : gmap string Dest),
       (forall k, is_Some (dests !! k) <-> k ∈ rv) ->
       exists vbuckets,
         ParsePartitionsToVBucketIds dests = ParseOk vbuckets /\
         vbuckets ≡ₚ map Z.of_nat (seq 0 n)).
Proof.
  intros Hn.
  set (ids := map Z.of_nat (seq 0 n)).
  set (dec := fun s => default 0 (Atoi s)).
  assert (Forall (fun v => 0 <= v < 65536) ids) as Hids.
  { apply Forall_forall. intros v Hv. apply list_elem_of_fmap in Hv as (i & -> & Hi).
    apply elem_of_seq in Hi. lia. }
  assert (forall l, Forall (fun v => 0 <= v < 65536) l -> map dec (map Sprintf_d l) = l)
    as Hdec.
  { intros l Hl. induction Hl as [|v l Hv Hl IH]; simpl; [reflexivity|].
    rewrite IH. unfold dec. rewrite Atoi_Sprintf_d by lia. reflexivity. }
  assert (map (fun i => Itoa (Z.of_nat i)) (seq 0 n) = map Sprintf_d ids) as Hrv.
  { unfold ids. rewrite map_map. apply map_ext. intros i. unfold Itoa.
    rewrite bool_decide_eq_false_2 by lia. reflexivity. }
  exists (map Sprintf_d ids). simpl. rewrite Hrv.
  assert (NoDup ids) as Hnd.
  { apply (NoDup_fmap_2 Z.of_nat). apply NoDup_seq. }
  assert (NoDup (map Sprintf_d ids)) as Hndrv.
  { apply (NoDup_fmap_1 dec). change (NoDup (map dec (map Sprintf_d ids))).
    rewrite (Hdec ids Hids). exact Hnd. }
  split; [reflexivity|]. split; [unfold ids; rewrite !length_map, length_seq; reflexivity|].
  split; [exact Hndrv|]. split.
  - intros i Hi. unfold ids. rewrite map_map.
    change (map (fun x => Sprintf_d (Z.of_nat x)) (seq 0 n))
      with ((fun x => Sprintf_d (Z.of_nat x)) <$> seq 0 n).
    rewrite list_lookup_fmap, lookup_seq_lt by lia. reflexivity.
  - intros Dest dests Hdom. unfold ParsePartitionsToVBucketIds.
    assert (map fst (map_to_list dests) ≡ₚ map Sprintf_d ids) as Hperm.
    { apply NoDup_Permutation; [apply NoDup_fst_map_to_list|exact Hndrv|].
      intros k. rewrite map_to_list_keys. apply Hdom. }
    assert (Forall (fun k => exists v, 0 <= v < 65536 /\ k = Sprintf_d v)
                   (map fst (map_to_list dests))) as Hkeys.
    { rewrite Hperm. apply Forall_forall. intros k Hk.
      apply list_elem_of_fmap in Hk as (v & -> & Hv).
      rewrite Forall_forall in Hids. eauto. }
    destruct (ParsePartitions_loop_decimal _ [] Hkeys) as (vbs & Hl & Hm & Hr).
    exists vbs. split; [exact Hl|].
    rewrite <- (Hdec vbs Hr), Hm, <- (Hdec ids Hids).
    change (dec <$> map fst (map_to_list dests) ≡ₚ dec <$> map Sprintf_d ids).
    rewrite Hperm. reflexivity.
Qed.

(** ** [DCPFeed] *)

Section DCPFacts.

Import DCP.

Context {Dest : Type}.

Implicit Types (r : DCPFeed Dest) (m : msg) (ms : list msg).

Lemma incr_range (n : Z) : 0 <= incr n < uint64_max.
Proof. unfold incr. apply Z.mod_pos_bound. reflexivity. Qed.

(** One message: which counter it bumps, and what it leaves alone. *)
Lemma handle_fields r m :
  let r1 := fst (handle r m) in
  let a := snd (handle r m) in
  (numUpdate r1 = if is_call isOnDataUpdate a then incr (numUpdate r) else numUpdate r) /\
  (numDelete r1 = if is_call isOnDataDelete a then incr (numDelete r) else numDelete r) /\
  (numSnapshotStart r1 =
     if is_call isOnSnapshotStart a then incr (numSnapshotStart r) else numSnapshotStart r) /\
  (numSetMetaData r1 =
     if is_call isSetOpaque a then incr (numSetMetaData r) else numSetMetaData r) /\
  (numGetMetaData r1 =
     if is_call isGetOpaque a then incr (numGetMetaData r) else numGetMetaData r) /\
  (numRollback r1 = if is_call isRollback a then incr (numRollback r) else numRollback r) /\
  (numError r1 = if is_MError m then incr (numError r) else numError r) /\
  name r1 = name r /\ dests r1 = dests r /\ pf r1 = pf r /\
  closed r1 = closed r || is_MClose m /\
  is_ABdsClose a = is_MClose m && negb (closed r).
Proof.
  cbv zeta.
  destruct m as [err|vb key seq body|vb key seq|vb s e ty|vb value|vb|vb seq|]; simpl;
    unfold DataUpdate, DataDelete, SnapshotStart, SetMetaData, GetMetaData, Rollback, Close.
  1: rewrite orb_false_r; repeat split; reflexivity.
  1-6: destruct (VBucketIdToPartitionDest _ _ _ _) as [[p d]|err]; simpl;
    rewrite orb_false_r; repeat split; reflexivity.
  destruct (closed r) eqn:Hc; simpl; rewrite ?Hc; repeat split; reflexivity.
Qed.

(** A counter that every message either bumps or leaves counts the messages
    that bump it. *)
Lemma handle_all_counts (f : DCPFeed Dest -> Z) (hit : action Dest -> bool) :
  (forall r m, f (fst (handle r m)) = if hit (snd (handle r m)) then incr (f r) else f r) ->
  forall ms r, 0 <= f r < uint64_max ->
    f (fst (handle_all r ms)) =
      (f r + Z.of_nat (length (filter (fun a => hit a = true) (snd (handle_all r ms)))))
        mod uint64_max.
Proof.
  intros Hstep. induction ms as [|m ms IH]; intros r Hr; simpl.
  - rewrite Z.add_0_r, Z.mod_small by exact Hr. reflexivity.
  - specialize (Hstep r m).
    destruct (handle r m) as [r1 a]. simpl in Hstep.
    assert (0 <= f r1 < uint64_max) as Hr1.
    { rewrite Hstep. destruct (hit a); [apply incr_range|exact Hr]. }
    specialize (IH r1 Hr1).
    destruct (handle_all r1 ms) as [r2 acts]. simpl in *.
    rewrite IH, Hstep. rewrite filter_cons.
    destruct (hit a) eqn:Ha.
    + rewrite decide_True by reflexivity. simpl length. unfold incr.
      rewrite Z.add_mod_idemp_l by (unfold uint64_max; lia). f_equal. lia.
    + rewrite decide_False by discriminate. reflexivity.
Qed.

Lemma handle_all_frame (ms : list msg) r :
  let r' := fst (handle_all r ms) in
  name r' = name r /\ dests r' = dests r /\ pf r' = pf r /\
  length (snd (handle_all r ms)) = length ms /\
  closed r' = closed r || existsb is_MClose ms /\
  length (filter (fun a => is_ABdsClose a = true) (snd (handle_all r ms)))
    = (if negb (closed r) && existsb is_MClose ms then 1 else 0)%nat.
Proof.
  cbv zeta. revert r. induction ms as [|m ms IH]; intros r; simpl.
  - rewrite orb_false_r, andb_false_r. repeat split; reflexivity.
  - pose proof (handle_fields r m) as (_ & _ & _ & _ & _ & _ & _ & Hn & Hd & Hp & Hc & Ha).
    destruct (handle r m) as [r1 a]. simpl in *.
    specialize (IH r1). destruct (handle_all r1 ms) as [r2 acts]. simpl in *.
    destruct IH as (Hn2 & Hd2 & Hp2 & Hl2 & Hc2 & Ha2).
    split; [congruence|]. split; [congruence|]. split; [congruence|].
    split; [congruence|].
    rewrite Hc2, Hc, filter_cons. split; [symmetry; apply orb_assoc|].
    destruct (is_ABdsClose a) eqn:Ea; symmetry in Ha.
    + apply andb_true_iff in Ha as [Hm Hcl]. apply negb_true_iff in Hcl.
      rewrite decide_True by reflexivity. simpl length. rewrite Ha2, Hc, Hm, Hcl.
      reflexivity.
    + rewrite decide_False by discriminate. rewrite Ha2, Hc.
      destruct (closed r), (is_MClose m); simpl in *; try discriminate; reflexivity.
Qed.

Lemma handle_all_counts_msg (f : DCPFeed Dest -> Z) (hit : msg -> bool) :
  (forall r m, f (fst (handle r m)) = if hit m then incr (f r) else f r) ->
  forall ms r, 0 <= f r < uint64_max ->
    f (fst (handle_all r ms)) =
      (f r + Z.of_nat (length (filter (fun m => hit m = true) ms))) mod uint64_max.
Proof.
  intros Hstep. induction ms as [|m ms IH]; intros r Hr; simpl.
  - rewrite Z.add_0_r, Z.mod_small by exact Hr. reflexivity.
  - specialize (Hstep r m).
    destruct (handle r m) as [r1 a]. simpl in Hstep.
    assert (0 <= f r1 < uint64_max) as Hr1.
    { rewrite Hstep. destruct (hit m); [apply incr_range|exact Hr]. }
    specialize (IH r1 Hr1).
    destruct (handle_all r1 ms) as [r2 acts]. simpl in *.
    rewrite IH, Hstep. rewrite filter_cons.
    destruct (hit m) eqn:Ha.
    + rewrite decide_True by reflexivity. simpl length. unfold incr.
      rewrite Z.add_mod_idemp_l by (unfold uint64_max; lia). f_equal. lia.
    + rewrite decide_False by discriminate. reflexivity.
Qed.

(** What a callback passes on depends on the partition function and the
    destinations only, not on the counters or on [closed]. *)
Lemma handle_action r r' m :
  pf r = pf r' -> dests r = dests r' -> is_MClose m = false ->
  snd (handle r m) = snd (handle r' m).
Proof.
  intros Hp Hd Hm.
  destruct m as [err|vb key seq body|vb key seq|vb s e ty|vb value|vb|vb seq|]; simpl;
    try discriminate; try reflexivity;
    unfold DataUpdate, DataDelete, SnapshotStart, SetMetaData, GetMetaData, Rollback;
    rewrite Hp, Hd; destruct (VBucketIdToPartitionDest _ _ _ _) as [[p d]|err];
    reflexivity.
Qed.

Lemma handle_all_actions (ms : list msg) r r0 :
  pf r = pf r0 -> dests r = dests r0 ->
  Forall2 (fun m a => is_MClose m = true \/ a = snd (handle r0 m))
          ms (snd (handle_all r ms)).
Proof.
  revert r. induction ms as [|m ms IH]; intros r Hp Hd; simpl; [constructor|].
  pose proof (handle_fields r m) as (_ & _ & _ & _ & _ & _ & _ & _ & Hd1 & Hp1 & _).
  pose proof (handle_action r r0 m Hp Hd) as Ha.
  destruct (handle r m) as [r1 a]. simpl in *.
  specialize (IH r1 ltac:(congruence) ltac:(congruence)).
  destruct (handle_all r1 ms) as [r2 acts]. simpl in *.
  constructor; [|exact IH].
  destruct (is_MClose m); [left; reflexivity|right; apply Ha; reflexivity].
Qed.

(** X19.  After any messages to a new feed, each counter is, modulo 2^64,
    the number of calls of its kind the feed made on destinations
    ([numUpdate] counts the [OnDataUpdate] calls, and so on), and [numError]
    counts the [OnError] calls; the name and the destinations never change;
    and what a message other than [Close] makes the feed do (call a
    destination, or fail in the partition function) is what it makes a new
    feed do: it depends neither on the counters nor on an earlier [Close]. *)
Theorem DCPFeed_counts_calls (name0 : string)
  (pf0 : string -> list byte -> gmap string Dest -> result Dest)
  (dests0 : gmap string Dest) (ms : list msg) :
  let r := fst (handle_all (NewDCPFeed name0 pf0 dests0) ms) in
  let acts := snd (handle_all (NewDCPFeed name0 pf0 dests0) ms) in
  numUpdate r = count isOnDataUpdate acts mod uint64_max /\
  numDelete r = count isOnDataDelete acts mod uint64_max /\
  numSnapshotStart r = count isOnSnapshotStart acts mod uint64_max /\
  numSetMetaData r = count isSetOpaque acts mod uint64_max /\
  numGetMetaData r = count isGetOpaque acts mod uint64_max /\
  numRollback r = count isRollback acts mod uint64_max /\
  numError r = Z.of_nat (length (filter (fun m => is_MError m = true) ms)) mod uint64_max /\
  name r = name0 /\ dests r = dests0 /\
  Forall2 (fun m a => is_MClose m = true \/
                      a = snd (handle (NewDCPFeed name0 pf0 dests0) m))
          ms acts.
Proof.
  cbv zeta. set (r0 := NewDCPFeed name0 pf0 dests0).
  assert (0 <= 0 < uint64_max) as H0 by (unfold uint64_max; lia).
  split; [|split; [|split; [|split; [|split; [|split; [|split]]]]]].
  - apply (handle_all_counts numUpdate (is_call isOnDataUpdate)); [|exact H0].
    intros r m. apply (handle_fields r m).
  - apply (handle_all_counts numDelete (is_call isOnDataDelete)); [|exact H0].
    intros r m. apply (handle_fields r m).
  - apply (handle_all_counts numSnapshotStart (is_call isOnSnapshotStart)); [|exact H0].
    intros r m. apply (handle_fields r m).
  - apply (handle_all_counts numSetMetaData (is_call isSetOpaque)); [|exact H0].
    intros r m. apply (handle_fields r m).
  - apply (handle_all_counts numGetMetaData (is_call isGetOpaque)); [|exact H0].
    intros r m. apply (handle_fields r m).
  - apply (handle_all_counts numRollback (is_call isRollback)); [|exact H0].
    intros r m. apply (handle_fields r m).
  - apply (handle_all_counts_msg numError is_MError); [|exact H0].
    intros r m. apply (handle_fields r m).
  - pose proof (handle_all_frame ms r0) as (Hn & Hd & _).
    split; [exact Hn|]. split; [exact Hd|].
    apply handle_all_actions; reflexivity.
Qed.

(** X20.  However often [Close] is called among the messages to a new
    feed, [t.bds.Close()] is called once if [Close] was called at all, and
    never otherwise; the feed is closed exactly when [Close] was called. *)
Theorem DCPFeed_closes_source_once (name0 : string)
  (pf0 : string -> list byte -> gmap string Dest -> result Dest)
  (dests0 : gmap string Dest) (ms : list msg) :
  let r := fst (handle_all (NewDCPFeed name0 pf0 dests0) ms) in
  let acts := snd (handle_all (NewDCPFeed name0 pf0 dests0) ms) in
  closed r = existsb is_MClose ms /\
  length (filter (fun a => is_ABdsClose a = true) acts)
    = (if existsb is_MClose ms then 1%nat else 0%nat) /\
  (existsb is_MClose ms = true -> Close r = (r, false)).
Proof.
  cbv zeta.
  pose proof (handle_all_frame ms (NewDCPFeed name0 pf0 dests0)) as (_ & _ & _ & _ & Hc & Ha).
  simpl in Hc, Ha. split; [exact Hc|]. split; [exact Ha|].
  intros Hex. unfold Close. rewrite Hc, Hex. reflexivity.
Qed.

End DCPFacts.

(** ** [Manager] *)

Section ManagerFacts.

Import Mgr.

Context {PIndex Feed PlanPIndex : Type}.
Context (Name : PIndex -> string) (FeedName : Feed -> string)
        (IndexName : PlanPIndex -> string).

Implicit Types (mgr : @Manager PIndex Feed PlanPIndex).

Lemma mstep_ok mgr (o : mop) :
  registry_ok Name FeedName mgr ->
  let mgr' := fst (mstep Name FeedName mgr o) in
  let evs := snd (mstep Name FeedName mgr o) in
  registry_ok Name FeedName mgr' /\ meh mgr' = meh mgr /\
  (meh mgr = true -> fold_left (replay Name) evs (pindexes mgr) = pindexes mgr') /\
  (meh mgr = false -> evs = []).
Proof.
  intros [Hp Hf]. cbv zeta.
  destruct o as [pindex|name|feed|name]; simpl.
  - unfold registerPIndex. destruct (pindexes mgr !! Name pindex) eqn:Hl; simpl.
    + split; [split; assumption|]. auto.
    + split; [split; simpl; [|exact Hf]|].
      { apply map_Forall_insert_2; [reflexivity|exact Hp]. }
      split; [reflexivity|]. split; intros ->; reflexivity.
  - unfold unregisterPIndex. destruct (pindexes mgr !! name) as [pindex|] eqn:Hl; simpl.
    + split; [split; simpl; [|exact Hf]|].
      { apply map_Forall_delete. exact Hp. }
      split; [reflexivity|]. split; intros ->; [|reflexivity].
      simpl. rewrite (Hp name pindex Hl). reflexivity.
    + split; [split; assumption|]. auto.
  - unfold registerFeed. destruct (feeds mgr !! FeedName feed) eqn:Hl; simpl.
    + split; [split; assumption|]. auto.
    + split; [split; simpl; [exact Hp|]|auto].
      apply map_Forall_insert_2; [reflexivity|exact Hf].
  - unfold unregisterFeed. destruct (feeds mgr !! name) eqn:Hl; simpl.
    + split; [split; simpl; [exact Hp|]|auto].
      apply map_Forall_delete. exact Hf.
    + split; [split; assumption|]. auto.
Qed.

Lemma msteps_ok (os : list mop) mgr :
  registry_ok Name FeedName mgr ->
  let mgr' := fst (msteps Name FeedName mgr os) in
  let evs := snd (msteps Name FeedName mgr os) in
  registry_ok Name FeedName mgr' /\ meh mgr' = meh mgr /\
  (meh mgr = true -> fold_left (replay Name) evs (pindexes mgr) = pindexes mgr') /\
  (meh mgr = false -> evs = []).
Proof.
  cbv zeta. revert mgr. induction os as [|o os IH]; intros mgr H; simpl; [auto|].
  destruct (mstep_ok mgr o H) as (H1 & Hm1 & Hr1 & He1).
  destruct (mstep Name FeedName mgr o) as [mgr1 ev1]. simpl in *.
  destruct (IH mgr1 H1) as (H2 & Hm2 & Hr2 & He2).
  destruct (msteps Name FeedName mgr1 os) as [mgr2 ev2]. simpl in *.
  split; [exact H2|]. split; [congruence|]. split.
  - intros Hm. rewrite fold_left_app, (Hr1 Hm). apply Hr2. congruence.
  - intros Hm. rewrite (He1 Hm), He2 by congruence. reflexivity.
Qed.

(** X21.  After any registrations and unregistrations on a new manager,
    every pindex is stored under its [Name] and every feed under its
    [Name()]; and with event handlers, the pindexes they were told to be
    registered and not unregistered since are the manager's pindexes,
    while without handlers no event is raised. *)
Theorem Manager_registry_keyed_by_name (handlers : bool) (os : list mop) :
  let mgr := fst (msteps Name FeedName (NewManager (PlanPIndex:=PlanPIndex) handlers) os) in
  let evs := snd (msteps Name FeedName (NewManager (PlanPIndex:=PlanPIndex) handlers) os) in
  map_Forall (fun k p => Name p = k) (pindexes mgr) /\
  map_Forall (fun k f => FeedName f = k) (feeds mgr) /\
  (handlers = true -> fold_left (replay Name) evs ∅ = pindexes mgr) /\
  (handlers = false -> evs = []).
Proof.
  cbv zeta.
  assert (registry_ok Name FeedName (NewManager (PlanPIndex:=PlanPIndex) handlers)) as H0
    by (split; apply map_Forall_empty).
  destruct (msteps_ok os _ H0) as ([Hp Hf] & _ & Hr & He).
  split; [exact Hp|]. split; [exact Hf|]. split; assumption.
Qed.

(** X22.  Registering a pindex whose name is free succeeds and makes
    [GetPIndex] return it; registering any pindex of that name again fails
    and changes nothing; [unregisterPIndex] of the name returns the pindex
    and leaves the manager as it was before the registration, and a second
    [unregisterPIndex] returns nil. *)
Theorem registerPIndex_unregisterPIndex mgr (p : PIndex) :
  pindexes mgr !! Name p = None ->
  let r := registerPIndex Name mgr p in
  let mgr1 := fst (fst r) in
  let u := unregisterPIndex mgr1 (Name p) in
  snd r = None /\
  snd (fst r) = (if meh mgr then [OnRegisterPIndex p] else []) /\
  GetPIndex mgr1 (Name p) = Some p /\
  (forall q, Name q = Name p ->
     registerPIndex Name mgr1 q = (mgr1, [], Some (ErrPIndexExists (Name p)))) /\
  fst (fst u) = mgr /\ snd u = Some p /\
  snd (fst u) = (if meh mgr then [OnUnregisterPIndex p] else []) /\
  unregisterPIndex (fst (fst u)) (Name p) = (mgr, [], None).
Proof.
  intros Hfree. cbv zeta. unfold registerPIndex, unregisterPIndex, GetPIndex.
  rewrite Hfree. simpl. rewrite lookup_insert_eq. simpl.
  rewrite delete_insert_id by exact Hfree.
  assert ({| feeds := feeds mgr; pindexes := pindexes mgr; meh := meh mgr;
             lastPlanPIndexes := lastPlanPIndexes mgr;
             lastPlanPIndexesByName := lastPlanPIndexesByName mgr |} = mgr) as Hmgr
    by (destruct mgr; reflexivity).
  rewrite Hmgr, Hfree.
  repeat (split; [reflexivity|]). split; [|repeat split; reflexivity].
  intros q Hq. rewrite Hq, lookup_insert_eq. reflexivity.
Qed.

Lemma byName_loop_spec (l : list PlanPIndex) (m : gmap string (list PlanPIndex))
  (k : string) :
  byName_loop IndexName l m !! k =
    match filter (fun pp => IndexName pp = k) l with
    | [] => m !! k
    | g => Some (default [] (m !! k) ++ g)
    end.
Proof.
  unfold byName_loop. revert m. induction l as [|pp l IH]; intros m; simpl; [reflexivity|].
  rewrite IH, filter_cons.
  destruct (decide (IndexName pp = k)) as [->|Hne].
  - rewrite lookup_insert_eq. simpl.
    destruct (filter _ l) as [|x g]; simpl.
    + reflexivity.
    + rewrite <- app_assoc. reflexivity.
  - rewrite lookup_insert_ne by exact Hne. reflexivity.
Qed.

(** X23.  [GetPlanPIndexes] with [refresh] on a plan read without error:
    the map it returns and caches has, under each index name, the plan's
    entries of that [IndexName], in the order they were visited, and no
    entry for a name without entries; as long as the plan read was not nil,
    a call without [refresh] returns the cached plan and map whatever the
    configuration holds by then; and a read that fails leaves the cache as it
    is. *)
Theorem GetPlanPIndexes_groups_by_IndexName mgr (plan : option (list PlanPIndex)) :
  let r := GetPlanPIndexes IndexName mgr true (Ok plan) in
  let mgr1 := fst r in
  let byName := lastPlanPIndexesByName mgr1 in
  snd r = Ok (plan, byName) /\ lastPlanPIndexes mgr1 = plan /\
  feeds mgr1 = feeds mgr /\ pindexes mgr1 = pindexes mgr /\
  (forall k, byName !! k =
     match filter (fun pp => IndexName pp = k) (default [] plan) with
     | [] => None
     | g => Some g
     end) /\
  (forall cfg, plan <> None ->
     GetPlanPIndexes IndexName mgr1 false cfg = (mgr1, Ok (plan, byName))) /\
  (forall cfg, plan = None ->
     GetPlanPIndexes IndexName mgr1 false cfg = GetPlanPIndexes IndexName mgr1 true cfg) /\
  (forall refresh err, refresh = true \/ plan = None ->
     GetPlanPIndexes IndexName mgr1 refresh (Err err) = (mgr1, Err err)).
Proof.
  cbv zeta.
  assert (GetPlanPIndexes IndexName mgr true (Ok plan) =
          ({| feeds := feeds mgr; pindexes := pindexes mgr; meh := meh mgr;
              lastPlanPIndexes := plan;
              lastPlanPIndexesByName :=
                match plan with
                | None => ∅
                | Some l => byName_loop IndexName l ∅
                end |},
           Ok (plan, match plan with
                     | None => ∅
                     | Some l => byName_loop IndexName l ∅
                     end))) as Hr
    by (unfold GetPlanPIndexes; rewrite orb_true_r; reflexivity).
  rewrite Hr. simpl.
  repeat (split; [reflexivity|]).
  split; [|split; [|split]].
  - intros k. destruct plan as [l|]; simpl.
    + rewrite byName_loop_spec, lookup_empty. simpl.
      destruct (filter _ l); reflexivity.
    + apply lookup_empty.
  - intros cfg Hplan. unfold GetPlanPIndexes. simpl.
    rewrite bool_decide_eq_false_2 by exact Hplan. reflexivity.
  - intros cfg ->. reflexivity.
  - intros refresh err [->| ->]; unfold GetPlanPIndexes; simpl.
    + rewrite orb_true_r. reflexivity.
    + reflexivity.
Qed.

End ManagerFacts.

(** ** More of the added facts on concrete inputs *)

(** [Close_error_keeps_handle] on a destination that holds
    [sample_partition] over an index whose [Close] fails. *)
Lemma Close_error_keeps_handle_witness :
  let t := {| path := "/tmp/pindex"; bindex := Some mem_failing;
              partitions := {["0" := sample_partition]} |} in
  let err := ErrEngine "close failed" in
  let t' := fst (fst (Dest.Close t)) in
  let closed := snd (fst (Dest.Close t)) in
  bindex t = Some mem_failing /\
  idx_Close mem_failing = Some err /\
  snd (Dest.Close t) = Some err /\
  bindex t' = Some mem_failing /\ partitions t' = ∅ /\ path t' = path t /\
  (forall p bdp, partitions t !! p = Some bdp -> set_cwrChClosed true bdp ∈ closed) /\
  (forall bdp, bdp ∈ closed -> cwrChClosed bdp = true) /\
  (forall p, snd (Dest.getPartitionUnlocked t' p) = Ok (newPartition p, mem_failing)) /\
  Dest.Close t' = (t', [], Some err).
Proof.
  cbv zeta. split; [reflexivity|]. split; [reflexivity|].
  exact (Close_error_keeps_handle
           {| path := "/tmp/pindex"; bindex := Some mem_failing;
              partitions := {["0" := sample_partition]} |}
           mem_failing (ErrEngine "close failed") eq_refl eq_refl).
Defined.

(** [step_touches_only_its_partition]: a [SetOpaque] on partition "1" of a
    destination that holds partition "0". *)
Lemma step_touches_only_its_partition_witness :
  let os := [Dest.DoUpdate "0" "a" 1 [x61]] in
  let o := Dest.DoSetOpaque "1" [x62] in
  let t := fst (Dest.steps (Dest.NewBleveDest "/tmp/pindex" mem_empty) os) in
  let t' := fst (Dest.step t o) in
  op_partition o = Some "1" /\
  path t' = path t /\
  (bindex t = None <-> bindex t' = None) /\
  (bindex t <> None -> is_Some (partitions t' !! "1")) /\
  (forall q, q <> "1" -> partitions t' !! q = partitions t !! q).
Proof.
  cbv zeta. split; [reflexivity|].
  exact (step_touches_only_its_partition "/tmp/pindex" mem_empty
           [Dest.DoUpdate "0" "a" 1 [x61]] (Dest.DoSetOpaque "1" [x62]) "1" eq_refl).
Defined.

(** [ParsePartitions_inverts_partition_names] on destinations for the
    vbuckets 0, 7 and 1023. *)
Lemma ParsePartitions_inverts_partition_names_witness :
  let dests : gmap string unit := {["0" := tt; "7" := tt; "1023" := tt]} in
  map_Forall (fun k _ => exists n, 0 <= n < 65536 /\ k = Sprintf_d n) dests /\
  exists vbuckets,
    ParsePartitionsToVBucketIds dests = ParseOk vbuckets /\
    length vbuckets = size dests /\ NoDup vbuckets /\
    forall v, v ∈ vbuckets <-> (0 <= v < 65536 /\ is_Some (dests !! Sprintf_d v)).
Proof.
  cbv zeta.
  assert (map_Forall (fun k (_ : unit) => exists n, 0 <= n < 65536 /\ k = Sprintf_d n)
            ({["0" := tt; "7" := tt; "1023" := tt]} : gmap string unit)) as H.
  { apply map_Forall_insert_2; [exists 0; split; [lia|reflexivity]|].
    apply map_Forall_insert_2; [exists 7; split; [lia|reflexivity]|].
    apply map_Forall_singleton. exists 1023. split; [lia|reflexivity]. }
  split; [exact H|].
  exact (ParsePartitions_inverts_partition_names _ H).
Defined.

(** [ParsePartitions_keeps_low_bits] on the partition "65537". *)
Lemma ParsePartitions_keeps_low_bits_witness :
  - 2 ^ 63 <= 65537 < 2 ^ 63 /\
  Itoa 65537 = "65537" /\
  ParsePartitionsToVBucketIds ({[Itoa 65537 := tt]} : gmap string unit)
    = ParseOk [65537 mod 65536].
Proof.
  assert (- 2 ^ 63 <= 65537 < 2 ^ 63) as H by lia.
  split; [exact H|]. split; [reflexivity|].
  exact (ParsePartitions_keeps_low_bits tt 65537 H).
Defined.

(** [CouchbasePartitions_round_trip] on a bucket of three vbuckets. *)
Lemma CouchbasePartitions_round_trip_witness :
  Z.of_nat 3 <= 65536 /\
  exists rv,
    CouchbasePartitions (Ok (Some 3%nat)) = inr rv /\
    length rv = 3%nat /\ NoDup rv /\
    (forall i, (i < 3)%nat -> rv !! i = Some (Sprintf_d (Z.of_nat i))) /\
    (forall (Dest : Type) (dests : gmap string Dest),
       (forall k, is_Some (dests !! k) <-> k ∈ rv) ->
       exists vbuckets,
         ParsePartitionsToVBucketIds dests = ParseOk vbuckets /\
         vbuckets ≡ₚ map Z.of_nat (seq 0 3)).
Proof.
  assert (Z.of_nat 3 <= 65536) as H by lia.
  split; [exact H|].
  exact (CouchbasePartitions_round_trip 3 H).
Defined.

(** [registerPIndex_unregisterPIndex] on a new manager with handlers; a
    pindex is a name with a number here. *)
Lemma registerPIndex_unregisterPIndex_witness :
  let mgr : Mgr.Manager (PIndex:=string * nat) (Feed:=string) (PlanPIndex:=string) :=
    Mgr.NewManager true in
  let p := ("idx_0", 1%nat) in
  let r := Mgr.registerPIndex fst mgr p in
  let mgr1 := fst (fst r) in
  let u := Mgr.unregisterPIndex mgr1 (fst p) in
  Mgr.pindexes mgr !! fst p = None /\
  snd r = None /\
  snd (fst r) = (if Mgr.meh mgr then [Mgr.OnRegisterPIndex p] else []) /\
  Mgr.GetPIndex mgr1 (fst p) = Some p /\
  (forall q, fst q = fst p ->
     Mgr.registerPIndex fst mgr1 q = (mgr1, [], Some (Mgr.ErrPIndexExists (fst p)))) /\
  fst (fst u) = mgr /\ snd u = Some p /\
  snd (fst u) = (if Mgr.meh mgr then [Mgr.OnUnregisterPIndex p] else []) /\
  Mgr.unregisterPIndex (fst (fst u)) (fst p) = (mgr, [], None).
Proof.
  cbv zeta. split; [reflexivity|].
  exact (registerPIndex_unregisterPIndex (Feed:=string) (PlanPIndex:=string) fst
           (Mgr.NewManager true) ("idx_0", 1%nat) eq_refl).
Defined.
